(** * Object graph core of ouisync: remote branches, snapshots and root commits

    A shallow embedding of [src/remote_branch.cpp], [src/snapshot.cpp],
    [src/branch/root_op.h], [src/directory.cpp] and [src/object/tree.h].

    - [std::set<ObjectId>] is a [gset], [std::map<ObjectId, V>] a [gmap];
      range-for loops walk them in ascending key order ([set_items],
      [map_items]).
    - C++ code that mutates members and may throw is a function from a state
      to an [outcome] and the state it leaves behind ([Exn]): an exception
      does not roll anything back.
    - Calls into the object directory, the refcount files and the archive
      are recorded in a call log, and may fail as an I/O fault oracle says. *)

From stdpp Require Import gmap sorting list strings.

Open Scope N_scope.

#[local] Set Warnings "-clear-no-such-hyp".

(** ** Identifiers *)

(** An [ObjectId] is a 32-byte digest compared byte-lexicographically; read
    as a big-endian number this is the order of [N]. *)
Abbreviation ObjectId := N.
Abbreviation UserId := N.

(** ** Exceptions over mutable state *)

Inductive error : Type :=
  | out_of_range        (* std::map::at on an absent key *)
  | io_error            (* the object directory or the filesystem failed *)
  | assertion_failed    (* ouisync_assert / assert *)
  | refcount_underflow  (* a count decremented below zero *)
  | runtime_error       (* std::runtime_error *)
  | exited (code : N)   (* exit(code) *)
  | out_of_fuel.        (* the model's recursion budget ran out *)

Global Instance error_eq_dec : EqDecision error.
Proof. solve_decision. Defined.

Inductive outcome (A : Type) : Type :=
  | Returned (a : A)
  | Threw (e : error).
Arguments Returned {A} a.
Arguments Threw {A} e.

Definition Exn (S A : Type) : Type := S → outcome A * S.

Global Instance Exn_ret {S} : MRet (Exn S) :=
  λ A a s, (Returned a, s).
Global Instance Exn_bind {S} : MBind (Exn S) :=
  λ A B f m s,
    match m s with
    | (Returned a, s') => f a s'
    | (Threw e, s') => (Threw e, s')
    end.

Definition throw {S A} (e : error) : Exn S A := λ s, (Threw e, s).
Definition gets {S A} (f : S → A) : Exn S A := λ s, (Returned (f s), s).
Definition modify {S} (f : S → S) : Exn S unit := λ s, (Returned (), f s).

(** [for (auto& x : xs) body(x);] *)
Fixpoint for_each {S A} (xs : list A) (body : A → Exn S unit) : Exn S unit :=
  match xs with
  | [] => mret ()
  | x :: xs' => body x ;; for_each xs' body
  end.

(** ** Iteration order of [std::set] and [std::map] *)

Definition set_items (s : gset ObjectId) : list ObjectId :=
  merge_sort N.le (elements s).

Definition key_le {V} (a b : ObjectId * V) : Prop := a.1 ≤ b.1.
Global Instance key_le_dec {V} (a b : ObjectId * V) : Decision (key_le a b) :=
  N.le_dec _ _.

Definition map_items {V} (m : gmap ObjectId V) : list (ObjectId * V) :=
  merge_sort key_le (map_to_list m).

(** Objects are whatever has a [calculate_id] (the [template<class Obj>] of
    [RemoteBranch::insert_object] and [_flat_store]). *)
Class Object (Obj : Type) := calculate_id : Obj → ObjectId.

(** ** RemoteBranch ([src/remote_branch.cpp]) *)

Module RemoteBranch.

(** The calls a remote branch makes on the object directory, the refcount
    files, the archive and the snapshot it builds. *)
Inductive io_call : Type :=
  | object_io_store (id : ObjectId)
  | refcount_increment_recursive (id : ObjectId)
  | refcount_increment_direct (id : ObjectId)
  | refcount_flat_remove (id : ObjectId)
  | refcount_deep_remove (id : ObjectId)
  | archive_store.

Global Instance io_call_eq_dec : EqDecision io_call.
Proof. solve_decision. Defined.

(** The object directory as [object::io::exists] sees it, and the log of
    calls made so far. *)
Record Disk : Type := mkDisk {
  objectdir : gset ObjectId;
  calls : list io_call
}.

Record Commit : Type := mkCommit {
  root_id : ObjectId;
  versions : gmap UserId N
}.

Record t : Type := mk {
  _commit : Commit;
  _missing_objects : gmap ObjectId (gset ObjectId);     (* Object -> Parents *)
  _incomplete_objects : gmap ObjectId (gset ObjectId);  (* Object -> Children *)
  _complete_objects : gset ObjectId
}.

Definition set_missing (f : gmap ObjectId (gset ObjectId) → gmap ObjectId (gset ObjectId)) (b : t) : t :=
  mk (_commit b) (f (_missing_objects b)) (_incomplete_objects b) (_complete_objects b).
Definition set_incomplete (f : gmap ObjectId (gset ObjectId) → gmap ObjectId (gset ObjectId)) (b : t) : t :=
  mk (_commit b) (_missing_objects b) (f (_incomplete_objects b)) (_complete_objects b).
Definition set_complete (f : gset ObjectId → gset ObjectId) (b : t) : t :=
  mk (_commit b) (_missing_objects b) (_incomplete_objects b) (f (_complete_objects b)).

(** [RemoteBranch(Commit, path, options)]: only the root is wanted. *)
Definition create (commit : Commit) : t :=
  mk commit {[ root_id commit := ∅ ]} ∅ ∅.

Definition State : Type := t * Disk.

Section WithFaults.

(** Which calls fail with an I/O error. *)
Variable io_fails : io_call → bool.

Definition modify_branch (f : t → t) : Exn State unit :=
  modify (λ s, (f s.1, s.2)).

(** A call that touches the disk: it throws when the oracle says so, and is
    logged when it goes through. *)
Definition io (c : io_call) (f : gset ObjectId → gset ObjectId) : Exn State unit :=
  λ s, if io_fails c then (Threw io_error, s)
       else (Returned (), (s.1, mkDisk (f (objectdir s.2)) (calls s.2 ++ [c]))).

(** [_flat_store]: [object::io::store] then [refcount::increment_recursive]. *)
Definition _flat_store `{Object Obj} (obj : Obj) : Exn State ObjectId :=
  let new_id := calculate_id obj in
  io (object_io_store new_id) (λ dir, {[ new_id ]} ∪ dir) ;;
  io (refcount_increment_recursive new_id) id ;;
  mret new_id.

Definition store_self : Exn State unit := io archive_store id.

(** [filter_missing]: erase the objects that exist in the object directory. *)
Definition filter_missing (objs : gset ObjectId) : Exn State (gset ObjectId) :=
  gets (λ s, filter (λ i, i ∉ objectdir s.2) objs).

(** [_missing_objects.at(id)] and [_incomplete_objects.at(parent)]. *)
Definition missing_at (k : ObjectId) : Exn State (gset ObjectId) :=
  λ s, match _missing_objects s.1 !! k with
       | Some v => (Returned v, s)
       | None => (Threw out_of_range, s)
       end.
Definition incomplete_at (k : ObjectId) : Exn State (gset ObjectId) :=
  λ s, match _incomplete_objects s.1 !! k with
       | Some v => (Returned v, s)
       | None => (Threw out_of_range, s)
       end.

(** [m.insert({k, v})] of [std::map]: an existing entry is kept. *)
Definition map_insert_new {V} (k : ObjectId) (v : V) (m : gmap ObjectId V) : gmap ObjectId V :=
  match m !! k with
  | Some _ => m
  | None => <[k := v]> m
  end.

(** [m[k].insert(x)]: [operator[]] makes an empty set for a new key. *)
Definition map_set_add (k x : ObjectId) (m : gmap ObjectId (gset ObjectId)) : gmap ObjectId (gset ObjectId) :=
  <[k := default ∅ (m !! k) ∪ {[ x ]}]> m.

(** The body of the loop over the parents of a completed object. *)
Definition parent_step (id parent : ObjectId) : Exn State unit :=
  missing_children ← incomplete_at parent;
  let missing_children := missing_children ∖ {[ id ]} in
  modify_branch (set_incomplete <[parent := missing_children]>) ;;
  if decide (missing_children = ∅) then
    (* Reference counting stays the same *)
    modify_branch (set_incomplete (delete parent)) ;;
    modify_branch (set_complete (λ c, {[ parent ]} ∪ c)) ;;
    modify_branch (set_complete (λ c, c ∖ {[ id ]}))
  else mret ().

(** The in-memory part of [insert_object] (lines 85-116): the three
    containers are updated before anything is written to disk. *)
Definition update_memory (id : ObjectId) (children : gset ObjectId) : Exn State unit :=
  parents ← missing_at id;
  modify_branch (set_missing (delete id)) ;;
  if decide (children = ∅) then
    modify_branch (set_complete (λ c, {[ id ]} ∪ c)) ;;
    (* Check that any of the parents of `obj` became "complete". *)
    for_each (set_items parents) (parent_step id)
  else
    children ← filter_missing children;
    for_each (set_items children)
      (λ child, modify_branch (set_missing (map_set_add child id))) ;;
    if decide (children = ∅) then
      modify_branch (set_complete (λ c, {[ id ]} ∪ c))
    else
      modify_branch (set_incomplete (map_insert_new id children)).

Definition insert_object `{Object Obj} (obj : Obj) (children : gset ObjectId)
    : Exn State ObjectId :=
  let id := calculate_id obj in
  update_memory id children ;;
  _flat_store obj ;;
  store_self ;;
  mret id.

(** [introduce_commit]: the in-flight commit is superseded. *)
Definition introduce_commit (commit : Commit) : Exn State unit :=
  incomplete_objects ← gets (λ s, _incomplete_objects s.1);
  complete_objects ← gets (λ s, _complete_objects s.1);
  (* Missing objects don't increase refcount *)
  modify_branch (λ b, mk commit ∅ ∅ ∅) ;;
  for_each (map_items incomplete_objects)
    (λ kv, io (refcount_flat_remove kv.1) id) ;;
  for_each (set_items complete_objects)
    (λ id', io (refcount_deep_remove id') id) ;;
  modify_branch (set_missing (map_insert_new (root_id commit) ∅)) ;;
  store_self.

End WithFaults.

(** The calls [create_snapshot] makes on the snapshot it returns. *)
Inductive snapshot_call : Type :=
  | Snapshot_create (commit : Commit)
  | capture_flat_object (id : ObjectId)
  | capture_full_object (id : ObjectId).

Definition create_snapshot (b : t) : list snapshot_call :=
  Snapshot_create (_commit b) ::
  if decide (_incomplete_objects b = ∅) then
    (λ kv, capture_flat_object kv.1) <$> map_items (_incomplete_objects b)
  else
    capture_full_object <$> set_items (_complete_objects b).

(** [insert_blob] and [insert_tree]; a tree ([src/object/tree.h]) maps names
    to object ids, and [_children] collects the ids. *)
Abbreviation Tree := (gmap string ObjectId).

Definition _children (tree : Tree) : gset ObjectId := map_img tree.

Definition insert_blob `{Object Blob} (io_fails : io_call → bool) (blob : Blob)
    : Exn State ObjectId :=
  insert_object io_fails blob ∅.

Definition insert_tree `{Object Tree} (io_fails : io_call → bool) (tree : Tree)
    : Exn State ObjectId :=
  insert_object io_fails tree (_children tree).

(** A computation that leaves the disk alone. *)
Definition keeps_disk {A} (m : Exn State A) : Prop :=
  ∀ s o s', m s = (o, s') → s'.2 = s.2.

(** *** What a branch keeps between calls *)

(** The parents recorded for a missing object are incomplete objects that
    wait for it; no object is in two of the three containers; the incomplete
    and the complete objects are in the object directory (the first loop of
    [sanity_check] asserts this of the incomplete ones). *)
Record consistent (s : State) : Prop := {
  parents_wait : ∀ id ps p,
    _missing_objects s.1 !! id = Some ps → p ∈ ps →
    ∃ cs, _incomplete_objects s.1 !! p = Some cs ∧ id ∈ cs;
  missing_not_incomplete : ∀ id,
    is_Some (_missing_objects s.1 !! id) → _incomplete_objects s.1 !! id = None;
  missing_not_complete : ∀ id,
    is_Some (_missing_objects s.1 !! id) → id ∉ _complete_objects s.1;
  incomplete_not_complete : ∀ id,
    is_Some (_incomplete_objects s.1 !! id) → id ∉ _complete_objects s.1;
  incomplete_stored : ∀ id,
    is_Some (_incomplete_objects s.1 !! id) → id ∈ objectdir s.2;
  complete_stored : ∀ id, id ∈ _complete_objects s.1 → id ∈ objectdir s.2
}.

(** *** What the specification says of [insert_object] *)

(** Step 2 of the specification: the object is stored, then pinned with
    [increment_recursive] when no child is missing after filtering and with
    [increment_direct] otherwise. *)
Definition pin_call_spec (dir : gset ObjectId) (id : ObjectId) (children : gset ObjectId) : io_call :=
  if decide (filter (λ i, i ∉ dir) children = ∅)
  then refcount_increment_recursive id
  else refcount_increment_direct id.

Definition pins_as_specified `{Object Obj} (obj : Obj) (children : gset ObjectId) (s : State) : Prop :=
  ∀ r s', insert_object (λ _, false) obj children s = (Returned r, s') →
    ∃ rest, calls s'.2 =
      calls s.2 ++ object_io_store (calculate_id obj)
                :: pin_call_spec (objectdir s.2) (calculate_id obj) children :: rest.

(** Section 7 of the specification: an I/O error leaves the in-memory state
    as it was before the call. *)
Definition io_error_keeps_memory `{Object Obj} (io_fails : io_call → bool)
    (obj : Obj) (children : gset ObjectId) (s : State) : Prop :=
  ∀ s', insert_object io_fails obj children s = (Threw io_error, s') → s'.1 = s.1.

(** A parent [p] is promoted by the arrival of [id] when [id] was the last
    child it was waiting for. *)
Definition promoted (id : ObjectId) (incomplete : gmap ObjectId (gset ObjectId)) (p : ObjectId) : Prop :=
  ∃ waiting, incomplete !! p = Some waiting ∧ waiting ∖ {[ id ]} = ∅.

(** Step 4 of the specification, the completion cascade, read as what holds
    after a call whose filtered children are empty: [id] has left the set of
    every recorded parent [p]; a parent whose set became empty is complete,
    is gone from [incomplete_objects], has had its refcount turned recursive,
    and has in turn left the sets of its own parents. *)
Definition cascade_as_specified `{Object Obj} (obj : Obj) (children : gset ObjectId) (s : State) : Prop :=
  let id := calculate_id obj in
  filter (λ i, i ∉ objectdir s.2) children = ∅ →
  ∀ parents r s',
    _missing_objects s.1 !! id = Some parents →
    insert_object (λ _, false) obj children s = (Returned r, s') →
    ∀ p, p ∈ parents →
      (∀ waiting, _incomplete_objects s'.1 !! p = Some waiting → id ∉ waiting) ∧
      (promoted id (_incomplete_objects s.1) p →
         p ∈ _complete_objects s'.1 ∧
         _incomplete_objects s'.1 !! p = None ∧
         (∃ new, calls s'.2 = calls s.2 ++ new ∧ refcount_increment_recursive p ∈ new) ∧
         (∀ q waiting, _incomplete_objects s'.1 !! q = Some waiting → p ∉ waiting)).

(** *** Example runs *)

(** In the examples an object is given by its digest. *)
Definition digest_object : Object ObjectId := λ i, i.

Definition no_faults : io_call → bool := λ _, false.
Definition empty_disk : Disk := mkDisk ∅ [].

(** The archive cannot be written. *)
Definition archive_fails : io_call → bool := λ c, bool_decide (c = archive_store).

(** The refcount of object 1 cannot be released. *)
Definition flat_remove_fails : io_call → bool :=
  λ c, bool_decide (c = refcount_flat_remove 1).

(** A fresh branch for a commit rooted at object 1. *)
Definition fresh_branch : State := (create (mkCommit 1 ∅), empty_disk).

(** The chain 1 -> 2 -> 3 after 1 and 2 have arrived. *)
Definition chain_12 : State :=
  (@insert_object no_faults _ digest_object 2 {[ 3 ]}
     (@insert_object no_faults _ digest_object 1 {[ 2 ]} fresh_branch).2).2.

End RemoteBranch.

(** ** Snapshot ([src/snapshot.cpp]) *)

Module Snapshot.

Inductive NodeType : Type := Missing | Incomplete | Complete.

Global Instance NodeType_eq_dec : EqDecision NodeType.
Proof. solve_decision. Defined.

Record Children : Type := mkChildren {
  missing : gset ObjectId;
  incomplete : gset ObjectId;
  complete : gset ObjectId
}.

Record Node : Type := mkNode {
  type : NodeType;
  parents : gset ObjectId;
  children : Children
}.

(** Modelled from the spec: [Node::is_complete] is declared in snapshot.h,
    which is not among the sources; section 4.7 reads it as "missing and
    incomplete both empty". *)
Definition is_complete (n : Node) : bool :=
  bool_decide (missing (children n) = ∅) && bool_decide (incomplete (children n) = ∅).

(** Modelled from the spec: the refcount record [Rc] of refcount.h, which is
    not among the sources: two counters per object (section 3), zero for an
    object without a record; a decrement below zero is fatal (section 7). *)
Record Rc : Type := mkRc {
  direct_count : N;
  recursive_count : N
}.

(** The removals [forget] asks of the refcount module. *)
Inductive rc_call : Type :=
  | refcount_deep_remove (id : ObjectId)
  | refcount_flat_remove (id : ObjectId).

Global Instance rc_call_eq_dec : EqDecision rc_call.
Proof. solve_decision. Defined.

(** The object directory: the objects [object::io::exists] finds, their
    refcount records, and the removals made so far. *)
Record ObjectStore : Type := mkStore {
  objects : gset ObjectId;
  counts : gmap ObjectId Rc;
  calls : list rc_call
}.

Record t : Type := mk {
  root_id : ObjectId;                (* _commit.root_id *)
  _nodes : gmap ObjectId Node
}.

Definition State : Type := t * ObjectStore.

Definition Rc_load (store : ObjectStore) (id : ObjectId) : Rc :=
  default (mkRc 0 0) (counts store !! id).

Definition modify_nodes (f : gmap ObjectId Node → gmap ObjectId Node) : Exn State unit :=
  modify (λ s, (mk (root_id s.1) (f (_nodes s.1)), s.2)).

Definition modify_rc (id : ObjectId) (f : Rc → Rc) : Exn State unit :=
  modify (λ s, (s.1, mkStore (objects s.2) (<[id := f (Rc_load s.2 id)]> (counts s.2)) (calls s.2))).

Definition increment_recursive_count (id : ObjectId) : Exn State unit :=
  modify_rc id (λ rc, mkRc (direct_count rc) (recursive_count rc + 1)).

Definition increment_direct_count (id : ObjectId) : Exn State unit :=
  modify_rc id (λ rc, mkRc (direct_count rc + 1) (recursive_count rc)).

Definition decrement_direct_count (id : ObjectId) : Exn State unit :=
  rc ← gets (λ s, Rc_load s.2 id);
  if decide (direct_count rc = 0) then throw refcount_underflow
  else modify_rc id (λ rc, mkRc (direct_count rc - 1) (recursive_count rc)).

Definition ouisync_assert {S} (b : bool) : Exn S unit :=
  if b then mret () else throw assertion_failed.

(** [_nodes.at(id)] *)
Definition nodes_at (id : ObjectId) : Exn State Node :=
  λ s, match _nodes s.1 !! id with
       | Some n => (Returned n, s)
       | None => (Threw out_of_range, s)
       end.

(** [Snapshot(objdir, snapshotdir, commit)] *)
Definition create (root : ObjectId) : t :=
  mk root {[ root := mkNode Missing ∅ (mkChildren ∅ ∅ ∅) ]}.

(** The recursion climbs from a completed child to its ancestors; [fuel]
    bounds its depth. *)
Fixpoint notify_parent_that_child_completed (fuel : nat) (parent_id child : ObjectId)
    : Exn State unit :=
  match fuel with
  | O => throw out_of_fuel
  | S fuel =>
    parent ← nodes_at parent_id;
    let ch := children parent in
    let '(missing1, cnt) :=
      if decide (child ∈ missing ch) then (missing ch ∖ {[ child ]}, 1%nat)
      else (missing ch, 0%nat) in
    let '(incomplete1, cnt) :=
      if decide (child ∈ incomplete ch) then (incomplete ch ∖ {[ child ]}, S cnt)
      else (incomplete ch, cnt) in
    modify_nodes <[parent_id :=
      mkNode (type parent) (parents parent) (mkChildren missing1 incomplete1 (complete ch))]> ;;
    ouisync_assert (bool_decide (cnt = 1%nat)) ;;
    let parent1 := mkNode (type parent) (parents parent)
                     (mkChildren missing1 incomplete1 ({[ child ]} ∪ complete ch)) in
    modify_nodes <[parent_id := parent1]> ;;
    if is_complete parent1 then
      decrement_direct_count parent_id ;;
      increment_recursive_count parent_id ;;
      ouisync_assert (bool_decide (type parent1 = Incomplete)) ;;
      modify_nodes <[parent_id := mkNode Complete (parents parent1) (children parent1)]> ;;
      let grandparents := parents parent1 in
      for_each (set_items grandparents)
        (λ grandparent, notify_parent_that_child_completed fuel grandparent parent_id) ;;
      modify_nodes (delete child)
    else mret ()
  end.

(** One round of the loop of [sort_children]. *)
Definition sort_child (store : ObjectStore) (ret : Children) (ch : ObjectId) : Children :=
  if decide (ch ∈ objects store) then
    if decide (0 < recursive_count (Rc_load store ch))
    then mkChildren (missing ret) (incomplete ret) ({[ ch ]} ∪ complete ret)
    else mkChildren (missing ret) ({[ ch ]} ∪ incomplete ret) (complete ret)
  else mkChildren ({[ ch ]} ∪ missing ret) (incomplete ret) (complete ret).

Definition sort_children (store : ObjectStore) (children : gset ObjectId) : Children :=
  foldl (sort_child store) (mkChildren ∅ ∅ ∅) (set_items children).

(** [_nodes.insert({child_id, {Missing, {}, {}}})] keeps a node that is
    there; then [parents.insert(id)]. *)
Definition add_parent (id child_id : ObjectId) (nodes : gmap ObjectId Node) : gmap ObjectId Node :=
  let child := default (mkNode Missing ∅ (mkChildren ∅ ∅ ∅)) (nodes !! child_id) in
  <[child_id := mkNode (type child) ({[ id ]} ∪ parents child) (children child)]> nodes.

Definition insert_object (fuel : nat) (id : ObjectId) (children : gset ObjectId)
    : Exn State unit :=
  i ← gets (λ s, _nodes s.1 !! id);
  match i with
  | None => mret ()
  | Some node =>
    if decide (type node ≠ Missing) then mret ()
    else
      sorted ← gets (λ s, sort_children s.2 children);
      modify_nodes <[id :=
        mkNode (if decide (children = ∅) then Complete else Incomplete)
               (parents node) sorted]> ;;
      for_each (set_items children) (λ child_id, modify_nodes (add_parent id child_id)) ;;
      node ← nodes_at id;
      if is_complete node then
        increment_recursive_count id ;;
        (* If a parent becomes complete as well, they'll try to remove
           `node` from `_nodes`. Thus we need to create copy of parents. *)
        for_each (set_items (parents node))
          (λ parent_id, notify_parent_that_child_completed fuel parent_id id)
      else
        increment_direct_count id
  end.

(** The sender's side of a delivery: the object is put into the object
    directory, then handed to the snapshot. *)
Definition receive (fuel : nat) (id : ObjectId) (children : gset ObjectId) : Exn State unit :=
  modify (λ s, (s.1, mkStore ({[ id ]} ∪ objects s.2) (counts s.2) (calls s.2))) ;;
  insert_object fuel id children.

Section WithFaults.

(** Which removals fail with an exception. *)
Variable io_fails : rc_call → bool.

Definition remove (c : rc_call) : Exn State unit :=
  λ s, if io_fails c then (Threw io_error, s)
       else (Returned (), (s.1, mkStore (objects s.2) (counts s.2) (calls s.2 ++ [c]))).

(** [try { body } catch (const std::exception&) { exit(1); }] *)
Definition try_or_exit {A} (body : Exn State A) : Exn State A :=
  λ s, match body s with
       | (Threw e, s') =>
           if bool_decide (e ∈ [out_of_range; io_error; runtime_error])
           then (Threw (exited 1), s') else (Threw e, s')
       | r => r
       end.

Definition forget : Exn State unit :=
  nodes ← gets (λ s, _nodes s.1);
  modify_nodes (λ _, ∅) ;;
  try_or_exit
    (for_each (map_items nodes) (λ kv,
       match type kv.2 with
       | Complete => remove (refcount_deep_remove kv.1)
       | Incomplete => remove (refcount_flat_remove kv.1)
       | Missing => mret ()
       end)).

End WithFaults.

(** *** Cloning, and how node types move *)

(** One round of the loop of [clone]: [c._nodes.insert({id, node})] keeps
    an entry that is there, then the count that goes with the type of the
    node is incremented. *)
Definition clone_step (c : t) (kv : ObjectId * Node) : Exn State t :=
  let c := mk (root_id c) (RemoteBranch.map_insert_new kv.1 kv.2 (_nodes c)) in
  match type kv.2 with
  | Complete => increment_recursive_count kv.1
  | Incomplete => increment_direct_count kv.1
  | Missing => mret ()
  end ;;
  mret c.

Fixpoint clone_loop (kvs : list (ObjectId * Node)) (c : t) : Exn State t :=
  match kvs with
  | [] => mret c
  | kv :: kvs' => c ← clone_step c kv; clone_loop kvs' c
  end.

(** [clone]: the constructor makes the new snapshot with a Missing node for
    the root, then the nodes are copied one by one. *)
Definition clone : Exn State t :=
  this ← gets (λ s, s.1);
  clone_loop (map_items (_nodes this)) (create (root_id this)).

(** The count [clone] takes for a node of the given type. *)
Definition clone_count (ty : option NodeType) (rc : Rc) : Rc :=
  match ty with
  | Some Complete => mkRc (direct_count rc) (recursive_count rc + 1)
  | Some Incomplete => mkRc (direct_count rc + 1) (recursive_count rc)
  | _ => rc
  end.

(** How a node map changes while parents are notified: no node appears, and
    a type stays or goes from Incomplete to Complete. *)
Definition evolves (nodes nodes' : gmap ObjectId Node) : Prop :=
  ∀ x n', nodes' !! x = Some n' →
    ∃ n, nodes !! x = Some n ∧
         (type n' = type n ∨ (type n = Incomplete ∧ type n' = Complete)).

(** Missing, then Incomplete, then Complete. *)
Definition type_rank (t : NodeType) : nat :=
  match t with Missing => 0 | Incomplete => 1 | Complete => 2 end.

(** *** What the specification says of the snapshot *)

(** The removal [forget] owes each node. *)
Definition removal (kv : ObjectId * Node) : option rc_call :=
  match type kv.2 with
  | Complete => Some (refcount_deep_remove kv.1)
  | Incomplete => Some (refcount_flat_remove kv.1)
  | Missing => None
  end.

(** Sections 4.7 and 9 of the specification: [forget] goes through every
    node, and a removal that fails is logged and skipped; nothing is thrown
    and the process is not aborted. *)
Definition forget_as_specified (io_fails : rc_call → bool) (s : State) : Prop :=
  ∀ o s', forget io_fails s = (o, s') →
    o = Returned () ∧
    calls s'.2 = calls s.2 ++
      filter (λ c, io_fails c = false) (omap removal (map_items (_nodes s.1))).

(** The removals made before the first one that fails. *)
Fixpoint until_failure (io_fails : rc_call → bool) (cs : list rc_call) : list rc_call :=
  match cs with
  | [] => []
  | c :: cs' => if io_fails c then [] else c :: until_failure io_fails cs'
  end.

(** Property P4 of the specification for one delivery [order] into a fresh
    snapshot of [root]: afterwards the root's node is Complete with
    recursive = 1 and direct = 0, and no other node is left in the map. *)
Definition completes_as_specified (fuel : nat) (root : ObjectId)
    (order : list (ObjectId * gset ObjectId)) : Prop :=
  ∀ o s',
    for_each order (λ p, receive fuel p.1 p.2) (create root, mkStore ∅ ∅ []) = (o, s') →
    o = Returned () ∧
    (∃ n, _nodes s'.1 !! root = Some n ∧ type n = Complete) ∧
    Rc_load s'.2 root = mkRc 0 1 ∧
    ∀ id, id ≠ root → _nodes s'.1 !! id = None.

(** *** Trees delivered parents first *)

(** A delivery order for a tree, parents first: each object that arrives is
    expected (the root at the start, then the children that the arrived
    objects list), and the children an object lists have not been seen
    before. When the order ends nothing is expected any more. *)
Fixpoint top_down (seen expecting : gset ObjectId)
    (order : list (ObjectId * gset ObjectId)) : Prop :=
  match order with
  | [] => expecting = ∅
  | p :: rest =>
      p.1 ∈ expecting ∧ p.2 ## seen ∧
      top_down (seen ∪ p.2) (expecting ∖ {[ p.1 ]} ∪ p.2) rest
  end.

(** An object the object directory does not hold and has no count for. *)
Definition fresh_in_store (store : ObjectStore) (x : ObjectId) : Prop :=
  (x ∉ objects store) ∧ counts store !! x = None.

(** The parents recorded in a node: none for the root, otherwise the one
    open node that has it among its missing children. *)
Definition parent_ok (root : ObjectId) (opened : gset ObjectId)
    (nodes : gmap ObjectId Node) (ps : gset ObjectId) (y : ObjectId) : Prop :=
  (y = root ∧ ps = ∅) ∨
  (y ≠ root ∧ ∃ pp npp, ps = {[ pp ]} ∧ pp ∈ opened ∧ nodes !! pp = Some npp ∧
                         y ∈ missing (children npp)).

(** What holds between two deliveries of such an order. [opened] are the
    nodes that have arrived and still wait for children, [expecting] the
    children listed and not yet arrived; [hole] holds the node that has just
    become complete while its parent has not been told yet. An open node is
    Incomplete with a direct count, and waits for children that are expected,
    open or in the hole; the root is expected, open, or Complete with a
    recursive count. The depth grows from an open node to its open
    children. *)
Record tree_inv (root : ObjectId) (universe seen expecting opened hole : gset ObjectId)
    (s : State) : Prop := {
  inv_unseen : ∀ x, x ∉ seen → _nodes s.1 !! x = None;
  inv_fresh : ∀ z, z ∈ universe → z ∉ seen ∨ z ∈ expecting → fresh_in_store s.2 z;
  inv_open : ∀ y, y ∈ opened → ∃ ps M C,
    _nodes s.1 !! y = Some (mkNode Incomplete ps (mkChildren M ∅ C)) ∧
    M ≠ ∅ ∧ M ⊆ expecting ∪ opened ∪ hole ∧
    Rc_load s.2 y = mkRc 1 0 ∧ parent_ok root opened (_nodes s.1) ps y;
  inv_child : ∀ y ny k, y ∈ opened → _nodes s.1 !! y = Some ny →
    k ∈ missing (children ny) →
    ∃ nk, _nodes s.1 !! k = Some nk ∧ parents nk = {[ y ]};
  inv_expecting : ∀ x, x ∈ expecting → ∃ ps,
    _nodes s.1 !! x = Some (mkNode Missing ps (mkChildren ∅ ∅ ∅)) ∧
    parent_ok root opened (_nodes s.1) ps x;
  inv_root : root ∈ expecting ∨ root ∈ opened ∨
    ∃ n, _nodes s.1 !! root = Some n ∧ type n = Complete ∧ Rc_load s.2 root = mkRc 0 1;
  inv_depth : ∃ d : ObjectId → nat, ∀ y ny k, y ∈ opened → _nodes s.1 !! y = Some ny →
    k ∈ missing (children ny) → k ∈ opened → (d y < d k)%nat
}.

Arguments inv_unseen {root universe seen expecting opened hole s} _.
Arguments inv_fresh {root universe seen expecting opened hole s} _.
Arguments inv_open {root universe seen expecting opened hole s} _.
Arguments inv_child {root universe seen expecting opened hole s} _.
Arguments inv_expecting {root universe seen expecting opened hole s} _.
Arguments inv_root {root universe seen expecting opened hole s} _.
Arguments inv_depth {root universe seen expecting opened hole s} _.

(** *** Example runs *)

Definition no_faults : rc_call → bool := λ _, false.

(** Root 1 with the children 2 and 3, where 2 has the child 4 (scenario 4 of
    the specification), children first. *)
Definition scenario_4 : list (ObjectId * gset ObjectId) :=
  [(4, ∅); (2, {[ 4 ]}); (3, ∅); (1, {[ 2; 3 ]})].

(** The same tree, parents first. *)
Definition parents_first : list (ObjectId * gset ObjectId) :=
  [(1, {[ 2; 3 ]}); (2, {[ 4 ]}); (3, ∅); (4, ∅)].

(** Root 1 with the leaves 2 and 3, root first. *)
Definition root_first : list (ObjectId * gset ObjectId) :=
  [(1, {[ 2; 3 ]}); (2, ∅); (3, ∅)].

(** A snapshot of root 1 over an object directory that already holds object
    2 with a recursive count, as [RemoteBranch::insert_object] leaves it. *)
Definition with_stored_child : State :=
  (create 1, mkStore {[ 2 ]} {[ 2 := mkRc 0 1 ]} []).

(** A snapshot with a Complete node 1 and an Incomplete node 2. *)
Definition two_nodes : State :=
  (mk 1 {[ 1 := mkNode Complete ∅ (mkChildren ∅ ∅ ∅);
           2 := mkNode Incomplete ∅ (mkChildren {[ 3 ]} ∅ ∅) ]},
   mkStore {[ 1; 2 ]} {[ 1 := mkRc 0 1; 2 := mkRc 1 0 ]} []).

(** Root 1 with the children 2, 3 and 5, where 2 and 3 share the child 4;
    4 arrives after 2 and before 3. *)
Definition shared_child : list (ObjectId * gset ObjectId) :=
  [(1, {[ 2; 3; 5 ]}); (2, {[ 4 ]}); (4, ∅); (3, {[ 4 ]})].

Definition deep_remove_fails : rc_call → bool :=
  λ c, bool_decide (c = refcount_deep_remove 1).

End Snapshot.

(** ** Directory ([src/directory.cpp]) and RootOp ([src/branch/root_op.h]) *)

Module RootOp.

Abbreviation VersionVector := (gmap UserId N).

Definition u32 (n : N) : N := n mod 2 ^ 32.
Definition u64 (n : N) : N := n mod 2 ^ 64.

(** Modelled from the spec: [VersionVector] (its header is not among the
    sources) maps users to 64-bit counters, absent entries being zero;
    [merge] is the pointwise maximum and the order is pointwise
    (section 3). *)
Definition version_of (vv : VersionVector) (u : UserId) : N := default 0 (vv !! u).
Definition set_version (u : UserId) (n : N) (vv : VersionVector) : VersionVector :=
  <[u := n]> vv.
Definition merge (a b : VersionVector) : VersionVector :=
  union_with (λ x y, Some (N.max x y)) a b.
Definition vv_le (a b : VersionVector) : Prop :=
  ∀ u, version_of a u ≤ version_of b u.

Record VersionedObject : Type := mkVersioned {
  id : ObjectId;
  versions : VersionVector
}.

(** filename -> user -> versioned object *)
Record Directory : Type := mkDirectory {
  _name_map : gmap string (gmap UserId VersionedObject)
}.

(** The entries of a directory in ascending filename order. *)
Definition name_le {V} (a b : string * V) : Prop := String.le a.1 b.1.
Global Instance name_le_dec {V} (a b : string * V) : Decision (name_le a b) :=
  String.le_dec _ _.

Definition name_items {V} (m : gmap string V) : list (string * V) :=
  merge_sort name_le (map_to_list m).

(** What is fed to the hash, one [hash.update] at a time. *)
Inductive hash_update : Type :=
  | update_tag (tag : N)
  | update_u32 (n : N)
  | update_string (s : string)
  | update_user (u : UserId)
  | update_id (i : ObjectId)
  | update_versions (vv : VersionVector).

(** Modelled from the spec: the tag byte of a directory (section 6.1). *)
Definition Directory_tag : N := 1.

Definition Directory_updates (d : Directory) : list hash_update :=
  update_tag Directory_tag ::
  update_u32 (u32 (N.of_nat (size (_name_map d)))) ::
  (name_items (_name_map d) ≫= λ entry,
     update_string entry.1 ::
     update_u32 (u32 (N.of_nat (size entry.2))) ::
     (map_items entry.2 ≫= λ uv,
        [update_user uv.1; update_id (id uv.2); update_versions (versions uv.2)])).

(** [for (filename, user_map) for (username, vobj) result = result.merge(vobj.versions)] *)
Definition calculate_version_vector_union (d : Directory) : VersionVector :=
  foldl (λ result entry,
           foldl (λ result uv, merge result (versions uv.2)) result (map_items entry.2))
        ∅ (name_items (_name_map d)).

(** Modelled from the spec: [for_each_unique_child] (declared in
    directory.h, not among the sources) visits each child id once, however
    many entries share it (section 4.4). *)
Definition unique_children (d : Directory) : list ObjectId :=
  set_items (list_to_set (name_items (_name_map d) ≫= λ entry,
                            (λ uv, id uv.2) <$> map_items entry.2)).

(** A block is a directory or something else. *)
Inductive Block : Type :=
  | block_directory (d : Directory)
  | block_blob (bytes : list N).

(** [Directory::maybe_load] *)
Definition maybe_load (block : Block) : option Directory :=
  match block with
  | block_directory d => Some d
  | block_blob _ => None
  end.

Abbreviation Edge := (UserId * ObjectId * ObjectId)%type.

(** The calls a [RootOp] makes on the block store, the object store and the
    index. *)
Inductive call : Type :=
  | block_store_store (i : ObjectId)
  | block_store_load (i : ObjectId)
  | objstore_remove (i : ObjectId)
  | index_insert_object (user : UserId) (obj parent : ObjectId)
  | index_remove_object (user : UserId) (obj parent : ObjectId)
  | index_set_version_vector (user : UserId) (vv : VersionVector).

(** Modelled from the spec: the block store keyed by id (section 4.2; the
    object store is a layer over it) and the index with the commit of each
    user and the edges (user, child, parent) (section 3); neither class is
    among the sources. The calls made are logged. *)
Record World : Type := mkWorld {
  blocks : gmap ObjectId Block;
  edges : gset Edge;
  commits : gmap UserId VersionedObject;
  log : list call
}.

Definition logged (c : call) (w : World) : World :=
  mkWorld (blocks w) (edges w) (commits w) (log w ++ [c]).

Definition Block_store_load (i : ObjectId) : Exn World Block :=
  λ w, match blocks w !! i with
       | Some b => (Returned b, logged (block_store_load i) w)
       | None => (Threw runtime_error, w)
       end.

Definition Block_store_store (i : ObjectId) (b : Block) : Exn World unit :=
  modify (λ w, logged (block_store_store i)
                 (mkWorld (<[i := b]> (blocks w)) (edges w) (commits w) (log w))).

Definition Objstore_remove (i : ObjectId) : Exn World unit :=
  modify (λ w, logged (objstore_remove i)
                 (mkWorld (delete i (blocks w)) (edges w) (commits w) (log w))).

Definition Index_insert_object (user : UserId) (obj parent : ObjectId) : Exn World unit :=
  modify (λ w, logged (index_insert_object user obj parent)
                 (mkWorld (blocks w) ({[ (user, obj, parent) ]} ∪ edges w) (commits w) (log w))).

Definition Index_remove_object (user : UserId) (obj parent : ObjectId) : Exn World unit :=
  modify (λ w, logged (index_remove_object user obj parent)
                 (mkWorld (blocks w) (edges w ∖ {[ (user, obj, parent) ]}) (commits w) (log w))).

Definition someone_has (obj : ObjectId) (es : gset Edge) : bool :=
  bool_decide (set_Exists (λ e : Edge, e.1.2 = obj) es).

Definition Index_someone_has (obj : ObjectId) : Exn World bool :=
  gets (λ w, someone_has obj (edges w)).

Definition Index_set_version_vector (user : UserId) (vv : VersionVector) : Exn World unit :=
  modify (λ w, logged (index_set_version_vector user vv)
                 (mkWorld (blocks w) (edges w)
                    (alter (λ c, mkVersioned (id c) vv) user (commits w)) (log w))).

(** The version vector the index holds for a user. *)
Definition branch_versions (user : UserId) (w : World) : VersionVector :=
  default ∅ (versions <$> commits w !! user).

Record t : Type := mk {
  _this_user_id : UserId;
  _tree : Directory;
  _original_commit : VersionedObject
}.

(** [remove_recursive] calls itself on the children of a directory; [fuel]
    bounds the depth. *)
Fixpoint remove_recursive (fuel : nat) (user : UserId) (obj_id parent_id : ObjectId)
    : Exn World unit :=
  match fuel with
  | O => throw out_of_fuel
  | S fuel =>
    Index_remove_object user obj_id parent_id ;;
    has ← Index_someone_has obj_id;
    if (has : bool) then mret ()
    else
      block ← Block_store_load obj_id;
      match maybe_load block with
      | Some d =>
          for_each (unique_children d)
            (λ child_id, remove_recursive fuel user child_id obj_id)
      | None => mret ()
      end ;;
      Objstore_remove obj_id
  end.

(** [increment]: the local user's counter of the original commit plus one,
    in 64 bits. *)
Definition increment (op : t) (vv : VersionVector) : VersionVector :=
  set_version (_this_user_id op)
    (u64 (version_of (versions (_original_commit op)) (_this_user_id op) + 1)) vv.

Section WithHash.

(** The digest is computed by an external hash over the updates. *)
Variable Sha256 : list hash_update → ObjectId.

Definition calculate_id (d : Directory) : ObjectId := Sha256 (Directory_updates d).

(** [Directory::save]: the block goes under its own id. *)
Definition save (d : Directory) : Exn World ObjectId :=
  Block_store_store (calculate_id d) (block_directory d) ;;
  mret (calculate_id d).

(** The constructor: the user's commit is read from the index and its root
    directory loaded. *)
Definition create (this_user_id : UserId) : Exn World t :=
  commit ← gets (λ w, commits w !! this_user_id);
  match commit with
  | None => throw runtime_error
  | Some original_commit =>
      block ← Block_store_load (id original_commit);
      match maybe_load block with
      | Some tree => mret (mk this_user_id tree original_commit)
      | None => throw runtime_error   (* "Failed to parse block as a directory" *)
      end
  end.

Definition commit (fuel : nat) (op : t) : Exn World bool :=
  let new_id := calculate_id (_tree op) in
  let old_id := id (_original_commit op) in
  if decide (old_id = new_id) then mret false
  else
    new_id_ ← save (_tree op);
    (if decide (new_id = new_id_) then mret () else throw assertion_failed) ;;
    for_each (unique_children (_tree op))
      (λ child_id, Index_insert_object (_this_user_id op) child_id new_id) ;;
    Index_insert_object (_this_user_id op) new_id new_id ;;
    Index_set_version_vector (_this_user_id op) (calculate_version_vector_union (_tree op)) ;;
    remove_recursive fuel (_this_user_id op) old_id old_id ;;
    mret true.

(** *** What the specification says of a commit *)

(** Property P2 of the specification for one commit: the version vector of
    the branch does not decrease and the local user's counter goes up by
    one. *)
Definition commit_monotone_as_specified (fuel : nat) (op : t) (w : World) : Prop :=
  ∀ w', commit fuel op w = (Returned true, w') →
    vv_le (branch_versions (_this_user_id op) w) (branch_versions (_this_user_id op) w') ∧
    version_of (branch_versions (_this_user_id op) w') (_this_user_id op) =
      version_of (branch_versions (_this_user_id op) w) (_this_user_id op) + 1.

End WithHash.

(** All the versioned objects of a directory. *)
Definition entries (d : Directory) : list VersionedObject :=
  name_items (_name_map d) ≫= λ entry, snd <$> map_items entry.2.

(** What [remove_recursive] can do to the world: the commits stay, edges
    and blocks only go away, the log only grows. *)
Definition shrinks (w w' : World) : Prop :=
  commits w' = commits w ∧ edges w' ⊆ edges w ∧ blocks w' ⊆ blocks w ∧
  log w `prefix_of` log w'.

(** The blocks form a DAG: every child of a stored directory has a smaller
    rank than the directory. *)
Definition ranked (rank : ObjectId → nat) (bs : gmap ObjectId Block) : Prop :=
  ∀ i d c, bs !! i = Some (block_directory d) → c ∈ unique_children d →
           (rank c < rank i)%nat.

(** *** Example runs *)

(** A stand-in for the hash. *)
Definition update_code (u : hash_update) : N :=
  match u with
  | update_tag t => t
  | update_u32 n => n
  | update_string s => N.of_nat (String.length s)
  | update_user u => u
  | update_id i => i
  | update_versions vv => foldl (λ h kv, h * 31 + kv.1 + kv.2) 0 (map_items vv)
  end.

Definition example_hash (us : list hash_update) : ObjectId :=
  foldl (λ h u, (h * 31 + update_code u + 1) mod 2 ^ 256) 7 us.

Definition alice : UserId := 1.

Definition empty_directory : Directory := mkDirectory ∅.

Definition empty_id : ObjectId := calculate_id example_hash empty_directory.

(** The branch of alice with an empty root directory. *)
Definition empty_branch : World :=
  mkWorld {[ empty_id := block_directory empty_directory ]}
          {[ (alice, empty_id, empty_id) ]}
          {[ alice := mkVersioned empty_id ∅ ]}
          [].

(** The [RootOp] that [create alice] makes on it. *)
Definition untouched : t := mk alice empty_directory (mkVersioned empty_id ∅).

(** A directory with the one file "a", object 50, under alice. *)
Definition with_file (vv : VersionVector) : Directory :=
  mkDirectory {[ "a"%string := {[ alice := mkVersioned 50 vv ]} ]}.

(** The file has been added without bumping the version vector. *)
Definition added_unbumped : t := mk alice (with_file ∅) (mkVersioned empty_id ∅).

(** The file has been added with a vector made by [increment]. *)
Definition added_bumped : t :=
  mk alice (with_file (increment untouched ∅)) (mkVersioned empty_id ∅).

End RootOp.

(** ** Tree ([src/object/tree.h]) *)

Module Tree.

Abbreviation NameMap := (gmap string ObjectId).

(** A tree is known by the address of its [_name_map]; the heap holds the
    maps of the trees that are alive. *)
Abbreviation Addr := N.
Abbreviation Heap := (gmap Addr NameMap).

(** [Handle]: the pointer [name_map] and the iterator [i], which is given by
    the name it stands at. [None] is the default handle
    [{nullptr, iterator()}]. A mutable and an immutable handle differ in
    constness only. *)
Abbreviation Handle := (option (Addr * string)).

(** A call returns, stops the process ([assert] aborts, [exit] exits), or
    uses a pointer or an iterator that is no longer valid. *)
Inductive result (A : Type) : Type :=
  | Ok (a : A)
  | Abort
  | Exit (code : N)
  | Undefined.
Arguments Ok {A} a.
Arguments Abort {A}.
Arguments Exit {A} code.
Arguments Undefined {A}.

(** [i->second] *)
Definition deref (heap : Heap) (a : Addr) (k : string) : option ObjectId :=
  heap !! a ≫= λ m, m !! k.

(** [operator bool] *)
Definition Handle_bool (h : Handle) : bool :=
  match h with Some _ => true | None => false end.

Section WithAssert.

(** Whether [assert] is compiled out. *)
Variable NDEBUG : bool.

(** [assert(c); if (!c) exit(1);] when [c] does not hold. *)
Definition refuse {A} : result A := if NDEBUG then Exit 1 else Abort.

Definition Handle_id (heap : Heap) (h : Handle) : result ObjectId :=
  match h with
  | None => refuse
  | Some (a, k) =>
      match deref heap a k with
      | Some id => Ok id
      | None => Undefined
      end
  end.

Definition Handle_set_id (heap : Heap) (h : Handle) (id : ObjectId) : result Heap :=
  match h with
  | None => refuse
  | Some (a, k) =>
      match deref heap a k with
      | Some old => if decide (id = old) then Ok heap
                    else Ok (alter <[k := id]> a heap)
      | None => Undefined
      end
  end.

(** [erase]: a handle that is null or points into another tree is refused. *)
Definition erase (heap : Heap) (this : Addr) (h : Handle) : result Heap :=
  match h with
  | None => refuse
  | Some (a, k) =>
      if decide (a = this) then
        match deref heap a k with
        | Some _ => Ok (alter (delete k) this heap)
        | None => Undefined
        end
      else refuse
  end.

End WithAssert.

(** [find], for a tree that is alive. *)
Definition find (heap : Heap) (this : Addr) (k : string) : result Handle :=
  match heap !! this with
  | Some m => Ok (match m !! k with Some _ => Some (this, k) | None => None end)
  | None => Undefined
  end.

(** [insert]: [std::map::insert] keeps an entry that is there. *)
Definition insert (heap : Heap) (this : Addr) (pair : string * ObjectId)
    : result (Handle * bool * Heap) :=
  match heap !! this with
  | Some m =>
      match m !! pair.1 with
      | Some _ => Ok (Some (this, pair.1), false, heap)
      | None => Ok (Some (this, pair.1), true, <[this := <[pair.1 := pair.2]> m]> heap)
      end
  | None => Undefined
  end.

Section WithDefaultId.

(** The value of [ObjectId{}]. *)
Variable ObjectId_default : ObjectId.

(** [operator[]]: [insert({key, ObjectId{}}).first] *)
Definition operator_index (heap : Heap) (this : Addr) (key : string)
    : result (Handle * Heap) :=
  match insert heap this (key, ObjectId_default) with
  | Ok (h, _, heap') => Ok (h, heap')
  | Abort => Abort
  | Exit c => Exit c
  | Undefined => Undefined
  end.

End WithDefaultId.

Definition size (m : NameMap) : nat := base.size m.

(** [children]: the ids are collected name by name. *)
Definition children (m : NameMap) : gset ObjectId :=
  foldl (λ ch entry, {[ entry.2 ]} ∪ ch) ∅ (RootOp.name_items m).


(** *** Example runs *)

(** One tree at address 7, with the id 1 under the name "a". *)
Definition one_tree : Heap := {[ 7 := {[ "a"%string := 1 ]} ]}.

End Tree.

(** * Properties *)

(** ** The exception monad and the iteration order *)

Lemma bind_Returned {S A B} (m : Exn S A) (f : A → Exn S B) s b s' :
  (m ≫= f) s = (Returned b, s') ↔
  ∃ a s1, m s = (Returned a, s1) ∧ f a s1 = (Returned b, s').
Proof.
  unfold mbind, Exn_bind. destruct (m s) as [[a|e] s1]; split.
  - eauto.
  - intros (a' & s1' & [= <- <-] & ?). done.
  - done.
  - intros (? & ? & [=] & _).
Qed.

Lemma bind_Threw {S A B} (m : Exn S A) (f : A → Exn S B) s e s' :
  (m ≫= f) s = (@Threw B e, s') ↔
  m s = (Threw e, s') ∨ ∃ a s1, m s = (Returned a, s1) ∧ f a s1 = (Threw e, s').
Proof.
  unfold mbind, Exn_bind. destruct (m s) as [[a|e1] s1]; split.
  - eauto.
  - intros [[=] | (a' & s1' & [= <- <-] & ?)]. done.
  - intros [= <- <-]. by left.
  - intros [[= <- <-] | (? & ? & [=] & _)]. done.
Qed.

(** A loop keeps what each round of its body keeps. *)
Lemma for_each_inv {S A} (P : S → Prop) (xs : list A) (body : A → Exn S unit) :
  (∀ x s o s', x ∈ xs → P s → body x s = (o, s') → P s') →
  ∀ s o s', P s → for_each xs body s = (o, s') → P s'.
Proof.
  induction xs as [|x xs IH]; intros Hbody s o s' HP Hrun; simpl in Hrun.
  - by injection Hrun as _ <-.
  - unfold mbind, Exn_bind in Hrun.
    destruct (body x s) as [[[]|e] s1] eqn:Hx.
    + eapply IH; [| |exact Hrun].
      * intros y ? ? ? Hy. apply Hbody. by right.
      * eapply Hbody; [left|exact HP|exact Hx].
    + injection Hrun as _ <-. eapply Hbody; [left|exact HP|exact Hx].
Qed.

(** A loop throws only what its body throws. *)
Lemma for_each_Threw {S A} (Q : error → Prop) (xs : list A) (body : A → Exn S unit) :
  (∀ x s e s', x ∈ xs → body x s = (Threw e, s') → Q e) →
  ∀ s e s', for_each xs body s = (Threw e, s') → Q e.
Proof.
  induction xs as [|x xs IH]; intros Hbody s e s' Hrun; simpl in Hrun.
  - done.
  - apply bind_Threw in Hrun as [Hx | (_ & s1 & _ & Hrest)].
    + eapply Hbody; [left|exact Hx].
    + eapply IH; [|exact Hrest]. intros y ? ? ? Hy. apply Hbody. by right.
Qed.

(** A loop keeps an invariant of the state and of the outcome. *)
Lemma for_each_inv_outcome {S A} (P : S → Prop) (Q : error → Prop)
    (xs : list A) (body : A → Exn S unit) :
  (∀ x s o s', x ∈ xs → P s → body x s = (o, s') → P s' ∧ ∀ e, o = Threw e → Q e) →
  ∀ s o s', P s → for_each xs body s = (o, s') → P s' ∧ ∀ e, o = Threw e → Q e.
Proof.
  induction xs as [|x xs IH]; intros Hbody s o s' HP Hrun; simpl in Hrun.
  - injection Hrun as <- <-. by split.
  - unfold mbind, Exn_bind in Hrun.
    destruct (body x s) as [[[]|e] s1] eqn:Hx.
    + destruct (Hbody x s _ s1 ltac:(by left) HP Hx) as [HP1 _].
      eapply IH; [|exact HP1|exact Hrun]. intros y ? ? ? Hy. apply Hbody. by right.
    + injection Hrun as <- <-. eapply Hbody; [by left|exact HP|exact Hx].
Qed.

Lemma elem_of_set_items (s : gset ObjectId) x : x ∈ set_items s ↔ x ∈ s.
Proof. unfold set_items. by rewrite merge_sort_Permutation, elem_of_elements. Qed.

Lemma NoDup_set_items (s : gset ObjectId) : NoDup (set_items s).
Proof. unfold set_items. rewrite merge_sort_Permutation. apply NoDup_elements. Qed.

Lemma set_items_empty : set_items ∅ = [].
Proof. unfold set_items. by rewrite elements_empty. Qed.

Lemma set_items_singleton (x : ObjectId) : set_items {[ x ]} = [x].
Proof. unfold set_items. by rewrite elements_singleton. Qed.

Lemma map_items_empty {V} : map_items (∅ : gmap ObjectId V) = [].
Proof. unfold map_items. by rewrite map_to_list_empty. Qed.

Lemma elem_of_map_items {V} (m : gmap ObjectId V) k v :
  (k, v) ∈ map_items m ↔ m !! k = Some v.
Proof. unfold map_items. rewrite merge_sort_Permutation. apply elem_of_map_to_list. Qed.

Lemma list_to_map_map_items {V} (m : gmap ObjectId V) :
  NoDup (map_items m).*1 ∧ list_to_map (map_items m) = m.
Proof.
  assert (map_items m ≡ₚ map_to_list m) as Hperm by apply merge_sort_Permutation.
  assert (NoDup (map_items m).*1) as Hnodup.
  { rewrite Hperm. apply NoDup_fst_map_to_list. }
  split; [done|].
  rewrite (list_to_map_proper _ _ Hnodup Hperm). apply list_to_map_to_list.
Qed.

Lemma elem_of_name_items {V} (m : gmap string V) k v :
  (k, v) ∈ RootOp.name_items m ↔ m !! k = Some v.
Proof.
  unfold RootOp.name_items. rewrite merge_sort_Permutation. apply elem_of_map_to_list.
Qed.

Lemma map_items_inj {V} (m1 m2 : gmap ObjectId V) :
  map_items m1 = map_items m2 → m1 = m2.
Proof.
  intros Heq. apply map_eq. intros k. apply option_eq. intros v.
  by rewrite <- !elem_of_map_items, Heq.
Qed.

(** ** RemoteBranch *)

Module RemoteBranchProps.
Import RemoteBranch.

Lemma keeps_disk_bind {A B} (m : Exn State A) (f : A → Exn State B) :
  keeps_disk m → (∀ a, keeps_disk (f a)) → keeps_disk (m ≫= f).
Proof.
  intros Hm Hf s o s' Hrun. unfold mbind, Exn_bind in Hrun.
  destruct (m s) as [[a|e] s1] eqn:E.
  - rewrite (Hf _ _ _ _ Hrun). eapply Hm, E.
  - injection Hrun as _ <-. eapply Hm, E.
Qed.

Lemma keeps_disk_modify_branch f : keeps_disk (modify_branch f).
Proof. by intros s o s' [= _ <-]. Qed.

Lemma keeps_disk_ret {A} (a : A) : keeps_disk (mret a).
Proof. by intros s o s' [= _ <-]. Qed.

Lemma keeps_disk_at (f : t → gmap ObjectId (gset ObjectId)) k :
  keeps_disk (λ s, match f s.1 !! k with
                   | Some v => (Returned v, s)
                   | None => (Threw out_of_range, s)
                   end).
Proof. intros s o s' Hrun. by destruct (f s.1 !! k); injection Hrun as _ <-. Qed.

Lemma keeps_disk_for_each {A} (xs : list A) body :
  (∀ x, keeps_disk (body x)) → keeps_disk (for_each xs body).
Proof.
  intros Hbody s o s' Hrun.
  eapply (for_each_inv (λ s0, s0.2 = s.2)); [|reflexivity|exact Hrun].
  intros x s0 o0 s0' _ <- Hx. eapply Hbody, Hx.
Qed.

Lemma keeps_disk_parent_step id parent : keeps_disk (parent_step id parent).
Proof.
  unfold parent_step. apply keeps_disk_bind; [apply (keeps_disk_at _incomplete_objects)|].
  intros ch. apply keeps_disk_bind; [apply keeps_disk_modify_branch|]. intros _.
  case_decide; [|apply keeps_disk_ret].
  repeat (apply keeps_disk_bind; [apply keeps_disk_modify_branch|]; intros _).
  apply keeps_disk_modify_branch.
Qed.

Lemma keeps_disk_update_memory id children : keeps_disk (update_memory id children).
Proof.
  unfold update_memory.
  apply keeps_disk_bind; [apply (keeps_disk_at _missing_objects)|]. intros parents.
  apply keeps_disk_bind; [apply keeps_disk_modify_branch|]. intros _.
  case_decide.
  - apply keeps_disk_bind; [apply keeps_disk_modify_branch|]. intros _.
    apply keeps_disk_for_each, keeps_disk_parent_step.
  - apply keeps_disk_bind; [by intros s o s' [= _ <-]|]. intros ch.
    apply keeps_disk_bind.
    { apply keeps_disk_for_each. intros x. apply keeps_disk_modify_branch. }
    intros _. case_decide; apply keeps_disk_modify_branch.
Qed.

(** [insert_object] is its in-memory part followed by the writes. *)
Lemma insert_object_split `{Object Obj} io_fails (obj : Obj) children s :
  insert_object io_fails obj children s =
  (update_memory (calculate_id obj) children ;;
   _flat_store io_fails obj ;; store_self io_fails ;; mret (calculate_id obj)) s.
Proof. reflexivity. Qed.

(** The writes of a call that returns. *)
Lemma writes_Returned `{Object Obj} io_fails (obj : Obj) s r s' :
  (_flat_store io_fails obj ;; store_self io_fails ;; mret (calculate_id obj)) s
    = (Returned r, s') →
  r = calculate_id obj ∧ s'.1 = s.1 ∧
  objectdir s'.2 = {[ calculate_id obj ]} ∪ objectdir s.2 ∧
  calls s'.2 = calls s.2 ++ [object_io_store (calculate_id obj);
                             refcount_increment_recursive (calculate_id obj);
                             archive_store].
Proof.
  unfold _flat_store, store_self, io, mbind, mret, Exn_bind, Exn_ret. simpl.
  destruct (io_fails (object_io_store _)); [done|]. simpl.
  destruct (io_fails (refcount_increment_recursive _)); [done|]. simpl.
  destruct (io_fails archive_store); [done|]. simpl.
  intros [= <- <-]. simpl. by rewrite <- !app_assoc.
Qed.

(** C10: [create_snapshot] never calls [capture_flat_object]: the loop over
    [_incomplete_objects] runs only when that map is empty. The complete
    objects are captured in full exactly when [_incomplete_objects] is not
    empty. *)
Theorem create_snapshot_captures (b : t) :
  (∀ id, capture_flat_object id ∉ create_snapshot b) ∧
  (∀ id, capture_full_object id ∈ create_snapshot b ↔
         _incomplete_objects b ≠ ∅ ∧ id ∈ _complete_objects b) ∧
  create_snapshot b =
    Snapshot_create (_commit b) ::
    (if decide (_incomplete_objects b = ∅) then []
     else capture_full_object <$> set_items (_complete_objects b)).
Proof.
  unfold create_snapshot. case_decide as Hempty.
  - rewrite Hempty, map_items_empty. simpl. split_and!; [| |done].
    + intros id. rewrite list_elem_of_singleton. done.
    + intros id. rewrite list_elem_of_singleton. split; [done|]. by intros [Hne _].
  - split_and!; [| |done].
    + intros id [?|Hin]%elem_of_cons; [done|].
      apply list_elem_of_fmap in Hin as (? & ? & _). done.
    + intros id. rewrite elem_of_cons, list_elem_of_fmap. split.
      * intros [?|(x & [= ->] & Hx)]; [done|]. by apply elem_of_set_items in Hx.
      * intros [_ Hin]. right. exists id. by rewrite elem_of_set_items.
Qed.

(** The in-memory part throws nothing but [std::out_of_range]. *)
Lemma update_memory_Threw id children s e s' :
  update_memory id children s = (Threw e, s') → e = out_of_range.
Proof.
  unfold update_memory. intros Hrun.
  apply bind_Threw in Hrun as [Hrun | (parents & s1 & _ & Hrun)].
  { unfold missing_at in Hrun. destruct (_ !! _); congruence. }
  apply bind_Threw in Hrun as [[=] | ([] & s2 & _ & Hrun)].
  case_decide.
  - apply bind_Threw in Hrun as [[=] | ([] & s3 & _ & Hrun)].
    eapply (for_each_Threw (λ e, e = out_of_range)); [|exact Hrun].
    intros p s0 e0 s0' _ Hp. unfold parent_step in Hp.
    apply bind_Threw in Hp as [Hp | (ch & s4 & _ & Hp)].
    { unfold incomplete_at in Hp. destruct (_ !! _); congruence. }
    apply bind_Threw in Hp as [[=] | ([] & s5 & _ & Hp)].
    case_decide; [|done].
    apply bind_Threw in Hp as [[=] | ([] & s6 & _ & Hp)].
    apply bind_Threw in Hp as [[=] | ([] & s7 & _ & Hp)]. done.
  - apply bind_Threw in Hrun as [[=] | (ch & s3 & _ & Hrun)].
    apply bind_Threw in Hrun as [Hrun | ([] & s4 & _ & Hrun)].
    + eapply (for_each_Threw (λ e, e = out_of_range)); [|exact Hrun]. by intros.
    + by case_decide.
Qed.

(** When the object is not its own child, the in-memory part leaves it out of
    [_missing_objects]. *)
Lemma update_memory_missing id children s u s' :
  id ∉ children →
  update_memory id children s = (Returned u, s') →
  _missing_objects s'.1 !! id = None.
Proof.
  unfold update_memory. intros Hself Hrun.
  apply bind_Returned in Hrun as (parents & s1 & Hat & Hrun).
  unfold missing_at in Hat. destruct (_ !! _); [|done]. injection Hat as _ <-.
  apply bind_Returned in Hrun as ([] & s2 & [= <-] & Hrun).
  assert (_missing_objects (set_missing (delete id) s.1, s.2).1 !! id = None) as H0
    by apply lookup_delete_eq.
  revert H0 Hrun. generalize (set_missing (delete id) s.1, s.2). intros s2 H0 Hrun.
  case_decide.
  - apply bind_Returned in Hrun as ([] & s3 & [= <-] & Hrun).
    eapply (for_each_inv (λ s0, _missing_objects s0.1 !! id = None)); [| |exact Hrun]; [|exact H0].
    intros p s0 o0 s0' _ HP Hp. unfold parent_step in Hp.
    unfold mbind, Exn_bind, incomplete_at, modify_branch, modify, mret, Exn_ret in Hp.
    destruct (_incomplete_objects _ !! _); [|by simplify_eq]. simpl in Hp.
    case_decide; by simplify_eq.
  - apply bind_Returned in Hrun as (ch & s3 & [= <- <-] & Hrun).
    apply bind_Returned in Hrun as ([] & s4 & Hloop & Hrun).
    assert (_missing_objects s4.1 !! id = None) as H4.
    { eapply (for_each_inv (λ s0, _missing_objects s0.1 !! id = None)); [| |exact Hloop]; [|exact H0].
      intros c s0 o0 s0' Hc HP [= _ <-]. simpl. unfold map_set_add.
      rewrite lookup_insert_ne; [done|]. intros ->.
      apply elem_of_set_items, elem_of_filter in Hc as [_ Hc]. done. }
    unfold modify_branch, modify in Hrun. case_decide; by simplify_eq.
Qed.

(** C1 (as the code has it): a call of [insert_object] that returns has
    stored the object and pinned it with [refcount::increment_recursive],
    whether or not children are still missing; [increment_direct] is not
    called. *)
Theorem insert_object_pins_recursively `{Object Obj} io_fails (obj : Obj) children s r s' :
  insert_object io_fails obj children s = (Returned r, s') →
  r = calculate_id obj ∧
  objectdir s'.2 = {[ calculate_id obj ]} ∪ objectdir s.2 ∧
  calls s'.2 = calls s.2 ++ [object_io_store (calculate_id obj);
                             refcount_increment_recursive (calculate_id obj);
                             archive_store].
Proof.
  rewrite insert_object_split. intros Hrun.
  apply bind_Returned in Hrun as ([] & s1 & Hmem & Hrun).
  apply keeps_disk_update_memory in Hmem as <-.
  apply writes_Returned in Hrun as (-> & _ & -> & ->). done.
Qed.

Lemma insert_object_pins_recursively_witness :
  let s := fresh_branch in
  let s' := (@insert_object no_faults _ digest_object 1 {[ 2 ]} s).2 in
  1 = 1 ∧
  objectdir s'.2 = {[ 1 ]} ∪ objectdir s.2 ∧
  calls s'.2 = calls s.2 ++ [object_io_store 1; refcount_increment_recursive 1;
                             archive_store].
Proof.
  intros s s'.
  apply (insert_object_pins_recursively (H:=digest_object) no_faults 1 {[ 2 ]} s 1 s').
  vm_compute. reflexivity.
Defined.

(** C1 as stated fails: the root arrives with a child that is still missing,
    and is pinned with [increment_recursive], not [increment_direct]. *)
Lemma insert_object_incomplete_not_pinned_direct :
  ¬ @pins_as_specified _ digest_object 1 {[ 2 ]} fresh_branch.
Proof.
  intros Hspec.
  destruct (Hspec 1 _ ltac:(vm_compute; reflexivity)) as [rest Hcalls].
  vm_compute in Hcalls. discriminate Hcalls.
Qed.

(** The writes change nothing in memory, and fail only with an I/O error. *)
Lemma writes_Threw `{Object Obj} io_fails (obj : Obj) s e s' :
  (_flat_store io_fails obj ;; store_self io_fails ;; mret (calculate_id obj)) s
    = (Threw e, s') →
  e = io_error ∧ s'.1 = s.1.
Proof.
  unfold _flat_store, store_self, io, mbind, mret, Exn_bind, Exn_ret. simpl.
  destruct (io_fails (object_io_store _)); [by intros [= <- <-]|]. simpl.
  destruct (io_fails (refcount_increment_recursive _)); [by intros [= <- <-]|]. simpl.
  destruct (io_fails archive_store); [by intros [= <- <-]|]. done.
Qed.

Lemma writes_no_faults `{Object Obj} (obj : Obj) s :
  ∃ d, (_flat_store no_faults obj ;; store_self no_faults ;; mret (calculate_id obj)) s
       = (Returned (calculate_id obj), (s.1, d)).
Proof. eexists. reflexivity. Qed.

(** C4 (as the code has it): when [insert_object] fails with an I/O error,
    the in-memory state it leaves behind is the updated one, the same that
    the call leaves when nothing fails. Unless the object is its own child,
    it is gone from [_missing_objects], and a second attempt throws
    [std::out_of_range]. *)
Theorem insert_object_io_error_keeps_update `{Object Obj} io_fails (obj : Obj) children s s' :
  insert_object io_fails obj children s = (Threw io_error, s') →
  (∃ s'', insert_object no_faults obj children s = (Returned (calculate_id obj), s'') ∧
          s'.1 = s''.1) ∧
  (calculate_id obj ∉ children →
     is_Some (_missing_objects s.1 !! calculate_id obj) ∧
     _missing_objects s'.1 !! calculate_id obj = None ∧
     ∀ io_fails', insert_object io_fails' obj children s' = (Threw out_of_range, s')).
Proof.
  rewrite insert_object_split. intros Hrun.
  apply bind_Threw in Hrun as [Hrun | ([] & s1 & Hmem & Hrun)].
  { by apply update_memory_Threw in Hrun. }
  apply writes_Threw in Hrun as [_ Hs']. split.
  - destruct (writes_no_faults obj s1) as [d Hd]. exists (s1.1, d). split; [|done].
    rewrite insert_object_split. apply bind_Returned. eauto.
  - intros Hself. split_and!.
    + unfold update_memory in Hmem.
      apply bind_Returned in Hmem as (parents & ? & Hat & _).
      unfold missing_at in Hat. by destruct (_ !! _).
    + rewrite Hs'. eapply update_memory_missing; [exact Hself|exact Hmem].
    + intros io_fails'. unfold insert_object, update_memory, mbind, Exn_bind, missing_at.
      rewrite Hs'. by erewrite update_memory_missing.
Qed.

Lemma insert_object_io_error_keeps_update_witness :
  let s' := (@insert_object archive_fails _ digest_object 1 ∅ fresh_branch).2 in
  (∃ s'', @insert_object no_faults _ digest_object 1 ∅ fresh_branch = (Returned 1, s'') ∧
          s'.1 = s''.1) ∧
  (1 ∉ (∅ : gset ObjectId) →
     is_Some (_missing_objects fresh_branch.1 !! 1) ∧
     _missing_objects s'.1 !! 1 = None ∧
     ∀ io_fails', @insert_object io_fails' _ digest_object 1 ∅ s' = (Threw out_of_range, s')).
Proof.
  intros s'.
  apply (insert_object_io_error_keeps_update (H:=digest_object) archive_fails 1 ∅ fresh_branch s').
  vm_compute. reflexivity.
Defined.

(** C4 as stated fails: the root arrives, the archive cannot be written, and
    the branch has already moved the root from missing to complete. *)
Lemma insert_object_io_error_changes_memory :
  ¬ @io_error_keeps_memory _ digest_object archive_fails 1 ∅ fresh_branch.
Proof.
  intros Hkeep.
  pose proof (Hkeep _ ltac:(vm_compute; reflexivity)) as Heq.
  vm_compute in Heq. discriminate Heq.
Qed.

(** What one round of the loop over the parents does. *)
Lemma parent_step_run id p b d waiting :
  _incomplete_objects b !! p = Some waiting →
  parent_step id p (b, d) =
    (Returned (),
     (if decide (waiting ∖ {[ id ]} = ∅)
      then mk (_commit b) (_missing_objects b) (delete p (_incomplete_objects b))
              (({[ p ]} ∪ _complete_objects b) ∖ {[ id ]})
      else mk (_commit b) (_missing_objects b)
              (<[p := waiting ∖ {[ id ]}]> (_incomplete_objects b)) (_complete_objects b),
      d)).
Proof.
  intros Hp. unfold parent_step, incomplete_at, mbind, Exn_bind. simpl. rewrite Hp. simpl.
  case_decide as Hempty; [|done]. simpl. unfold set_complete, set_incomplete. simpl.
  by rewrite delete_insert_eq.
Qed.

(** The whole loop, for parents that are all in [_incomplete_objects]. *)
Lemma parents_loop id xs : ∀ b d,
  NoDup xs →
  (∀ p, p ∈ xs → is_Some (_incomplete_objects b !! p)) →
  ∃ b', for_each xs (parent_step id) (b, d) = (Returned (), (b', d)) ∧
    _commit b' = _commit b ∧
    _missing_objects b' = _missing_objects b ∧
    (∀ p, _incomplete_objects b' !! p =
          if decide (p ∈ xs)
          then waiting ← _incomplete_objects b !! p;
               (if decide (waiting ∖ {[ id ]} = ∅) then None else Some (waiting ∖ {[ id ]}))
          else _incomplete_objects b !! p) ∧
    (∀ x, x ∈ _complete_objects b' ↔
          (x ∈ _complete_objects b ∧
           (x = id → ¬ ∃ p, p ∈ xs ∧ promoted id (_incomplete_objects b) p))
          ∨ (x ≠ id ∧ x ∈ xs ∧ promoted id (_incomplete_objects b) x)).
Proof.
  induction xs as [|p xs IH]; intros b d Hnodup Hall.
  - exists b. split_and!; try done.
    + intros x. split; [|by intros [[? _]|(_ & ?%elem_of_nil & _)]].
      intros Hx. left. split; [done|]. by intros _ (? & ?%elem_of_nil & _).
  - apply NoDup_cons in Hnodup as [Hp Hnodup].
    destruct (Hall p) as [waiting Hwaiting]; [by left|].
    simpl. unfold mbind at 1, Exn_bind at 1.
    erewrite parent_step_run by exact Hwaiting.
    set (b1 := if decide (waiting ∖ {[ id ]} = ∅) then _ else _).
    assert (∀ q, q ≠ p → _incomplete_objects b1 !! q = _incomplete_objects b !! q) as Hother.
    { intros q Hq. subst b1. case_decide; simpl.
      - by rewrite lookup_delete_ne.
      - by rewrite lookup_insert_ne. }
    assert (∀ q, q ≠ p →
              promoted id (_incomplete_objects b1) q ↔ promoted id (_incomplete_objects b) q)
      as Hprom.
    { intros q Hq. unfold promoted. by rewrite Hother. }
    destruct (IH b1 d Hnodup) as (b' & Hrun & Hcommit & Hmissing & Hinc & Hcomp).
    { intros q Hq. rewrite Hother; [apply Hall; by right|]. by intros ->. }
    exists b'. split_and!.
    + exact Hrun.
    + rewrite Hcommit. subst b1. by case_decide.
    + rewrite Hmissing. subst b1. by case_decide.
    + intros q. rewrite Hinc. destruct (decide (q = p)) as [->|Hq].
      * rewrite decide_False by done. rewrite decide_True by by left.
        rewrite Hwaiting. simpl. subst b1. case_decide; simpl.
        -- by rewrite lookup_delete_eq.
        -- by rewrite lookup_insert_eq.
      * rewrite Hother by done.
        destruct (decide (q ∈ xs)) as [Hin|Hin].
        -- rewrite decide_True by by right. done.
        -- rewrite decide_False; [done|]. by intros [?|?]%elem_of_cons.
    + intros x. rewrite Hcomp.
      assert (∀ q, q ∈ xs → q ≠ p) as Hne by (by intros q Hq ->).
      assert ((∃ q, q ∈ xs ∧ promoted id (_incomplete_objects b1) q) ↔
              (∃ q, q ∈ xs ∧ promoted id (_incomplete_objects b) q)) as Hex.
      { split; intros (q & Hq & Hpq); exists q; (split; [done|]);
          by apply (Hprom q (Hne q Hq)). }
      destruct (decide (waiting ∖ {[ id ]} = ∅)) as [Hempty|Hempty]; subst b1; simpl.
      * assert (promoted id (_incomplete_objects b) p) as Hpp by (by exists waiting).
        rewrite elem_of_difference, elem_of_union, !elem_of_singleton. split.
        -- intros [[[Hx Hxid] _]|(Hxid & Hx & Hpx)].
           ++ destruct Hx as [->|Hx].
              ** right. split_and!; [done|by left|done].
              ** left. split; [done|]. done.
           ++ right. split_and!; [done|by right|]. by apply (Hprom x (Hne x Hx)).
        -- intros [[Hx Himp]|(Hxid & Hx & Hpx)].
           ++ left. assert (x ≠ id) as Hxid.
              { intros ->. apply Himp; [done|]. exists p. split; [by left|done]. }
              split; [split; [by right|done]|done].
           ++ apply elem_of_cons in Hx as [->|Hx].
              ** left. split; [split; [by left|done]|done].
              ** right. split_and!; [done..|]. by apply (Hprom x (Hne x Hx)).
      * assert (¬ promoted id (_incomplete_objects b) p) as Hpp.
        { intros (w & Hw & Hwe). congruence. }
        split.
        -- intros [[Hx Himp]|(Hxid & Hx & Hpx)].
           ++ left. split; [done|]. intros -> (q & [->|Hq]%elem_of_cons & Hpq); [done|].
              apply Himp; [done|]. exists q. split; [done|]. by apply (Hprom q (Hne q Hq)).
           ++ right. split_and!; [done|by right|]. by apply (Hprom x (Hne x Hx)).
        -- intros [[Hx Himp]|(Hxid & Hx & Hpx)].
           ++ left. split; [done|]. intros -> (q & Hq & Hpq).
              apply Himp; [done|]. exists q. split; [by right|].
              by apply (Hprom q (Hne q Hq)).
           ++ apply elem_of_cons in Hx as [->|Hx]; [done|].
              right. split_and!; [done..|]. by apply (Hprom x (Hne x Hx)).
Qed.

(** C2 (as the code has it): when [insert_object] is called without
    children, [id] is marked complete; then [id] leaves the set of each
    recorded parent, and a parent whose set becomes empty moves from
    [_incomplete_objects] to [_complete_objects], while [id] is taken out of
    [_complete_objects] again. Entries of other objects, the parents of the
    promoted parent among them, stay as they are, and the only refcount call
    is the [increment_recursive] on [id] itself. *)
Theorem insert_object_leaf_completion `{Object Obj} (obj : Obj) s parents :
  _missing_objects s.1 !! calculate_id obj = Some parents →
  (∀ p, p ∈ parents → is_Some (_incomplete_objects s.1 !! p)) →
  ∃ s', insert_object no_faults obj ∅ s = (Returned (calculate_id obj), s') ∧
    _missing_objects s'.1 = delete (calculate_id obj) (_missing_objects s.1) ∧
    (∀ p, _incomplete_objects s'.1 !! p =
          if decide (p ∈ parents)
          then waiting ← _incomplete_objects s.1 !! p;
               (if decide (waiting ∖ {[ calculate_id obj ]} = ∅) then None
                else Some (waiting ∖ {[ calculate_id obj ]}))
          else _incomplete_objects s.1 !! p) ∧
    (∀ x, x ∈ _complete_objects s'.1 ↔
          ((x ∈ _complete_objects s.1 ∨ x = calculate_id obj) ∧
           (x = calculate_id obj →
            ¬ ∃ p, p ∈ parents ∧ promoted (calculate_id obj) (_incomplete_objects s.1) p))
          ∨ (x ≠ calculate_id obj ∧ x ∈ parents ∧
             promoted (calculate_id obj) (_incomplete_objects s.1) x)) ∧
    calls s'.2 = calls s.2 ++ [object_io_store (calculate_id obj);
                               refcount_increment_recursive (calculate_id obj);
                               archive_store].
Proof.
  destruct s as [b d]. simpl. intros Hmissing Hparents.
  set (b1 := set_complete (λ c, {[ calculate_id obj ]} ∪ c)
               (set_missing (delete (calculate_id obj)) b)).
  destruct (parents_loop (calculate_id obj) (set_items parents) b1 d)
    as (b' & Hloop & _ & Hmiss & Hinc & Hcomp).
  { apply NoDup_set_items. }
  { intros p Hp. apply Hparents. by apply elem_of_set_items. }
  assert (update_memory (calculate_id obj) ∅ (b, d) = (Returned (), (b', d))) as Hmem.
  { unfold update_memory, missing_at, mbind at 1, Exn_bind at 1. simpl.
    rewrite Hmissing. simpl. rewrite decide_True by done. exact Hloop. }
  destruct (writes_no_faults obj (b', d)) as [d' Hwrites].
  exists (b', d'). split_and!.
  - rewrite insert_object_split. apply bind_Returned. eauto.
  - done.
  - intros p. rewrite Hinc. simpl.
    destruct (decide (p ∈ set_items parents)) as [Hin|Hin];
      rewrite elem_of_set_items in Hin; [by rewrite decide_True|by rewrite decide_False].
  - intros x. rewrite Hcomp. simpl. rewrite elem_of_union, elem_of_singleton.
    setoid_rewrite elem_of_set_items. tauto.
  - apply writes_Returned in Hwrites as (_ & _ & _ & Hcalls). exact Hcalls.
Qed.

Lemma insert_object_leaf_completion_witness :
  ∃ s', @insert_object no_faults _ digest_object 3 ∅ chain_12 = (Returned 3, s') ∧
    _missing_objects s'.1 = delete 3 (_missing_objects chain_12.1) ∧
    (∀ p, _incomplete_objects s'.1 !! p =
          if decide (p ∈ ({[ 2 ]} : gset ObjectId))
          then waiting ← _incomplete_objects chain_12.1 !! p;
               (if decide (waiting ∖ {[ 3 ]} = ∅) then None else Some (waiting ∖ {[ 3 ]}))
          else _incomplete_objects chain_12.1 !! p) ∧
    (∀ x, x ∈ _complete_objects s'.1 ↔
          ((x ∈ _complete_objects chain_12.1 ∨ x = 3) ∧
           (x = 3 → ¬ ∃ p, p ∈ ({[ 2 ]} : gset ObjectId) ∧
                           promoted 3 (_incomplete_objects chain_12.1) p))
          ∨ (x ≠ 3 ∧ x ∈ ({[ 2 ]} : gset ObjectId) ∧
             promoted 3 (_incomplete_objects chain_12.1) x)) ∧
    calls s'.2 = calls chain_12.2 ++ [object_io_store 3; refcount_increment_recursive 3;
                                      archive_store].
Proof.
  apply (insert_object_leaf_completion (H:=digest_object) 3 chain_12 {[ 2 ]}).
  - vm_compute. reflexivity.
  - intros p ->%elem_of_singleton. exists {[ 3 ]}. vm_compute. reflexivity.
Defined.

(** C2 as stated fails: in the chain 1 -> 2 -> 3 the arrival of 3 promotes
    2, but 2 stays in the set of its own parent 1, which is not promoted, and
    no refcount call is made for 2. *)
Lemma insert_object_no_cascade :
  ¬ @cascade_as_specified _ digest_object 3 ∅ chain_12.
Proof.
  intros Hspec.
  assert (_missing_objects chain_12.1 !! 3 = Some {[ 2 ]}) as Hparents
    by (vm_compute; reflexivity).
  destruct (Hspec ltac:(done) {[ 2 ]} 3 _ Hparents
              ltac:(vm_compute; reflexivity) 2 ltac:(by apply elem_of_singleton))
    as [_ Hpromoted].
  destruct Hpromoted as (_ & _ & _ & Hcascade).
  { exists {[ 3 ]}. split; [vm_compute; reflexivity|set_solver]. }
  apply (Hcascade 1 {[ 2 ]}); [vm_compute; reflexivity|by apply elem_of_singleton].
Qed.

(** *** What the branch keeps, and [introduce_commit] *)

(** The loop over the filtered children. *)
Lemma children_loop id xs : ∀ b d,
  ∃ m', for_each xs (λ child, modify_branch (set_missing (map_set_add child id))) (b, d)
          = (Returned (), (mk (_commit b) m' (_incomplete_objects b) (_complete_objects b), d)) ∧
        ∀ k, m' !! k = if decide (k ∈ xs)
                       then Some (default ∅ (_missing_objects b !! k) ∪ {[ id ]})
                       else _missing_objects b !! k.
Proof.
  induction xs as [|c xs IH]; intros b d.
  - exists (_missing_objects b). split; [by destruct b|]. intros k.
    rewrite decide_False; [done|]. apply not_elem_of_nil.
  - cbn [for_each]. unfold mbind at 1, Exn_bind at 1, modify_branch at 1, modify at 1.
    cbn [fst snd].
    destruct (IH (set_missing (map_set_add c id) b) d) as (m' & Hrun & Hm').
    exists m'. split; [exact Hrun|]. intros k. rewrite Hm'. cbn [set_missing _missing_objects].
    unfold map_set_add. destruct (decide (k = c)) as [->|Hk].
    + rewrite lookup_insert_eq. rewrite (decide_True (P := c ∈ c :: xs)) by by left.
      case_decide; [|done]. cbn. f_equal. set_solver.
    + rewrite lookup_insert_ne by done.
      destruct (decide (k ∈ xs)).
      * by rewrite decide_True by by right.
      * rewrite decide_False; [done|]. by intros [?|?]%elem_of_cons.
Qed.

(** What the in-memory part of [insert_object] leaves behind. *)
Lemma update_memory_run id children s parents :
  _missing_objects s.1 !! id = Some parents →
  (∀ p, p ∈ parents → is_Some (_incomplete_objects s.1 !! p)) →
  ∃ b', update_memory id children s = (Returned (), (b', s.2)) ∧
    _commit b' = _commit s.1 ∧
    if decide (children = ∅) then
      _missing_objects b' = delete id (_missing_objects s.1) ∧
      (∀ p, _incomplete_objects b' !! p =
            if decide (p ∈ parents)
            then waiting ← _incomplete_objects s.1 !! p;
                 (if decide (waiting ∖ {[ id ]} = ∅) then None else Some (waiting ∖ {[ id ]}))
            else _incomplete_objects s.1 !! p) ∧
      (∀ x, x ∈ _complete_objects b' ↔
            (x ∈ {[ id ]} ∪ _complete_objects s.1 ∧
             (x = id → ¬ ∃ p, p ∈ parents ∧ promoted id (_incomplete_objects s.1) p))
            ∨ (x ≠ id ∧ x ∈ parents ∧ promoted id (_incomplete_objects s.1) x))
    else
      let ch := filter (λ i, i ∉ objectdir s.2) children in
      (∀ k, _missing_objects b' !! k =
            if decide (k ∈ ch)
            then Some (default ∅ (delete id (_missing_objects s.1) !! k) ∪ {[ id ]})
            else delete id (_missing_objects s.1) !! k) ∧
      _incomplete_objects b' =
        (if decide (ch = ∅) then _incomplete_objects s.1
         else map_insert_new id ch (_incomplete_objects s.1)) ∧
      _complete_objects b' =
        (if decide (ch = ∅) then {[ id ]} ∪ _complete_objects s.1
         else _complete_objects s.1).
Proof.
  intros Hid Hall. destruct s as [b d]. cbn [fst snd] in *.
  unfold update_memory, mbind at 1, Exn_bind at 1, missing_at. cbn [fst snd]. rewrite Hid.
  unfold mbind at 1, Exn_bind at 1, modify_branch at 1, modify at 1. cbn [fst snd].
  case_decide as Hch.
  - unfold mbind at 1, Exn_bind at 1, modify_branch at 1, modify at 1. cbn [fst snd].
    destruct (parents_loop id (set_items parents)
                (set_complete (λ c, {[ id ]} ∪ c) (set_missing (delete id) b)) d)
      as (b' & Hrun & Hcommit & Hmissing & Hinc & Hcomp).
    { apply NoDup_set_items. }
    { intros p Hp%elem_of_set_items. by apply Hall. }
    exists b'. split; [exact Hrun|]. split; [exact Hcommit|]. split_and!.
    + exact Hmissing.
    + intros p. rewrite Hinc. cbn. destruct (decide (p ∈ parents)).
      * by rewrite decide_True by by apply elem_of_set_items.
      * rewrite decide_False; [done|]. by rewrite elem_of_set_items.
    + intros x. rewrite Hcomp. cbn.
      assert ((∃ p, p ∈ set_items parents ∧ promoted id (_incomplete_objects b) p) ↔
              (∃ p, p ∈ parents ∧ promoted id (_incomplete_objects b) p)) as ->.
      { split; intros (p & Hp & ?); exists p; (split; [|done]); by apply elem_of_set_items. }
      by rewrite elem_of_set_items.
  - unfold mbind at 1, Exn_bind at 1, filter_missing, gets. cbn [fst snd].
    set (ch := filter (λ i, i ∉ objectdir d) children).
    destruct (children_loop id (set_items ch) (set_missing (delete id) b) d)
      as (m' & Hrun & Hm').
    unfold mbind at 1, Exn_bind at 1. rewrite Hrun.
    unfold modify_branch, modify. cbn [fst snd].
    case_decide as Hempty.
    + eexists. split; [reflexivity|]. cbn. split_and!; try done.
      intros k. rewrite Hm'. cbn. destruct (decide (k ∈ ch)).
      * by rewrite decide_True by by apply elem_of_set_items.
      * rewrite decide_False; [done|]. by rewrite elem_of_set_items.
    + eexists. split; [reflexivity|]. cbn. split_and!; try done.
      intros k. rewrite Hm'. cbn. destruct (decide (k ∈ ch)).
      * by rewrite decide_True by by apply elem_of_set_items.
      * rewrite decide_False; [done|]. by rewrite elem_of_set_items.
Qed.


(** A branch made by the constructor is consistent, whatever the object
    directory holds. *)
Lemma create_consistent commit d : consistent (create commit, d).
Proof.
  split; cbn; try done.
  - intros id ps p [<- <-]%lookup_singleton_Some. set_solver.
  - intros id [? []%lookup_empty_Some].
Qed.

(** X2: A call of [insert_object] that returns keeps the branch consistent, for
    an object that does not list itself as a child. *)
Theorem insert_object_keeps_consistent `{Object Obj} io_fails (obj : Obj) children s r s' :
  consistent s →
  calculate_id obj ∉ children →
  insert_object io_fails obj children s = (Returned r, s') →
  consistent s'.
Proof.
  intros [I1 I2 I3 I4 I5 I6] Hself Hrun.
  rewrite insert_object_split in Hrun.
  apply bind_Returned in Hrun as ([] & s1 & Hmem & Hwrites).
  apply writes_Returned in Hwrites as (_ & Hb & Hdir & _).
  set (id := calculate_id obj) in *.
  destruct (_missing_objects s.1 !! id) as [parents|] eqn:Hid; last first.
  { unfold update_memory, mbind, Exn_bind, missing_at in Hmem. by rewrite Hid in Hmem. }
  destruct (update_memory_run id children s parents Hid) as (b' & Hrun & _ & Hb').
  { intros p Hp. destruct (I1 _ _ _ Hid Hp) as (cs & -> & _). done. }
  rewrite Hrun in Hmem. injection Hmem as <-. cbn [fst snd] in *.
  assert (_incomplete_objects s.1 !! id = None) as Hidinc by (by apply I2).
  assert (id ∉ _complete_objects s.1) as Hidcomp by (by apply I3).
  case_decide as Hch.
  - (* the object has no children *)
    destruct Hb' as (Hm & Hi & Hc).
    assert (∀ x, is_Some (_incomplete_objects b' !! x) →
                 is_Some (_incomplete_objects s.1 !! x)) as Hsub.
    { intros x. rewrite Hi. case_decide; [|done].
      destruct (_incomplete_objects s.1 !! x); [done|]. by intros [? [=]]. }
    split; rewrite ?Hb, ?Hdir.
    + intros x ps p. rewrite Hm. intros [Hx Hps]%lookup_delete_Some Hp.
      destruct (I1 _ _ _ Hps Hp) as (cs & Hcs & Hin). rewrite Hi, Hcs. cbn.
      case_decide.
      * case_decide as Hempty; [set_solver|]. eexists. split; [done|]. set_solver.
      * by exists cs.
    + intros x. rewrite Hm. intros [ps [Hx Hps]%lookup_delete_Some].
      rewrite Hi, (I2 x) by done. by case_decide.
    + intros x. rewrite Hm. intros [ps [Hx Hps]%lookup_delete_Some].
      rewrite Hc. intros [[[Heq%elem_of_singleton|Hin]%elem_of_union _]|(_ & _ & w & Hw & _)].
      * done.
      * by apply (I3 x).
      * by rewrite (I2 x) in Hw.
    + intros x Hx. rewrite Hc.
      intros [[[Heq%elem_of_singleton|Hin]%elem_of_union _]|(_ & Hp & w & Hw & Hempty)].
      * subst x. apply Hsub in Hx. rewrite Hidinc in Hx. by destruct Hx.
      * exact (I4 x (Hsub x Hx) Hin).
      * rewrite Hi, decide_True, Hw in Hx by done. cbn in Hx.
        rewrite decide_True in Hx by done. by destruct Hx.
    + intros x Hx%Hsub. apply elem_of_union. right. by apply I5.
    + intros x. rewrite Hc.
      intros [[[Heq%elem_of_singleton|Hin]%elem_of_union _]|(_ & _ & w & Hw & _)].
      * set_solver.
      * apply elem_of_union. right. by apply I6.
      * apply elem_of_union. right. apply I5. by rewrite Hw.
  - (* the object has children *)
    cbn zeta in Hb'. set (ch := filter (λ i, i ∉ objectdir s.2) children) in *.
    destruct Hb' as (Hm & Hi & Hc).
    assert (∀ x, x ∈ ch → x ≠ id ∧ x ∉ objectdir s.2) as Hchild.
    { intros x [? ?]%elem_of_filter. split; [|done]. by intros ->. }
    assert (∀ x ps, delete id (_missing_objects s.1) !! x = Some ps →
                    x ≠ id ∧ _missing_objects s.1 !! x = Some ps) as Hdel.
    { intros x ps [? ?]%lookup_delete_Some. done. }
    assert (∀ x, x ≠ id → _incomplete_objects b' !! x = _incomplete_objects s.1 !! x) as Hiother.
    { intros x Hx. rewrite Hi. case_decide; [done|]. unfold map_insert_new.
      rewrite Hidinc. by rewrite lookup_insert_ne. }
    split; rewrite ?Hb, ?Hdir.
    + intros x ps p. rewrite Hm. destruct (decide (x ∈ ch)) as [Hx|Hx].
      * intros [= Hps] Hp. subst ps.
        apply elem_of_union in Hp as [Hp|Hp%elem_of_singleton]; [|subst p].
        -- destruct (delete id (_missing_objects s.1) !! x) as [ps0|] eqn:Hps0; [|set_solver].
           cbn in Hp. apply Hdel in Hps0 as [Hxid Hps0].
           destruct (I1 _ _ _ Hps0 Hp) as (cs & Hcs & Hin).
           exists cs. split; [|done]. rewrite Hiother; [done|].
           intros ->. by rewrite Hidinc in Hcs.
        -- exists ch. split; [|done]. rewrite Hi. rewrite decide_False by set_solver.
           unfold map_insert_new. rewrite Hidinc. apply lookup_insert_eq.
      * intros [Hxid Hps]%Hdel Hp. destruct (I1 _ _ _ Hps Hp) as (cs & Hcs & Hin).
        exists cs. split; [|done]. rewrite Hiother; [done|].
        intros ->. by rewrite Hidinc in Hcs.
    + intros x. rewrite Hm. destruct (decide (x ∈ ch)) as [Hx|Hx].
      * intros _. destruct (Hchild x Hx) as [Hxid Hxdir]. rewrite Hiother by done.
        destruct (_incomplete_objects s.1 !! x) eqn:Hix; [|done].
        exfalso. apply Hxdir, I5. by rewrite Hix.
      * intros [ps [Hxid Hps]%Hdel]. rewrite Hiother by done. by apply I2.
    + intros x. rewrite Hm, Hc. destruct (decide (x ∈ ch)) as [Hx|Hx].
      * intros _. destruct (Hchild x Hx) as [Hxid Hxdir].
        assert (x ∉ _complete_objects s.1) by (intros ?%I6; done).
        case_decide; set_solver.
      * intros [ps [Hxid Hps]%Hdel].
        assert (x ∉ _complete_objects s.1) by (by apply I3).
        case_decide; set_solver.
    + intros x Hx. rewrite Hc. destruct (decide (x = id)) as [->|Hxid].
      * case_decide as Hempty; [|done].
        rewrite Hi, Hidinc in Hx. by destruct Hx.
      * rewrite Hiother in Hx by done. apply I4 in Hx. case_decide; set_solver.
    + intros x Hx. destruct (decide (x = id)) as [->|Hxid]; [set_solver|].
      rewrite Hiother in Hx by done. apply elem_of_union. right. by apply I5.
    + intros x. rewrite Hc. case_decide.
      * intros [Hx%elem_of_singleton|Hx]%elem_of_union; [set_solver|].
        apply elem_of_union. right. by apply I6.
      * intros Hx. apply elem_of_union. right. by apply I6.
Qed.

(** X3: In a consistent branch [insert_object] of an object that is expected
    returns the id of the object when the three writes go through: the
    lookups of the parents in [_incomplete_objects] never throw. *)
Theorem insert_object_expected_returns `{Object Obj} io_fails (obj : Obj) children s :
  consistent s →
  is_Some (_missing_objects s.1 !! calculate_id obj) →
  io_fails (object_io_store (calculate_id obj)) = false →
  io_fails (refcount_increment_recursive (calculate_id obj)) = false →
  io_fails archive_store = false →
  ∃ s', insert_object io_fails obj children s = (Returned (calculate_id obj), s').
Proof.
  intros [I1 _ _ _ _ _] [parents Hid] Hstore Hinc Harchive.
  destruct (update_memory_run (calculate_id obj) children s parents Hid) as (b' & Hrun & _).
  { intros p Hp. destruct (I1 _ _ _ Hid Hp) as (cs & -> & _). done. }
  rewrite insert_object_split. unfold mbind at 1, Exn_bind at 1. rewrite Hrun.
  unfold _flat_store, store_self, io, mbind, Exn_bind, mret, Exn_ret. cbn.
  rewrite Hstore. cbn. rewrite Hinc. cbn. rewrite Harchive. eauto.
Qed.

(** X1: An object that is not expected is refused with [std::out_of_range]
    before anything is changed or written. *)
Theorem insert_object_unexpected `{Object Obj} io_fails (obj : Obj) children s :
  _missing_objects s.1 !! calculate_id obj = None →
  insert_object io_fails obj children s = (Threw out_of_range, s).
Proof.
  intros Hid. unfold insert_object, update_memory, mbind, Exn_bind, missing_at.
  by rewrite Hid.
Qed.



(** A loop of removals: it goes through when none fails, and otherwise stops
    with an I/O error; memory and the object directory stay as they are. *)
Lemma removal_loop {A} io_fails (f : A → io_call) xs : ∀ b d,
  ∃ made,
    for_each xs (λ x, io io_fails (f x) id) (b, d) =
      (if forallb (λ x, negb (io_fails (f x))) xs then Returned () else Threw io_error,
       (b, mkDisk (objectdir d) (calls d ++ made))) ∧
    (forallb (λ x, negb (io_fails (f x))) xs = true → made = f <$> xs).
Proof.
  induction xs as [|x xs IH]; intros b d.
  - exists []. cbn. rewrite app_nil_r. by destruct d.
  - cbn [for_each forallb]. unfold mbind at 1, Exn_bind at 1, io at 1.
    destruct (io_fails (f x)); cbn [negb andb fst snd].
    + exists []. rewrite app_nil_r. by destruct d.
    + destruct (IH b (mkDisk (objectdir d) (calls d ++ [f x]))) as (made & Hrun & Hall).
      exists (f x :: made). change (id (objectdir d)) with (objectdir d). rewrite Hrun. cbn [objectdir calls].
      rewrite <- app_assoc. split; [done|]. intros Hok. cbn. by rewrite Hall.
Qed.

(** X4: [introduce_commit], when every removal goes through: [flat_remove] is
    asked for each incomplete object and [deep_remove] for each complete
    one, in ascending order of the ids; the branch is then as the constructor
    makes it for the new commit, with only the new root expected; writing
    the branch file comes last, and is the only thing that can still fail. *)
Theorem introduce_commit_resets io_fails commit s :
  (∀ id, is_Some (_incomplete_objects s.1 !! id) → io_fails (refcount_flat_remove id) = false) →
  (∀ id, id ∈ _complete_objects s.1 → io_fails (refcount_deep_remove id) = false) →
  ∃ s',
    introduce_commit io_fails commit s =
      (if io_fails archive_store then Threw io_error else Returned (), s') ∧
    s'.1 = create commit ∧
    calls s'.2 =
      calls s.2 ++ (refcount_flat_remove <$> (map_items (_incomplete_objects s.1)).*1)
              ++ (refcount_deep_remove <$> set_items (_complete_objects s.1))
              ++ (if io_fails archive_store then [] else [archive_store]).
Proof.
  intros Hflat Hdeep. destruct s as [b d]. cbn [fst snd] in *.
  unfold introduce_commit, mbind, Exn_bind, gets, modify_branch, modify. cbn [fst snd].
  destruct (removal_loop io_fails (λ kv : ObjectId * gset ObjectId, refcount_flat_remove kv.1)
              (map_items (_incomplete_objects b)) (mk commit ∅ ∅ ∅) d)
    as (made1 & Hrun1 & Hall1).
  assert (forallb (λ x : ObjectId * gset ObjectId, negb (io_fails (refcount_flat_remove x.1)))
            (map_items (_incomplete_objects b)) = true) as Hok1.
  { apply forallb_forall. intros [k v] Hkv%list_elem_of_In%elem_of_map_items. cbn.
    rewrite Hflat; [done|]. by rewrite Hkv. }
  rewrite Hok1 in Hrun1. specialize (Hall1 Hok1).
  rewrite Hrun1.
  destruct (removal_loop io_fails refcount_deep_remove (set_items (_complete_objects b))
              (mk commit ∅ ∅ ∅) (mkDisk (objectdir d) (calls d ++ made1)))
    as (made2 & Hrun2 & Hall2).
  assert (forallb (λ x, negb (io_fails (refcount_deep_remove x)))
            (set_items (_complete_objects b)) = true) as Hok2.
  { apply forallb_forall. intros k Hk%list_elem_of_In%elem_of_set_items. by rewrite Hdeep. }
  rewrite Hok2 in Hrun2. specialize (Hall2 Hok2).
  rewrite Hrun2. subst made1 made2.
  unfold store_self, io. cbn [fst snd objectdir calls].
  rewrite <- list_fmap_compose.
  destruct (io_fails archive_store); eexists; (split; [reflexivity|]); cbn;
    (split; [done|]); by rewrite ?app_nil_r, <- ?app_assoc.
Qed.

(** X5: [introduce_commit], when a removal fails: the I/O error is thrown after
    the branch has taken the new commit and dropped everything it tracked,
    and before the new root is entered as missing. The branch then expects
    nothing, and every [insert_object] throws [std::out_of_range]. *)
Theorem introduce_commit_failed io_fails commit s :
  (∃ id, is_Some (_incomplete_objects s.1 !! id) ∧ io_fails (refcount_flat_remove id) = true) ∨
  (∃ id, id ∈ _complete_objects s.1 ∧ io_fails (refcount_deep_remove id) = true) →
  ∃ s',
    introduce_commit io_fails commit s = (Threw io_error, s') ∧
    s'.1 = mk commit ∅ ∅ ∅ ∧
    ∀ Obj (H : Object Obj) io_fails' (obj : Obj) children,
      insert_object io_fails' obj children s' = (Threw out_of_range, s').
Proof.
  intros Hfail. destruct s as [b d]. cbn [fst snd] in *.
  assert (∀ d' Obj (H : Object Obj) io_fails' (obj : Obj) children,
            insert_object io_fails' obj children (mk commit ∅ ∅ ∅, d')
              = (Threw out_of_range, (mk commit ∅ ∅ ∅, d'))) as Hrefused.
  { intros d' Obj H io_fails' obj children.
    unfold insert_object, update_memory, mbind, Exn_bind, missing_at. cbn.
    by rewrite lookup_empty. }
  unfold introduce_commit, mbind, Exn_bind, gets, modify_branch, modify. cbn [fst snd].
  destruct (removal_loop io_fails (λ kv : ObjectId * gset ObjectId, refcount_flat_remove kv.1)
              (map_items (_incomplete_objects b)) (mk commit ∅ ∅ ∅) d)
    as (made1 & Hrun1 & Hall1).
  rewrite Hrun1.
  destruct (forallb _ (map_items _)) eqn:Hok1; last first.
  { eexists. split; [reflexivity|]. split; [done|]. apply Hrefused. }
  destruct (removal_loop io_fails refcount_deep_remove (set_items (_complete_objects b))
              (mk commit ∅ ∅ ∅) (mkDisk (objectdir d) (calls d ++ made1)))
    as (made2 & Hrun2 & Hall2).
  rewrite Hrun2.
  destruct (forallb _ (set_items _)) eqn:Hok2; last first.
  { eexists. split; [reflexivity|]. split; [done|]. apply Hrefused. }
  exfalso. destruct Hfail as [(id & [cs Hcs] & Hid)|(id & Hin & Hid)].
  - rewrite forallb_forall in Hok1.
    specialize (Hok1 (id, cs)). cbn in Hok1. rewrite Hid in Hok1.
    discriminate Hok1. by apply list_elem_of_In, elem_of_map_items.
  - rewrite forallb_forall in Hok2.
    specialize (Hok2 id). rewrite Hid in Hok2.
    discriminate Hok2. by apply list_elem_of_In, elem_of_set_items.
Qed.


Lemma insert_object_keeps_consistent_witness :
  consistent (@insert_object no_faults _ digest_object 1 {[ 2 ]} fresh_branch).2.
Proof.
  apply (@insert_object_keeps_consistent _ digest_object no_faults 1 {[ 2 ]} fresh_branch 1).
  - apply create_consistent.
  - vm_compute. discriminate.
  - vm_compute. reflexivity.
Defined.

Lemma insert_object_expected_returns_witness :
  ∃ s', @insert_object no_faults _ digest_object 1 {[ 2 ]} fresh_branch = (Returned 1, s').
Proof.
  apply (@insert_object_expected_returns _ digest_object no_faults 1 {[ 2 ]} fresh_branch).
  - apply create_consistent.
  - vm_compute. eexists. reflexivity.
  - reflexivity.
  - reflexivity.
  - reflexivity.
Defined.

Lemma insert_object_unexpected_witness :
  @insert_object no_faults _ digest_object 5 ∅ fresh_branch = (Threw out_of_range, fresh_branch).
Proof.
  apply (@insert_object_unexpected _ digest_object no_faults 5 ∅ fresh_branch).
  vm_compute. reflexivity.
Defined.

Lemma introduce_commit_resets_witness :
  ∃ s',
    introduce_commit no_faults (mkCommit 9 ∅) chain_12 =
      (if no_faults archive_store then Threw io_error else Returned (), s') ∧
    s'.1 = create (mkCommit 9 ∅) ∧
    calls s'.2 =
      calls chain_12.2
        ++ (refcount_flat_remove <$> (map_items (_incomplete_objects chain_12.1)).*1)
        ++ (refcount_deep_remove <$> set_items (_complete_objects chain_12.1))
        ++ (if no_faults archive_store then [] else [archive_store]).
Proof.
  apply (introduce_commit_resets no_faults (mkCommit 9 ∅) chain_12).
  - intros id _. reflexivity.
  - intros id _. reflexivity.
Defined.

Lemma introduce_commit_failed_witness :
  ∃ s',
    introduce_commit flat_remove_fails (mkCommit 9 ∅) chain_12 = (Threw io_error, s') ∧
    s'.1 = mk (mkCommit 9 ∅) ∅ ∅ ∅ ∧
    ∀ Obj (H : Object Obj) io_fails' (obj : Obj) children,
      insert_object io_fails' obj children s' = (Threw out_of_range, s').
Proof.
  apply (introduce_commit_failed flat_remove_fails (mkCommit 9 ∅) chain_12).
  left. exists 1. split.
  - vm_compute. eexists. reflexivity.
  - vm_compute. reflexivity.
Defined.

End RemoteBranchProps.

(** ** Snapshot *)

Module SnapshotProps.
Import Snapshot.

Ltac exn_run :=
  unfold increment_recursive_count, increment_direct_count, decrement_direct_count,
    ouisync_assert, nodes_at;
  unfold modify_nodes, modify_rc;
  unfold mbind, mret, Exn_bind, Exn_ret, throw, gets, modify;
  cbn [fst snd _nodes root_id objects counts calls type parents children
       missing incomplete complete direct_count recursive_count].

Lemma Rc_load_insert_eq objs cnts cs id rc :
  Rc_load (mkStore objs (<[id := rc]> cnts) cs) id = rc.
Proof. unfold Rc_load. cbn. by rewrite lookup_insert_eq. Qed.

Lemma notify_not_last fuel parent_id child r nodes store p :
  nodes !! parent_id = Some p →
  child ∈ missing (children p) →
  child ∉ incomplete (children p) →
  missing (children p) ∖ {[ child ]} ≠ ∅ →
  notify_parent_that_child_completed (S fuel) parent_id child (mk r nodes, store) =
  (Returned (),
   (mk r (<[parent_id := mkNode (type p) (parents p)
             (mkChildren (missing (children p) ∖ {[ child ]}) (incomplete (children p))
                ({[ child ]} ∪ complete (children p)))]> nodes),
    store)).
Proof.
  intros Hp Hin Hnin Hne.
  cbn [notify_parent_that_child_completed].
  unfold mbind at 1, Exn_bind at 1, nodes_at at 1. cbn [fst _nodes]. rewrite Hp.
  rewrite decide_True by done. rewrite decide_False by done.
  unfold is_complete. cbn [children missing incomplete].
  rewrite (bool_decide_eq_false_2 _ Hne). cbn [andb].
  rewrite (bool_decide_eq_true_2 (1%nat = 1%nat)) by done.
  exn_run. cbn. by rewrite insert_insert_eq.
Qed.

(** A Missing node that arrives without children becomes Complete, gets a
    recursive count, and tells its parents. *)
Lemma insert_leaf fuel id r nodes store ps :
  nodes !! id = Some (mkNode Missing ps (mkChildren ∅ ∅ ∅)) →
  insert_object fuel id ∅ (mk r nodes, store) =
  for_each (set_items ps) (λ parent_id, notify_parent_that_child_completed fuel parent_id id)
    (mk r (<[id := mkNode Complete ps (mkChildren ∅ ∅ ∅)]> nodes),
     mkStore (objects store)
       (<[id := mkRc (direct_count (Rc_load store id)) (recursive_count (Rc_load store id) + 1)]>
          (counts store))
       (calls store)).
Proof.
  intros Hid. unfold insert_object.
  unfold mbind at 1, Exn_bind at 1, gets at 1. cbn [fst _nodes]. rewrite Hid.
  cbn [type]. rewrite decide_False by (by intros Hne; apply Hne).
  unfold sort_children. rewrite set_items_empty. cbn [foldl for_each].
  rewrite decide_True by done.
  exn_run. rewrite lookup_insert_eq. unfold is_complete. cbn [children missing incomplete parents].
  rewrite !bool_decide_eq_true_2 by done. cbn [andb]. done.
Qed.

(** [sort_children] files each child by what the object directory says. *)
Lemma sort_children_fold store xs : ∀ acc x,
  (x ∈ missing (foldl (sort_child store) acc xs) ↔
     x ∈ missing acc ∨ (x ∈ xs ∧ x ∉ objects store)) ∧
  (x ∈ incomplete (foldl (sort_child store) acc xs) ↔
     x ∈ incomplete acc ∨
     (x ∈ xs ∧ x ∈ objects store ∧ ¬ 0 < recursive_count (Rc_load store x))) ∧
  (x ∈ complete (foldl (sort_child store) acc xs) ↔
     x ∈ complete acc ∨
     (x ∈ xs ∧ x ∈ objects store ∧ 0 < recursive_count (Rc_load store x))).
Proof.
  induction xs as [|y xs IH]; intros acc x; cbn [foldl].
  - setoid_rewrite elem_of_nil. tauto.
  - destruct (IH (sort_child store acc y) x) as (-> & -> & ->).
    setoid_rewrite elem_of_cons. unfold sort_child.
    repeat case_decide; cbn [missing incomplete complete];
      rewrite ?elem_of_union, ?elem_of_singleton; naive_solver.
Qed.

Lemma sort_children_all_missing store (cs : gset ObjectId) :
  (∀ c, c ∈ cs → c ∉ objects store) →
  sort_children store cs = mkChildren cs ∅ ∅.
Proof.
  intros Habsent. unfold sort_children.
  pose proof (sort_children_fold store (set_items cs) (mkChildren ∅ ∅ ∅)) as Hfold.
  destruct (foldl _ _ _) as [m i c]. cbn [missing incomplete complete] in Hfold.
  f_equal; apply set_eq; intros x; destruct (Hfold x) as (Hm & Hi & Hc).
  - rewrite Hm, elem_of_set_items. set_solver.
  - rewrite Hi, elem_of_set_items. set_solver.
  - rewrite Hc, elem_of_set_items. set_solver.
Qed.

(** The loop that records [id] as a parent of each child. *)
Lemma add_parents_run id xs : ∀ r nodes store,
  for_each xs (λ child_id, modify_nodes (add_parent id child_id)) (mk r nodes, store) =
  (Returned (), (mk r (foldl (λ m c, add_parent id c m) nodes xs), store)).
Proof.
  induction xs as [|x xs IH]; intros r nodes store; cbn [for_each foldl]; [done|].
  unfold mbind at 1, Exn_bind at 1, modify_nodes at 1, modify at 1. cbn. apply IH.
Qed.

Lemma add_parents_lookup id xs : ∀ nodes k,
  NoDup xs →
  foldl (λ m c, add_parent id c m) nodes xs !! k =
  if decide (k ∈ xs)
  then let child := default (mkNode Missing ∅ (mkChildren ∅ ∅ ∅)) (nodes !! k) in
       Some (mkNode (type child) ({[ id ]} ∪ parents child) (children child))
  else nodes !! k.
Proof.
  induction xs as [|x xs IH]; intros nodes k Hnodup; cbn [foldl].
  - rewrite decide_False; [done|]. apply not_elem_of_nil.
  - apply NoDup_cons in Hnodup as [Hx Hnodup]. rewrite IH by done.
    destruct (decide (k = x)) as [->|Hk].
    + rewrite decide_False by done. rewrite decide_True by by left.
      unfold add_parent. by rewrite lookup_insert_eq.
    + unfold add_parent at 1 2. rewrite lookup_insert_ne by done.
      destruct (decide (k ∈ xs)).
      * by rewrite decide_True by by right.
      * rewrite decide_False; [done|]. by intros [?|?]%elem_of_cons.
Qed.

(** A Missing node that arrives with children none of which is in the
    object directory becomes Incomplete and gets a direct count; its children
    get Missing nodes. *)
Lemma insert_inner fuel id (ks : gset ObjectId) r nodes store ps cs :
  nodes !! id = Some (mkNode Missing ps cs) →
  ks ≠ ∅ →
  (∀ k, k ∈ ks → k ∉ objects store) →
  insert_object fuel id ks (mk r nodes, store) =
  (Returned (),
   (mk r (foldl (λ m c, add_parent id c m)
            (<[id := mkNode Incomplete ps (mkChildren ks ∅ ∅)]> nodes) (set_items ks)),
    mkStore (objects store)
      (<[id := mkRc (direct_count (Rc_load store id) + 1) (recursive_count (Rc_load store id))]>
         (counts store))
      (calls store))).
Proof.
  intros Hid Hne Habsent. unfold insert_object.
  unfold mbind at 1, Exn_bind at 1, gets at 1. cbn [fst snd _nodes]. rewrite Hid.
  cbn [type parents]. rewrite decide_False by (by intros H; apply H).
  unfold mbind at 1, Exn_bind at 1, gets at 1. cbn [fst snd].
  rewrite sort_children_all_missing by done.
  rewrite decide_False by done.
  unfold mbind at 1, Exn_bind at 1, modify_nodes at 1, modify at 1. cbn [fst snd _nodes root_id].
  unfold mbind at 1, Exn_bind at 1. rewrite add_parents_run.
  unfold mbind at 1, Exn_bind at 1, nodes_at at 1. cbn [fst snd _nodes].
  rewrite add_parents_lookup by apply NoDup_set_items.
  destruct (decide (id ∈ set_items ks)) as [Hin|Hin].
  - rewrite lookup_insert_eq. cbn [default type parents children].
    unfold is_complete. cbn [children missing].
    rewrite (bool_decide_eq_false_2 _ Hne). cbn [andb]. done.
  - rewrite lookup_insert_eq.
    unfold is_complete. cbn [children missing].
    rewrite (bool_decide_eq_false_2 _ Hne). cbn [andb]. done.
Qed.

(** The last missing child completes its parent: the direct count becomes a
    recursive one, the grandparents are told, and the child's node goes. *)
Lemma notify_completes fuel parent_id child r nodes store p :
  nodes !! parent_id = Some p →
  child ∈ missing (children p) →
  missing (children p) ∖ {[ child ]} = ∅ →
  incomplete (children p) = ∅ →
  type p = Incomplete →
  direct_count (Rc_load store parent_id) ≠ 0 →
  notify_parent_that_child_completed (S fuel) parent_id child (mk r nodes, store) =
  (for_each (set_items (parents p))
     (λ grandparent, notify_parent_that_child_completed fuel grandparent parent_id) ;;
   modify_nodes (delete child))
    (mk r (<[parent_id := mkNode Complete (parents p)
               (mkChildren ∅ ∅ ({[ child ]} ∪ complete (children p)))]> nodes),
     mkStore (objects store)
       (<[parent_id := mkRc (direct_count (Rc_load store parent_id) - 1)
                            (recursive_count (Rc_load store parent_id) + 1)]> (counts store))
       (calls store)).
Proof.
  intros Hp Hin Hlast Hinc Htype Hdirect.
  cbn [notify_parent_that_child_completed].
  unfold mbind at 1, Exn_bind at 1, nodes_at at 1. cbn [fst _nodes]. rewrite Hp.
  rewrite decide_True by done. rewrite Hinc. rewrite decide_False by set_solver.
  unfold is_complete. cbn [children missing incomplete type parents].
  rewrite Hlast, Htype.
  rewrite !bool_decide_eq_true_2 by done. cbn [andb].
  unfold mbind at 1, Exn_bind at 1, modify_nodes at 1, modify at 1. cbn [fst snd _nodes root_id].
  unfold mbind at 1, Exn_bind at 1, ouisync_assert at 1, mret at 1, Exn_ret at 1.
  unfold mbind at 1, Exn_bind at 1, modify_nodes at 1, modify at 1. cbn [fst snd _nodes root_id].
  unfold mbind at 1, Exn_bind at 1, decrement_direct_count at 1.
  unfold mbind at 1, Exn_bind at 1, gets at 1. cbn [fst snd].
  rewrite decide_False by done.
  unfold modify_rc at 1, modify at 1. cbn [fst snd objects counts calls].
  unfold mbind at 1, Exn_bind at 1, increment_recursive_count at 1, modify_rc at 1, modify at 1.
  cbn [fst snd objects counts calls].
  unfold mbind at 1, Exn_bind at 1, ouisync_assert at 1, mret at 1, Exn_ret at 1.
  unfold mbind at 1, Exn_bind at 1, modify_nodes at 1, modify at 1. cbn [fst snd _nodes root_id].
  rewrite !insert_insert_eq, !Rc_load_insert_eq. cbn [direct_count recursive_count].
  done.
Qed.

(** Only the parent of a node has it among its missing children. *)
Lemma tree_inv_one_parent {root U seen expecting opened hole s} y y' ny ny' k :
  tree_inv root U seen expecting opened hole s →
  y ∈ opened → _nodes s.1 !! y = Some ny → k ∈ missing (children ny) →
  y' ∈ opened → _nodes s.1 !! y' = Some ny' → k ∈ missing (children ny') →
  y = y'.
Proof.
  intros Hinv Hy Hny Hk Hy' Hny' Hk'.
  destruct (inv_child Hinv y ny k Hy Hny Hk) as (nk & Hnk & Hps).
  destruct (inv_child Hinv y' ny' k Hy' Hny' Hk') as (nk' & Hnk' & Hps').
  rewrite Hnk in Hnk'. injection Hnk' as <-. rewrite Hps in Hps'.
  by apply singleton_inj in Hps'.
Qed.

(** A node that nobody waits for can go. *)
Lemma tree_inv_delete {root U seen expecting opened r nodes store x} :
  tree_inv root U seen expecting opened ∅ (mk r nodes, store) →
  x ∉ opened → x ∉ expecting → x ≠ root →
  tree_inv root U seen expecting opened ∅ (mk r (delete x nodes), store).
Proof.
  intros Hinv Hxo Hxe Hxr.
  assert (∀ y ny, y ∈ opened → nodes !! y = Some ny → x ∉ missing (children ny)) as Hnot.
  { intros y ny Hy Hny Hx.
    destruct (inv_open Hinv y Hy) as (ps & M & C & Hnode & _ & Hsub & _).
    cbn in Hnode. rewrite Hny in Hnode. injection Hnode as ->. cbn in Hx. set_solver. }
  assert (∀ ps y, y ≠ x → parent_ok root opened nodes ps y →
                  parent_ok root opened (delete x nodes) ps y) as Hpok.
  { intros ps y Hyx [?|(Hyr & pp & npp & -> & Hpp & Hnpp & Hin)]; [by left|].
    right. split; [done|]. exists pp, npp. split_and!; [done..| |done].
    rewrite lookup_delete_ne; [done|]. by intros <-. }
  split; cbn [fst snd _nodes] in *.
  - intros z Hz. destruct (decide (z = x)) as [->|Hzx].
    + apply lookup_delete_eq.
    + rewrite lookup_delete_ne by done. by apply (inv_unseen Hinv).
  - apply (inv_fresh Hinv).
  - intros y Hy.
    destruct (inv_open Hinv y Hy) as (ps & M & C & Hnode & HM & Hsub & Hrc & Hp).
    exists ps, M, C. cbn in *. split_and!; [|done..|].
    + rewrite lookup_delete_ne; [done|]. by intros <-.
    + apply Hpok; [by intros ->|done].
  - intros y ny k Hy Hny Hk.
    assert (y ≠ x) as Hyx by (by intros ->).
    rewrite lookup_delete_ne in Hny by done.
    destruct (inv_child Hinv y ny k Hy Hny Hk) as (nk & Hnk & Hps).
    exists nk. split; [|done]. rewrite lookup_delete_ne; [done|].
    intros <-. by eapply Hnot.
  - intros e He.
    destruct (inv_expecting Hinv e He) as (ps & Hnode & Hp).
    exists ps. cbn in *. split.
    + rewrite lookup_delete_ne; [done|]. by intros <-.
    + apply Hpok; [by intros ->|done].
  - destruct (inv_root Hinv) as [?|[?|(n & Hn & Ht & Hrc)]]; [by left|by right; left|].
    right. right. exists n. cbn in *. split_and!; [|done..].
    by rewrite lookup_delete_ne.
  - destruct (inv_depth Hinv) as (d & Hd). exists d.
    intros y ny k Hy Hny Hk Hko.
    assert (y ≠ x) as Hyx by (by intros ->).
    rewrite lookup_delete_ne in Hny by done. by eapply Hd.
Qed.

(** The parent keeps waiting for other children. *)
Lemma tree_inv_not_last {root U seen expecting opened r nodes store p np x} :
  tree_inv root U seen expecting opened {[ x ]} (mk r nodes, store) →
  x ∉ opened → x ∉ expecting →
  p ∈ opened → nodes !! p = Some np → x ∈ missing (children np) →
  missing (children np) ∖ {[ x ]} ≠ ∅ →
  tree_inv root U seen expecting opened ∅
    (mk r (<[p := mkNode (type np) (parents np)
                    (mkChildren (missing (children np) ∖ {[ x ]}) (incomplete (children np))
                       ({[ x ]} ∪ complete (children np)))]> nodes),
     store).
Proof.
  intros Hinv Hxo Hxe Hp Hnp Hx Hmore.
  set (np' := mkNode _ _ _).
  assert (∀ y ny, y ∈ opened → y ≠ p → nodes !! y = Some ny → x ∉ missing (children ny))
    as Hunique.
  { intros y ny Hy Hyp Hny Hxy. apply Hyp.
    eapply (tree_inv_one_parent y p ny np x Hinv); done. }
  assert (∀ ps y, y ≠ x → parent_ok root opened nodes ps y →
                  parent_ok root opened (<[p := np']> nodes) ps y) as Hpok.
  { intros ps y Hyx [?|(Hyr & pp & npp & -> & Hpp & Hnpp & Hin)]; [by left|].
    right. split; [done|]. destruct (decide (pp = p)) as [->|Hne].
    - exists p, np'. rewrite lookup_insert_eq. split_and!; [done..|].
      rewrite Hnp in Hnpp. injection Hnpp as <-. cbn. set_solver.
    - exists pp, npp. rewrite lookup_insert_ne by done. done. }
  destruct (inv_open Hinv p Hp) as (ps & M & C & Hnode & HM & Hsub & Hrc & Hpp).
  cbn [fst snd _nodes] in *. rewrite Hnp in Hnode. injection Hnode as ->.
  cbn [type parents children missing incomplete complete] in *.
  split; cbn [fst snd _nodes] in *.
  - intros z Hz. rewrite lookup_insert_ne.
    + by apply (inv_unseen Hinv).
    + intros <-. pose proof (inv_unseen Hinv p Hz) as Hnone.
      cbn in Hnone. congruence.
  - apply (inv_fresh Hinv).
  - intros y Hy. destruct (decide (y = p)) as [->|Hyp].
    + exists ps, (M ∖ {[ x ]}), ({[ x ]} ∪ C). rewrite lookup_insert_eq.
      split_and!; [done|done|set_solver|done|].
      apply Hpok; [by intros ->|done].
    + destruct (inv_open Hinv y Hy)
        as (psy & My & Cy & Hnode & HMy & Hsuby & Hrcy & Hpy).
      cbn [fst snd _nodes] in *.
      exists psy, My, Cy. rewrite lookup_insert_ne by done.
      split_and!; [done|done| |done|].
      * specialize (Hunique y _ Hy Hyp Hnode). cbn in Hunique. set_solver.
      * apply Hpok; [by intros ->|done].
  - intros y ny k Hy Hny Hk.
    assert (∃ ny0, nodes !! y = Some ny0 ∧ k ∈ missing (children ny0)) as (ny0 & Hny0 & Hk0).
    { destruct (decide (y = p)) as [->|Hyp].
      - rewrite lookup_insert_eq in Hny. injection Hny as <-. cbn in Hk.
        eexists. split; [exact Hnp|]. cbn. set_solver.
      - rewrite lookup_insert_ne in Hny by done. by exists ny. }
    destruct (inv_child Hinv y ny0 k Hy Hny0 Hk0) as (nk & Hnk & Hps).
    destruct (decide (k = p)) as [->|Hkp].
    + exists np'. rewrite lookup_insert_eq. split; [done|].
      cbn in Hnk. rewrite Hnp in Hnk. by injection Hnk as <-.
    + exists nk. by rewrite lookup_insert_ne.
  - intros e He.
    destruct (inv_expecting Hinv e He) as (pse & Hnode & Hpe).
    cbn [fst snd _nodes] in *. exists pse. split.
    + rewrite lookup_insert_ne; [done|]. intros <-. congruence.
    + apply Hpok; [by intros ->|done].
  - destruct (inv_root Hinv) as [?|[?|(n & Hn & Ht & Hrcr)]]; [by left|by right; left|].
    right. right. exists n. cbn [fst snd _nodes] in *. split_and!; [|done..].
    rewrite lookup_insert_ne; [done|]. intros <-. rewrite Hnp in Hn. injection Hn as <-.
    cbn in Ht. discriminate.
  - destruct (inv_depth Hinv) as (d & Hd). exists d.
    intros y ny k Hy Hny Hk Hko. cbn [fst snd _nodes] in *.
    destruct (decide (y = p)) as [->|Hyp].
    + rewrite lookup_insert_eq in Hny. injection Hny as <-. cbn in Hk.
      eapply (Hd p _ k Hp Hnp); [|done]. cbn. set_solver.
    + rewrite lookup_insert_ne in Hny by done. by eapply Hd.
Qed.

(** The parent has got its last child: it leaves the open nodes and is now
    what its own parent has to be told about. *)
Lemma tree_inv_complete {root U seen expecting opened r nodes store p np x} :
  tree_inv root U seen expecting opened {[ x ]} (mk r nodes, store) →
  x ∉ opened → x ∉ expecting →
  p ∈ opened → nodes !! p = Some np → x ∈ missing (children np) →
  missing (children np) ∖ {[ x ]} = ∅ →
  tree_inv root U seen expecting (opened ∖ {[ p ]}) {[ p ]}
    (mk r (<[p := mkNode Complete (parents np)
                    (mkChildren ∅ ∅ ({[ x ]} ∪ complete (children np)))]> nodes),
     mkStore (objects store) (<[p := mkRc 0 1]> (counts store)) (calls store)).
Proof.
  intros Hinv Hxo Hxe Hp Hnp Hx Hlast.
  set (np' := mkNode _ _ _).
  assert (∀ y ny, y ∈ opened → y ≠ p → nodes !! y = Some ny → x ∉ missing (children ny))
    as Hunique.
  { intros y ny Hy Hyp Hny Hxy. apply Hyp.
    eapply (tree_inv_one_parent y p ny np x Hinv); done. }
  assert (∀ k, k ∈ missing (children np) → k = x) as Honly.
  { intros k Hk. destruct (decide (k = x)) as [|Hkx]; [done|]. exfalso.
    apply (not_elem_of_empty (C:=gset ObjectId) k). rewrite <- Hlast.
    apply elem_of_difference. split; [done|]. by rewrite elem_of_singleton. }
  assert (∀ ps y, y ≠ x → parent_ok root opened nodes ps y →
                  parent_ok root (opened ∖ {[ p ]}) (<[p := np']> nodes) ps y) as Hpok.
  { intros ps y Hyx [?|(Hyr & pp & npp & -> & Hpp & Hnpp & Hin)]; [by left|].
    right. split; [done|]. destruct (decide (pp = p)) as [->|Hne].
    - rewrite Hnp in Hnpp. injection Hnpp as <-. by apply Honly in Hin.
    - exists pp, npp. rewrite lookup_insert_ne by done. split_and!; [done|set_solver|done..]. }
  assert (p ∈ seen) as Hpseen.
  { destruct (decide (p ∈ seen)) as [|Hn]; [done|].
    pose proof (inv_unseen Hinv p Hn) as Hnone. cbn in Hnone. congruence. }
  destruct (inv_open Hinv p Hp) as (ps & M & C & Hnode & HM & Hsub & Hrc & Hpp).
  cbn [fst snd _nodes] in *. rewrite Hnp in Hnode. injection Hnode as ->.
  cbn [type parents children missing incomplete complete] in *.
  assert (p ∉ expecting) as Hpe.
  { intros He. destruct (inv_expecting Hinv p He) as (? & Hnode & _).
    cbn in Hnode. congruence. }
  split; cbn [fst snd _nodes] in *.
  - intros z Hz. rewrite lookup_insert_ne by (by intros <-).
    by apply (inv_unseen Hinv).
  - intros z Hz Hnew. destruct (inv_fresh Hinv z Hz Hnew) as [Hobj Hcnt].
    split; [done|]. cbn in *. rewrite lookup_insert_ne; [done|]. intros <-. by destruct Hnew.
  - intros y [Hy Hyp%not_elem_of_singleton]%elem_of_difference.
    destruct (inv_open Hinv y Hy)
      as (psy & My & Cy & Hnode & HMy & Hsuby & Hrcy & Hpy).
    cbn [fst snd _nodes] in *.
    exists psy, My, Cy. rewrite lookup_insert_ne by done.
    split_and!; [done|done| | |].
    + specialize (Hunique y _ Hy Hyp Hnode). cbn in Hunique.
      intros k Hk. specialize (Hsuby k Hk).
      destruct (decide (k = p)) as [->|Hkp]; [set_solver|]. set_solver.
    + unfold Rc_load in *. cbn [counts] in *. by rewrite lookup_insert_ne.
    + apply Hpok; [by intros ->|done].
  - intros y ny k [Hy Hyp%not_elem_of_singleton]%elem_of_difference Hny Hk.
    rewrite lookup_insert_ne in Hny by done.
    destruct (inv_child Hinv y ny k Hy Hny Hk) as (nk & Hnk & Hps).
    destruct (decide (k = p)) as [->|Hkp].
    + exists np'. rewrite lookup_insert_eq. split; [done|].
      cbn in Hnk. rewrite Hnp in Hnk. by injection Hnk as <-.
    + exists nk. by rewrite lookup_insert_ne.
  - intros e He.
    destruct (inv_expecting Hinv e He) as (pse & Hnode & Hpe').
    cbn [fst snd _nodes] in *. exists pse. split.
    + rewrite lookup_insert_ne; [done|]. by intros <-.
    + apply Hpok; [by intros ->|done].
  - destruct (inv_root Hinv) as [?|[Hro|(n & Hn & Ht & Hrcr)]]; [by left| |].
    + destruct (decide (root = p)) as [->|Hrp].
      * right. right. exists np'. rewrite lookup_insert_eq. split_and!; [done..|].
        by rewrite Rc_load_insert_eq.
      * right. left. set_solver.
    + right. right. exists n. cbn [fst snd _nodes] in *.
      assert (root ≠ p) as Hrp.
      { intros ->. rewrite Hnp in Hn. injection Hn as <-. cbn in Ht. discriminate. }
      rewrite lookup_insert_ne by done. split_and!; [done..|].
      unfold Rc_load in *. cbn [counts] in *. by rewrite lookup_insert_ne.
  - destruct (inv_depth Hinv) as (d & Hd). exists d.
    intros y ny k [Hy Hyp%not_elem_of_singleton]%elem_of_difference Hny Hk
      [Hko _]%elem_of_difference.
    cbn [fst snd _nodes] in *. rewrite lookup_insert_ne in Hny by done. by eapply Hd.
Qed.

(** The hole can be forgotten once nobody waits in it. *)
Lemma tree_inv_close {root U seen expecting opened hole s} :
  tree_inv root U seen expecting opened hole s →
  (∀ y ny, y ∈ opened → _nodes s.1 !! y = Some ny → missing (children ny) ## hole) →
  tree_inv root U seen expecting opened ∅ s.
Proof.
  intros Hinv Hdisj. split; try apply Hinv.
  intros y Hy.
  destruct (inv_open Hinv y Hy) as (ps & M & C & Hnode & HM & Hsub & Hrc & Hp).
  exists ps, M, C. split_and!; [done..| |done|done].
  specialize (Hdisj y _ Hy Hnode). cbn in Hdisj. set_solver.
Qed.

(** The notification climbs from a completed node towards the root, as long
    as each parent it reaches was waiting for this child only. *)
Lemma notify_chain root U seen expecting fuel : ∀ opened p x r nodes store np,
  tree_inv root U seen expecting opened {[ x ]} (mk r nodes, store) →
  x ∉ opened → x ∉ expecting → x ≠ root →
  p ∈ opened → nodes !! p = Some np → x ∈ missing (children np) →
  (size opened ≤ fuel)%nat →
  ∃ s' opened',
    notify_parent_that_child_completed fuel p x (mk r nodes, store) = (Returned (), s') ∧
    opened' ⊆ opened ∧
    tree_inv root U seen expecting opened' ∅ s' ∧
    (p ∉ opened' → _nodes s'.1 !! x = None).
Proof.
  induction fuel as [|fuel IH]; intros opened p x r nodes store np Hinv Hxo Hxe Hxr Hp Hnp Hx Hsize.
  { assert (size opened = 0%nat) as Hzero%size_empty_inv by lia. set_solver. }
  destruct (inv_open Hinv p Hp) as (ps & M & C & Hnode & HM & Hsub & Hrc & Hpp).
  cbn [fst snd _nodes] in *. rewrite Hnp in Hnode. injection Hnode as ->.
  cbn [type parents children missing incomplete complete] in *.
  destruct (decide (M ∖ {[ x ]} = ∅)) as [Hlast|Hmore].
  - erewrite notify_completes; [|exact Hnp|done|done|done|done|by rewrite Hrc].
    rewrite Hrc. cbn [type parents children missing incomplete complete
                      direct_count recursive_count].
    change (1 - 1) with 0. change (0 + 1) with 1.
    pose proof (tree_inv_complete Hinv Hxo Hxe Hp Hnp Hx Hlast) as Hinv1.
    cbn [type parents children missing incomplete complete] in Hinv1.
    assert (p ∉ expecting) as Hpe.
    { intros He. destruct (inv_expecting Hinv p He) as (? & Hnode & _).
      cbn in Hnode. congruence. }
    destruct Hpp as [[-> ->]|(Hpr & pp & npp & -> & Hppo & Hnpp & Hpin)].
    + rewrite set_items_empty. cbn [for_each].
      unfold mbind, Exn_bind, mret, Exn_ret, modify_nodes, modify. cbn [fst snd _nodes root_id].
      eexists _, (opened ∖ {[ root ]}). split_and!; [done|set_solver| |].
      * apply tree_inv_delete; [|set_solver|done|done].
        apply (tree_inv_close Hinv1).
        intros y ny Hy Hny. apply disjoint_singleton_r. intros Hin.
        destruct (inv_child Hinv1 y ny root Hy Hny Hin) as (nk & Hnk & Hps).
        cbn in Hnk. rewrite lookup_insert_eq in Hnk. injection Hnk as <-. cbn in Hps.
        symmetry in Hps. by apply non_empty_singleton_L in Hps.
      * intros _. cbn. apply lookup_delete_eq.
    + assert (pp ≠ p) as Hne.
      { intros ->. destruct (inv_depth Hinv) as (d & Hd).
        specialize (Hd p _ p Hp Hnpp Hpin Hp). lia. }
      destruct (IH (opened ∖ {[ p ]}) pp p r _ _ npp Hinv1) as (s2 & opened2 & Hrun & Hsub2 & Hinv2 & _).
      { set_solver. } { done. } { done. } { set_solver. }
      { by rewrite lookup_insert_ne. } { done. }
      { assert (size (opened ∖ {[ p ]}) = (size opened - size ({[ p ]} : gset ObjectId))%nat)
          as Hsz by (apply size_difference; set_solver).
        rewrite size_singleton in Hsz. lia. }
      rewrite set_items_singleton. cbn [for_each].
      unfold mbind at 1, Exn_bind at 1. unfold mbind at 1, Exn_bind at 1. rewrite Hrun.
      unfold mret, Exn_ret, modify_nodes, modify. destruct s2 as [[r2 nodes2] store2].
      cbn [fst snd _nodes root_id].
      eexists _, opened2. split_and!; [done|set_solver| |].
      * apply tree_inv_delete; [done|set_solver|done|done].
      * intros _. cbn. apply lookup_delete_eq.
  - erewrite notify_not_last; [|exact Hnp|done|set_solver|done].
    cbn [type parents children missing incomplete complete].
    eexists _, opened. split_and!; [done|done| |done].
    by apply (tree_inv_not_last Hinv Hxo Hxe Hp Hnp Hx Hmore).
Qed.

(** Whatever has a node has been seen. *)
Lemma tree_inv_seen {root U seen expecting opened hole s x n} :
  tree_inv root U seen expecting opened hole s → _nodes s.1 !! x = Some n → x ∈ seen.
Proof.
  intros Hinv Hn. destruct (decide (x ∈ seen)) as [|Hx]; [done|].
  pose proof (inv_unseen Hinv x Hx). congruence.
Qed.

Lemma tree_inv_root_seen {root U seen expecting opened hole s} :
  tree_inv root U seen expecting opened hole s → root ∈ seen.
Proof.
  intros Hinv. destruct (inv_root Hinv) as [He|[Ho|(n & Hn & _)]].
  - destruct (inv_expecting Hinv root He) as (? & Hn & _).
    by eapply tree_inv_seen.
  - destruct (inv_open Hinv root Ho) as (? & ? & ? & Hn & _).
    by eapply tree_inv_seen.
  - by eapply tree_inv_seen.
Qed.

(** A leaf has arrived: it is Complete and holds a recursive count; its
    parent has not been told yet. *)
Lemma tree_inv_leaf_arrived {root U seen expecting opened r nodes store x ps} :
  tree_inv root U seen expecting opened ∅ (mk r nodes, store) →
  x ∈ expecting →
  nodes !! x = Some (mkNode Missing ps (mkChildren ∅ ∅ ∅)) →
  tree_inv root U seen (expecting ∖ {[ x ]}) opened {[ x ]}
    (mk r (<[x := mkNode Complete ps (mkChildren ∅ ∅ ∅)]> nodes),
     mkStore ({[ x ]} ∪ objects store) (<[x := mkRc 0 1]> (counts store)) (calls store)).
Proof.
  intros Hinv Hx Hnx.
  set (nx' := mkNode Complete _ _).
  assert (x ∉ opened) as Hxo.
  { intros Ho. destruct (inv_open Hinv x Ho) as (? & ? & ? & Hn & _).
    cbn in Hn. congruence. }
  assert (x ∈ seen) as Hxs by (by eapply tree_inv_seen).
  assert (∀ ps' y, parent_ok root opened nodes ps' y →
                   parent_ok root opened (<[x := nx']> nodes) ps' y) as Hpok.
  { intros ps' y [?|(Hyr & pp & npp & -> & Hpp & Hnpp & Hin)]; [by left|].
    right. split; [done|]. exists pp, npp. split_and!; [done..| |done].
    rewrite lookup_insert_ne; [done|]. by intros <-. }
  split; cbn [fst snd _nodes] in *.
  - intros z Hz. rewrite lookup_insert_ne by (by intros <-).
    by apply (inv_unseen Hinv).
  - intros z Hz Hnew.
    assert (z ≠ x) as Hzx by (intros ->; set_solver).
    destruct (inv_fresh Hinv z Hz) as [Hobj Hcnt]; [set_solver|].
    split; cbn in *; [set_solver|]. by rewrite lookup_insert_ne.
  - intros y Hy.
    destruct (inv_open Hinv y Hy) as (psy & M & C & Hnode & HM & Hsub & Hrc & Hp).
    cbn [fst snd _nodes] in *. exists psy, M, C.
    assert (y ≠ x) as Hyx by (by intros ->).
    rewrite lookup_insert_ne by done. split_and!; [done|done| | |by apply Hpok].
    + intros k Hk. specialize (Hsub k Hk). destruct (decide (k = x)); set_solver.
    + unfold Rc_load in *. cbn [counts] in *. by rewrite lookup_insert_ne.
  - intros y ny k Hy Hny Hk.
    assert (y ≠ x) as Hyx by (by intros ->).
    rewrite lookup_insert_ne in Hny by done.
    destruct (inv_child Hinv y ny k Hy Hny Hk) as (nk & Hnk & Hps).
    destruct (decide (k = x)) as [->|Hkx].
    + exists nx'. rewrite lookup_insert_eq. split; [done|].
      cbn in Hnk. rewrite Hnx in Hnk. by injection Hnk as <-.
    + exists nk. by rewrite lookup_insert_ne.
  - intros e [He Hex%not_elem_of_singleton]%elem_of_difference.
    destruct (inv_expecting Hinv e He) as (pse & Hnode & Hpe).
    cbn [fst snd _nodes] in *. exists pse.
    rewrite lookup_insert_ne by done. split; [done|by apply Hpok].
  - destruct (inv_root Hinv) as [He|[?|(n & Hn & Ht & Hrcr)]]; [|by right; left|].
    + destruct (decide (root = x)) as [->|Hrx].
      * right. right. exists nx'. rewrite lookup_insert_eq. split_and!; [done..|].
        by rewrite Rc_load_insert_eq.
      * left. set_solver.
    + right. right. exists n. cbn [fst snd _nodes] in *.
      assert (root ≠ x) as Hrx.
      { intros ->. rewrite Hnx in Hn. injection Hn as <-. discriminate Ht. }
      rewrite lookup_insert_ne by done. split_and!; [done..|].
      unfold Rc_load in *. cbn [counts] in *. by rewrite lookup_insert_ne.
  - destruct (inv_depth Hinv) as (d & Hd). exists d.
    intros y ny k Hy Hny Hk Hko. cbn [fst snd _nodes] in *.
    assert (y ≠ x) as Hyx by (by intros ->).
    rewrite lookup_insert_ne in Hny by done. by eapply Hd.
Qed.

(** The node map after an object has arrived with children that had no
    nodes yet. *)
Lemma inner_lookup (nodes : gmap ObjectId Node) x nx (ks : gset ObjectId) z :
  (∀ k, k ∈ ks → nodes !! k = None) → x ∉ ks →
  foldl (λ m c, add_parent x c m) (<[x := nx]> nodes) (set_items ks) !! z =
  if decide (z ∈ ks) then Some (mkNode Missing {[ x ]} (mkChildren ∅ ∅ ∅))
  else if decide (z = x) then Some nx else nodes !! z.
Proof.
  intros Hnone Hx. rewrite add_parents_lookup by apply NoDup_set_items.
  destruct (decide (z ∈ ks)) as [Hz|Hz].
  - rewrite decide_True by (by apply elem_of_set_items).
    rewrite lookup_insert_ne by (by intros ->). rewrite (Hnone z Hz). cbn.
    by rewrite union_empty_r_L.
  - rewrite decide_False by (by rewrite elem_of_set_items).
    destruct (decide (z = x)) as [->|Hzx].
    + by rewrite lookup_insert_eq.
    + by rewrite lookup_insert_ne.
Qed.

(** An object has arrived with children: it is open now and its children
    are expected. *)
Lemma tree_inv_inner_arrived {root U seen expecting opened r nodes store x ps}
    {ks : gset ObjectId} :
  tree_inv root U seen expecting opened ∅ (mk r nodes, store) →
  x ∈ expecting →
  nodes !! x = Some (mkNode Missing ps (mkChildren ∅ ∅ ∅)) →
  ks ≠ ∅ → ks ## seen →
  tree_inv root U (seen ∪ ks) (expecting ∖ {[ x ]} ∪ ks) (opened ∪ {[ x ]}) ∅
    (mk r (foldl (λ m c, add_parent x c m)
             (<[x := mkNode Incomplete ps (mkChildren ks ∅ ∅)]> nodes) (set_items ks)),
     mkStore ({[ x ]} ∪ objects store) (<[x := mkRc 1 0]> (counts store)) (calls store)).
Proof.
  intros Hinv Hx Hnx Hne Hdisj.
  set (nx' := mkNode Incomplete _ _).
  set (nodes1 := foldl _ _ _).
  assert (x ∉ opened) as Hxo.
  { intros Ho. destruct (inv_open Hinv x Ho) as (? & ? & ? & Hn & _).
    cbn in Hn. congruence. }
  assert (x ∈ seen) as Hxs by (by eapply tree_inv_seen).
  assert (x ∉ ks) as Hxks by set_solver.
  assert (∀ k, k ∈ ks → nodes !! k = None) as Hnone.
  { intros k Hk. apply (inv_unseen Hinv). set_solver. }
  assert (∀ z, nodes1 !! z =
               if decide (z ∈ ks) then Some (mkNode Missing {[ x ]} (mkChildren ∅ ∅ ∅))
               else if decide (z = x) then Some nx' else nodes !! z) as Hlook.
  { intros z. by apply inner_lookup. }
  assert (∀ z n, nodes !! z = Some n → z ≠ x → nodes1 !! z = Some n) as Hkeep.
  { intros z n Hn Hzx. rewrite Hlook. rewrite decide_False.
    - by rewrite decide_False.
    - intros Hz. rewrite (Hnone z Hz) in Hn. discriminate. }
  assert (nodes1 !! x = Some nx') as Hx1.
  { rewrite Hlook. rewrite decide_False by done. by rewrite decide_True. }
  assert (∀ ps' y, parent_ok root opened nodes ps' y →
                   parent_ok root (opened ∪ {[ x ]}) nodes1 ps' y) as Hpok.
  { intros ps' y [?|(Hyr & pp & npp & -> & Hpp & Hnpp & Hin)]; [by left|].
    right. split; [done|]. exists pp, npp. split_and!; [done|set_solver| |done].
    apply Hkeep; [done|]. by intros ->. }
  assert (root ∈ seen) as Hrs by (by eapply tree_inv_root_seen).
  split; cbn [fst snd _nodes] in *.
  - intros z Hz. rewrite Hlook. rewrite decide_False by set_solver.
    rewrite decide_False by (intros ->; set_solver).
    apply (inv_unseen Hinv). set_solver.
  - intros z Hz Hnew.
    assert (z ≠ x) as Hzx by (intros ->; set_solver).
    destruct (inv_fresh Hinv z Hz) as [Hobj Hcnt]; [set_solver|].
    split; cbn in *; [set_solver|]. by rewrite lookup_insert_ne.
  - intros y [Hy|Heq%elem_of_singleton]%elem_of_union; [|subst y].
    + destruct (inv_open Hinv y Hy) as (psy & M & C & Hnode & HM & Hsub & Hrc & Hp).
      cbn [fst snd _nodes] in *. exists psy, M, C.
      assert (y ≠ x) as Hyx by (by intros ->).
      split_and!; [by apply Hkeep|done| | |by apply Hpok].
      * intros k Hk. specialize (Hsub k Hk). destruct (decide (k = x)); set_solver.
      * unfold Rc_load in *. cbn [counts] in *. by rewrite lookup_insert_ne.
    + exists ps, ks, ∅. split_and!; [done|done|set_solver|by rewrite Rc_load_insert_eq|].
      destruct (inv_expecting Hinv x Hx) as (ps' & Hnode & Hp).
      cbn in Hnode. rewrite Hnx in Hnode. injection Hnode as <-. by apply Hpok.
  - intros y ny k [Hy|Heq%elem_of_singleton]%elem_of_union Hny Hk; [|subst y].
    + assert (y ≠ x) as Hyx by (by intros ->).
      destruct (inv_open Hinv y Hy) as (psy & M & C & Hnode & _).
      cbn in Hnode. rewrite (Hkeep _ _ Hnode Hyx) in Hny. injection Hny as <-.
      destruct (inv_child Hinv y _ k Hy Hnode Hk) as (nk & Hnk & Hps).
      destruct (decide (k = x)) as [->|Hkx].
      * exists nx'. split; [done|]. cbn in Hnk. rewrite Hnx in Hnk. by injection Hnk as <-.
      * exists nk. split; [by apply Hkeep|done].
    + rewrite Hx1 in Hny. injection Hny as <-. cbn in Hk.
      exists (mkNode Missing {[ x ]} (mkChildren ∅ ∅ ∅)). split; [|done].
      rewrite Hlook. by rewrite decide_True.
  - intros e [[He Hex%not_elem_of_singleton]%elem_of_difference|He]%elem_of_union.
    + destruct (inv_expecting Hinv e He) as (pse & Hnode & Hpe).
      cbn [fst snd _nodes] in *. exists pse. split; [by apply Hkeep|by apply Hpok].
    + exists {[ x ]}. split.
      * rewrite Hlook. by rewrite decide_True.
      * right. split; [intros ->; set_solver|].
        exists x, nx'. split_and!; [done|set_solver|done|done].
  - destruct (inv_root Hinv) as [He|[?|(n & Hn & Ht & Hrcr)]].
    + destruct (decide (root = x)) as [->|Hrx]; [right; left; set_solver|left; set_solver].
    + right. left. set_solver.
    + right. right. exists n. cbn [fst snd _nodes] in *.
      assert (root ≠ x) as Hrx.
      { intros ->. rewrite Hnx in Hn. injection Hn as <-. discriminate Ht. }
      split_and!; [by apply Hkeep|done|].
      unfold Rc_load in *. cbn [counts] in *. by rewrite lookup_insert_ne.
  - destruct (inv_depth Hinv) as (d & Hd).
    destruct (inv_expecting Hinv x Hx) as (ps' & Hnode & Hp).
    cbn in Hnode. rewrite Hnx in Hnode. injection Hnode as <-.
    exists (λ z, if decide (z = x)
                 then S (default 0%nat (d <$> head (elements ps)))
                 else d z).
    intros y ny k [Hy|Heq%elem_of_singleton]%elem_of_union Hny Hk Hko; [|subst y].
    + assert (y ≠ x) as Hyx by (by intros ->).
      destruct (inv_open Hinv y Hy) as (psy & M & C & Hnode & _).
      cbn in Hnode. rewrite (Hkeep _ _ Hnode Hyx) in Hny. injection Hny as <-.
      rewrite decide_False by done.
      destruct (decide (k = x)) as [->|Hkx].
      * destruct (inv_child Hinv y _ x Hy Hnode Hk) as (nk & Hnk & Hps).
        cbn in Hnk. rewrite Hnx in Hnk. injection Hnk as <-. cbn in Hps. subst ps.
        rewrite elements_singleton. cbn. lia.
      * apply elem_of_union in Hko as [Hko|Hko%elem_of_singleton]; [|done].
        by eapply Hd.
    + rewrite Hx1 in Hny. injection Hny as <-. cbn in Hk.
      apply elem_of_union in Hko as [Hko|Hko%elem_of_singleton]; [|by subst].
      destruct (inv_open Hinv k Hko) as (? & ? & ? & Hnode & _).
      cbn in Hnode. rewrite (Hnone k Hk) in Hnode. discriminate.
Qed.

(** When nothing is expected any more, nothing is open either: an open node
    waits for a child that is open too, and the depth cannot grow for ever. *)
Lemma tree_inv_all_closed {root U seen opened s} :
  tree_inv root U seen ∅ opened ∅ s → opened = ∅.
Proof.
  intros Hinv. destruct (inv_depth Hinv) as (d & Hd).
  destruct (decide (opened = ∅)) as [|Hne]; [done|]. exfalso.
  set (deeper := λ a b : ObjectId, (d b ≤ d a)%nat).
  assert (Transitive deeper) as Htrans by (intros a b c; unfold deeper; lia).
  assert (∀ a b, Decision (deeper a b)) as Hdec by (intros a b; unfold deeper; apply _).
  destruct (minimal_exists_elem_of_L deeper opened Hne) as (m & Hm & Hmin).
  destruct (inv_open Hinv m Hm) as (ps & M & C & Hnode & HM & Hsub & _).
  apply set_choose_L in HM as [k Hk].
  assert (k ∈ opened) as Hko by set_solver.
  specialize (Hd m _ k Hm Hnode Hk Hko).
  specialize (Hmin k Hko). unfold deeper in Hmin. lia.
Qed.

(** One delivery. *)
Lemma receive_step root U seen expecting opened fuel x (ks : gset ObjectId) s :
  tree_inv root U seen expecting opened ∅ s →
  x ∈ expecting → ks ## seen → x ∈ U → ks ⊆ U →
  (size opened ≤ fuel)%nat →
  ∃ s' opened',
    receive fuel x ks s = (Returned (), s') ∧
    tree_inv root U (seen ∪ ks) (expecting ∖ {[ x ]} ∪ ks) opened' ∅ s' ∧
    (size opened' ≤ S (size opened))%nat ∧
    (x ≠ root → ks = ∅ → opened' = ∅ → _nodes s'.1 !! x = None).
Proof.
  destruct s as [[r nodes] [objs cnts cs]]. intros Hinv Hx Hdisj HxU HksU Hfuel.
  destruct (inv_expecting Hinv x Hx) as (ps & Hnx & Hpx).
  destruct (inv_fresh Hinv x HxU (or_intror Hx)) as [Hxobj Hxcnt].
  cbn [fst snd _nodes objects counts] in *.
  assert (x ∉ opened) as Hxo.
  { intros Ho. destruct (inv_open Hinv x Ho) as (? & ? & ? & Hn & _).
    cbn in Hn. congruence. }
  assert (x ∈ seen) as Hxs by (by eapply (tree_inv_seen Hinv)).
  unfold receive. unfold mbind at 1, Exn_bind at 1, modify at 1.
  cbn [fst snd objects counts calls].
  assert (Rc_load (mkStore ({[ x ]} ∪ objs) cnts cs) x = mkRc 0 0) as Hrc.
  { unfold Rc_load. cbn. by rewrite Hxcnt. }
  destruct (decide (ks = ∅)) as [->|Hks].
  - erewrite insert_leaf by exact Hnx. rewrite Hrc.
    cbn [direct_count recursive_count objects counts calls]. change (0 + 1) with 1.
    pose proof (tree_inv_leaf_arrived Hinv Hx Hnx) as Hinv1.
    cbn [objects counts calls] in Hinv1. rewrite !union_empty_r_L.
    destruct Hpx as [[-> ->]|(Hxr & pp & npp & -> & Hpp & Hnpp & Hin)].
    + rewrite set_items_empty. cbn [for_each].
      eexists _, opened. split_and!; [done| |lia|done].
      apply (tree_inv_close Hinv1).
      intros y ny Hy Hny. apply disjoint_singleton_r. intros Hroot.
      destruct (inv_child Hinv1 y ny root Hy Hny Hroot) as (nk & Hnk & Hps).
      cbn in Hnk. rewrite lookup_insert_eq in Hnk. injection Hnk as <-. cbn in Hps.
      symmetry in Hps. by apply non_empty_singleton_L in Hps.
    + assert (pp ≠ x) as Hppx by (by intros ->).
      destruct (notify_chain root U seen (expecting ∖ {[ x ]}) fuel opened pp x r _ _ npp Hinv1)
        as (s' & opened' & Hrun & Hsub & Hinv' & Herased); [done|set_solver|done|done| |done|done|].
      { by rewrite lookup_insert_ne. }
      rewrite set_items_singleton. cbn [for_each].
      unfold mbind, Exn_bind. rewrite Hrun.
      exists s', opened'. split_and!; [done|done| |].
      * apply subseteq_size in Hsub. lia.
      * intros _ _ ->. apply Herased. set_solver.
  - erewrite insert_inner; [|exact Hnx|done|].
    2:{ intros k Hk. cbn. rewrite elem_of_union, elem_of_singleton. intros [->|Hkobj].
        - set_solver.
        - destruct (inv_fresh Hinv k) as [Hfresh _]; [set_solver|left; set_solver|].
          done. }
    rewrite Hrc. cbn [direct_count recursive_count objects counts calls]. change (0 + 1) with 1.
    eexists _, (opened ∪ {[ x ]}). split_and!; [done| | |done].
    + by apply (tree_inv_inner_arrived Hinv Hx Hnx).
    + rewrite size_union by set_solver. rewrite size_singleton. lia.
Qed.

(** What is expected does arrive. *)
Lemma top_down_expected order : ∀ seen expecting,
  top_down seen expecting order → expecting ⊆ list_to_set order.*1.
Proof.
  induction order as [|[x ks] rest IH]; intros seen expecting Htd; cbn in *.
  - by rewrite Htd.
  - destruct Htd as (_ & _ & Htd). apply IH in Htd.
    intros z Hz. destruct (decide (z = x)) as [->|Hzx]; set_solver.
Qed.

Lemma run_top_down root U fuel : ∀ order seen expecting opened s,
  top_down seen expecting order →
  tree_inv root U seen expecting opened ∅ s →
  list_to_set order.*1 ⊆ U →
  (size opened + length order ≤ fuel)%nat →
  ∃ s' seen',
    for_each order (λ p, receive fuel p.1 p.2) s = (Returned (), s') ∧
    tree_inv root U seen' ∅ ∅ ∅ s' ∧
    (∀ x, last order.*1 = Some x → x ≠ root → _nodes s'.1 !! x = None).
Proof.
  induction order as [|[x ks] rest IH]; intros seen expecting opened s Htd Hinv HU Hfuel.
  - cbn in Htd. subst expecting. exists s, seen. split_and!; [done| |done].
    by rewrite (tree_inv_all_closed Hinv) in Hinv.
  - cbn [top_down fst snd] in Htd. destruct Htd as (Hx & Hks & Htd).
    pose proof (top_down_expected _ _ _ Htd) as Hexp.
    cbn [fmap list_fmap list_to_set length fst] in HU, Hfuel.
    destruct (receive_step root U seen expecting opened fuel x ks s Hinv Hx Hks)
      as (s1 & opened1 & Hrun1 & Hinv1 & Hsize1 & Herased); [set_solver|set_solver|lia|].
    destruct (IH _ _ opened1 s1 Htd Hinv1) as (s' & seen' & Hrun & Hinv' & Hlast);
      [set_solver|lia|].
    exists s', seen'. cbn [for_each fst snd]. unfold mbind at 1, Exn_bind at 1.
    rewrite Hrun1. split_and!; [done..|].
    intros z Hz Hzr. destruct rest as [|[x' ks'] rest].
    + cbn in Hz. injection Hz as <-. cbn in Hrun. injection Hrun as <-.
      cbn [top_down] in Htd.
      apply Herased; [done| |].
      * apply set_eq. intros k. split; [|set_solver]. intros Hk.
        assert (k ∈ expecting ∖ {[ x ]} ∪ ks) as Hk' by set_solver.
        by rewrite Htd in Hk'.
      * rewrite Htd in Hinv1. by apply (tree_inv_all_closed Hinv1).
    + by apply Hlast.
Qed.



(** The loop of [forget] stops at the first removal that throws. *)
Lemma forget_loop io_fails kvs : ∀ s,
  for_each kvs (λ kv,
     match type kv.2 with
     | Complete => remove io_fails (refcount_deep_remove kv.1)
     | Incomplete => remove io_fails (refcount_flat_remove kv.1)
     | Missing => mret ()
     end) s =
  (if forallb (λ c, negb (io_fails c)) (omap removal kvs)
   then Returned () else Threw io_error,
   (s.1, mkStore (objects s.2) (counts s.2)
           (calls s.2 ++ until_failure io_fails (omap removal kvs)))).
Proof.
  induction kvs as [|[k n] kvs IH]; intros [b [objs cnts cs]].
  - simpl. by rewrite app_nil_r.
  - change (omap removal ((k, n) :: kvs)) with
      (match removal (k, n) with
       | Some c => c :: omap removal kvs
       | None => omap removal kvs
       end).
    cbn [for_each]. unfold mbind at 1, Exn_bind at 1.
    unfold removal at 1 4. cbn [fst snd].
    destruct (type n).
    + unfold mret at 1, Exn_ret at 1. apply IH.
    + cbn [forallb until_failure]. unfold remove at 1.
      destruct (io_fails (refcount_flat_remove k)); cbn [negb andb fst snd].
      * by rewrite app_nil_r.
      * rewrite IH. cbn. by rewrite <- app_assoc.
    + cbn [forallb until_failure]. unfold remove at 1.
      destruct (io_fails (refcount_deep_remove k)); cbn [negb andb fst snd].
      * by rewrite app_nil_r.
      * rewrite IH. cbn. by rewrite <- app_assoc.
Qed.

(** C5 (as the code has it): [forget] empties the node map and walks the
    nodes in ascending id order, asking [deep_remove] for a Complete node,
    [flat_remove] for an Incomplete one and nothing for a Missing one. It
    throws nothing: at the first removal that throws it stops, and the
    process exits with code 1. *)
Theorem forget_removes_until_failure io_fails (s : State) :
  forget io_fails s =
  (if forallb (λ c, negb (io_fails c)) (omap removal (map_items (_nodes s.1)))
   then Returned () else Threw (exited 1),
   (mk (root_id s.1) ∅,
    mkStore (objects s.2) (counts s.2)
      (calls s.2 ++ until_failure io_fails (omap removal (map_items (_nodes s.1)))))).
Proof.
  unfold forget, mbind, Exn_bind, gets, modify_nodes, modify, try_or_exit. simpl.
  rewrite forget_loop. simpl. by destruct (forallb _ _).
Qed.

(** C5 as stated fails: with a Complete node 1 and an Incomplete node 2,
    when [deep_remove] of 1 throws, [forget] exits the process and
    [flat_remove] of 2 is never asked for. *)
Lemma forget_exits_on_failure :
  ¬ forget_as_specified deep_remove_fails two_nodes.
Proof.
  intros Hspec.
  destruct (Hspec _ _ (forget_removes_until_failure _ _)) as [Ho _].
  vm_compute in Ho. discriminate Ho.
Qed.

(** C6 fails on the code: object 2 is already in the object directory with
    a recursive count when the root 1 arrives with the children 2 and 3, so
    [sort_children] files 2 under [complete] while its node is created
    Missing. When 2 is inserted, [notify_parent_that_child_completed 1 2]
    finds it neither in [missing] nor in [incomplete], and the assertion
    [cnt == 1] fails. The same happens from an empty object directory with
    a shared child: 4 completes under its parent 2 and is erased, its second
    parent 3 then files it under [complete] and creates its node anew as
    Missing, and the arrival of 4 for that node fails the assertion. *)
Theorem notify_assertion_fails fuel :
  (∃ s1 root,
     receive (S fuel) 1 {[ 2; 3 ]} with_stored_child = (Returned (), s1) ∧
     _nodes s1.1 !! 1 = Some root ∧
     (2 ∉ missing (children root)) ∧ (2 ∉ incomplete (children root)) ∧
     (notify_parent_that_child_completed (S fuel) 1 2 s1).1 = Threw assertion_failed ∧
     (insert_object (S fuel) 2 ∅ s1).1 = Threw assertion_failed) ∧
  (∃ s,
     for_each shared_child (λ p, receive (S (S fuel)) p.1 p.2) (create 1, mkStore ∅ ∅ [])
       = (Returned (), s) ∧
     (∃ n, _nodes s.1 !! 4 = Some n ∧ type n = Missing) ∧
     (insert_object (S (S fuel)) 4 ∅ s).1 = Threw assertion_failed).
Proof.
  split.
  - eexists _, _. split_and!.
    + vm_compute. reflexivity.
    + vm_compute. reflexivity.
    + vm_compute. discriminate.
    + vm_compute. discriminate.
    + vm_compute. reflexivity.
    + vm_compute. reflexivity.
  - eexists. split_and!.
    + vm_compute. reflexivity.
    + eexists. split; vm_compute; reflexivity.
    + vm_compute. reflexivity.
Qed.


(** *** Sorting children, node types and [clone] *)

Lemma evolves_refl nodes : evolves nodes nodes.
Proof. intros x n' Hx. exists n'. split; [done|by left]. Qed.

Lemma evolves_trans n1 n2 n3 : evolves n1 n2 → evolves n2 n3 → evolves n1 n3.
Proof.
  intros H12 H23 x c Hc. destruct (H23 x c Hc) as (b & Hb & Hbc).
  destruct (H12 x b Hb) as (a & Ha & Hab). exists a. split; [done|].
  destruct Hbc as [->|[Hb1 ->]]; [done|].
  destruct Hab as [Hab|[? ?]]; [|congruence]. right. split; congruence.
Qed.

Lemma evolves_insert nodes p n n' :
  nodes !! p = Some n →
  type n' = type n ∨ (type n = Incomplete ∧ type n' = Complete) →
  evolves nodes (<[p := n']> nodes).
Proof.
  intros Hp Ht x m Hx. destruct (decide (x = p)) as [->|Hne].
  - rewrite lookup_insert_eq in Hx. injection Hx as <-. by exists n.
  - rewrite lookup_insert_ne in Hx by done. exists m. split; [done|by left].
Qed.

Lemma evolves_delete nodes k : evolves nodes (delete k nodes).
Proof.
  intros x m [_ Hx]%lookup_delete_Some. exists m. split; [done|by left].
Qed.

(** Telling a parent never makes a node, and moves no type but from
    Incomplete to Complete, however the call ends. *)
Lemma notify_evolves fuel : ∀ p c s o s',
  notify_parent_that_child_completed fuel p c s = (o, s') →
  evolves (_nodes s.1) (_nodes s'.1).
Proof.
  induction fuel as [|fuel IH]; intros p c [[r nodes] store] o s' Hrun;
    cbn [notify_parent_that_child_completed] in Hrun.
  - injection Hrun as _ <-. apply evolves_refl.
  - unfold mbind at 1, Exn_bind at 1, nodes_at at 1 in Hrun. cbn [fst snd _nodes] in Hrun.
    destruct (nodes !! p) as [np|] eqn:Hp; [|injection Hrun as _ <-; apply evolves_refl].
    destruct (if decide (c ∈ missing (children np)) then _ else _) as [missing1 cnt].
    destruct (if decide (c ∈ incomplete (children np)) then _ else _) as [incomplete1 cnt0].
    unfold mbind at 1, Exn_bind at 1, modify_nodes at 1, modify at 1 in Hrun.
    cbn [fst snd _nodes root_id] in Hrun.
    unfold mbind at 1, Exn_bind at 1, ouisync_assert at 1 in Hrun.
    destruct (bool_decide (cnt0 = 1%nat)); last first.
    { injection Hrun as _ <-. cbn. eapply evolves_insert; [done|by left]. }
    unfold mret at 1, Exn_ret at 1 in Hrun.
    unfold mbind at 1, Exn_bind at 1, modify_nodes at 1, modify at 1 in Hrun.
    cbn [fst snd _nodes root_id] in Hrun. rewrite insert_insert_eq in Hrun.
    destruct (is_complete _); last first.
    { injection Hrun as _ <-. cbn. eapply evolves_insert; [done|by left]. }
    unfold mbind at 1, Exn_bind at 1, decrement_direct_count at 1 in Hrun.
    unfold mbind at 1, Exn_bind at 1, gets at 1 in Hrun. cbn [fst snd] in Hrun.
    destruct (decide (direct_count _ = 0)).
    { injection Hrun as _ <-. cbn. eapply evolves_insert; [done|by left]. }
    unfold modify_rc at 1, modify at 1 in Hrun. cbn [fst snd] in Hrun.
    unfold mbind at 1, Exn_bind at 1, increment_recursive_count at 1, modify_rc at 1,
      modify at 1 in Hrun. cbn [fst snd] in Hrun.
    unfold mbind at 1, Exn_bind at 1, ouisync_assert at 1 in Hrun. cbn [type] in Hrun.
    destruct (bool_decide (type np = Incomplete)) eqn:Htype; last first.
    { injection Hrun as _ <-. cbn. eapply evolves_insert; [done|by left]. }
    apply bool_decide_eq_true_1 in Htype.
    unfold mret at 1, Exn_ret at 1 in Hrun.
    unfold mbind at 1, Exn_bind at 1, modify_nodes at 1, modify at 1 in Hrun.
    cbn [fst snd _nodes root_id parents children] in Hrun. rewrite insert_insert_eq in Hrun.
    unfold mbind at 1, Exn_bind at 1 in Hrun.
    match type of Hrun with context [for_each ?xs ?body ?s0] =>
      assert (∀ o1 s1, for_each xs body s0 = (o1, s1) → evolves nodes (_nodes s1.1)) as Hloop
    end.
    { intros o1 s1 Hfor.
      eapply (for_each_inv (λ s1 : State, evolves nodes (_nodes s1.1))); [| |exact Hfor].
      - intros g s2 o2 s2' _ Hs2 Hg. eapply evolves_trans; [exact Hs2|]. eapply IH, Hg.
      - cbn. eapply evolves_insert; [done|]. right. done. }
    destruct (for_each _ _ _) as [[[]|e] s1] eqn:Hfor.
    + injection Hrun as _ <-. cbn. eapply evolves_trans; [by eapply Hloop|].
      apply evolves_delete.
    + injection Hrun as _ <-. by eapply Hloop.
Qed.

(** X6: [sort_children] files every child under exactly one heading: an object
    that is not in the object directory is missing; one that is there is
    complete when its recursive count is positive and incomplete otherwise. *)
Theorem sort_children_partition store (cs : gset ObjectId) :
  let sorted := sort_children store cs in
  (∀ c, c ∈ missing sorted ↔ c ∈ cs ∧ c ∉ objects store) ∧
  (∀ c, c ∈ incomplete sorted ↔
        c ∈ cs ∧ c ∈ objects store ∧ recursive_count (Rc_load store c) = 0) ∧
  (∀ c, c ∈ complete sorted ↔
        c ∈ cs ∧ c ∈ objects store ∧ 0 < recursive_count (Rc_load store c)) ∧
  missing sorted ∪ incomplete sorted ∪ complete sorted = cs ∧
  missing sorted ## incomplete sorted ∧
  missing sorted ## complete sorted ∧
  incomplete sorted ## complete sorted.
Proof.
  intros sorted.
  pose proof (sort_children_fold store (set_items cs) (mkChildren ∅ ∅ ∅)) as Hfold.
  fold (sort_children store cs) in Hfold. fold sorted in Hfold.
  cbn [missing incomplete complete] in Hfold.
  assert (∀ c, c ∈ missing sorted ↔ c ∈ cs ∧ c ∉ objects store) as Hm.
  { intros c. destruct (Hfold c) as (-> & _). rewrite elem_of_set_items. set_solver. }
  assert (∀ c, c ∈ incomplete sorted ↔
               c ∈ cs ∧ c ∈ objects store ∧ recursive_count (Rc_load store c) = 0) as Hi.
  { intros c. destruct (Hfold c) as (_ & -> & _). rewrite elem_of_set_items.
    assert (¬ 0 < recursive_count (Rc_load store c) ↔ recursive_count (Rc_load store c) = 0)
      as -> by lia. set_solver. }
  assert (∀ c, c ∈ complete sorted ↔
               c ∈ cs ∧ c ∈ objects store ∧ 0 < recursive_count (Rc_load store c)) as Hc.
  { intros c. destruct (Hfold c) as (_ & _ & ->). rewrite elem_of_set_items. set_solver. }
  split_and!; [done..| | | |].
  - apply set_eq. intros c. rewrite !elem_of_union, Hm, Hi, Hc.
    destruct (decide (c ∈ objects store)); [|naive_solver].
    destruct (decide (recursive_count (Rc_load store c) = 0)); [naive_solver|].
    assert (0 < recursive_count (Rc_load store c)) by lia. naive_solver.
  - intros c. rewrite Hm, Hi. naive_solver.
  - intros c. rewrite Hm, Hc. naive_solver.
  - intros c. rewrite Hi, Hc. intros (_ & _ & ?) (_ & _ & ?). lia.
Qed.


(** What [insert_object] does to the node map: nothing when the node is not
    there or not Missing; otherwise the node gets its type, the children
    get their nodes, and the parents are told. *)
Lemma insert_object_shape fuel id children s o s' :
  insert_object fuel id children s = (o, s') →
  (s' = s ∧ o = Returned () ∧
   (_nodes s.1 !! id = None ∨ ∃ n, _nodes s.1 !! id = Some n ∧ type n ≠ Missing)) ∨
  (∃ node sorted,
     _nodes s.1 !! id = Some node ∧ type node = Missing ∧
     evolves
       (foldl (λ m c, add_parent id c m)
          (<[id := mkNode (if decide (children = ∅) then Complete else Incomplete)
                     (parents node) sorted]> (_nodes s.1))
          (set_items children))
       (_nodes s'.1)).
Proof.
  destruct s as [[r nodes] store]. unfold insert_object. intros Hrun.
  unfold mbind at 1, Exn_bind at 1, gets at 1 in Hrun. cbn [fst snd _nodes] in *.
  destruct (nodes !! id) as [node|] eqn:Hid; last first.
  { left. injection Hrun as <- <-. split_and!; [done..|by left]. }
  destruct (decide (type node ≠ Missing)) as [Hne|Hmissing].
  { left. injection Hrun as <- <-. split_and!; [done..|]. right. by exists node. }
  right. apply dec_stable in Hmissing.
  unfold mbind at 1, Exn_bind at 1, gets at 1 in Hrun. cbn [fst snd] in Hrun.
  exists node, (sort_children store children). split; [done|]. split; [done|].
  unfold mbind at 1, Exn_bind at 1, modify_nodes at 1, modify at 1 in Hrun.
  cbn [fst snd _nodes root_id] in Hrun.
  unfold mbind at 1, Exn_bind at 1 in Hrun. rewrite add_parents_run in Hrun.
  unfold mbind at 1, Exn_bind at 1, nodes_at at 1 in Hrun. cbn [fst snd _nodes] in Hrun.
  destruct (foldl _ _ _ !! id) as [node2|].
  2: { injection Hrun as _ <-. apply evolves_refl. }
  destruct (is_complete node2).
  - unfold mbind at 1, Exn_bind at 1, increment_recursive_count at 1, modify_rc at 1,
      modify at 1 in Hrun. cbn [fst snd] in Hrun.
    eapply (for_each_inv (λ s1 : State, evolves _ (_nodes s1.1))); [| |exact Hrun].
    + intros g s2 o2 s2' _ Hs2 Hg. eapply evolves_trans; [exact Hs2|].
      eapply notify_evolves, Hg.
    + apply evolves_refl.
  - unfold increment_direct_count, modify_rc, modify in Hrun. injection Hrun as _ <-.
    apply evolves_refl.
Qed.

(** X7: Node types only advance, from Missing to Incomplete to Complete: after
    [insert_object], however it ends, a node that was there before has a
    type of the same or a higher rank, and a node that was not there is a
    Missing node of one of the children listed. *)
Theorem insert_object_types_advance fuel id children s o s' x n' :
  insert_object fuel id children s = (o, s') →
  _nodes s'.1 !! x = Some n' →
  match _nodes s.1 !! x with
  | Some n => (type_rank (type n) ≤ type_rank (type n'))%nat
  | None => x ∈ children ∧ type n' = Missing
  end.
Proof.
  intros [(-> & _ & _)|(node & sorted & Hid & Hmissing & Hev)]%insert_object_shape Hx.
  { by rewrite Hx. }
  destruct (Hev x n' Hx) as (n2 & Hn2 & Hstep).
  assert (type_rank (type n2) ≤ type_rank (type n'))%nat as Hrank.
  { destruct Hstep as [->|[-> ->]]; cbn; lia. }
  rewrite add_parents_lookup in Hn2 by apply NoDup_set_items.
  destruct (decide (x = id)) as [->|Hne].
  - rewrite Hid, Hmissing. cbn. lia.
  - rewrite lookup_insert_ne in Hn2 by done. case_decide as Hin.
    + apply elem_of_set_items in Hin. injection Hn2 as <-.
      destruct (_nodes s.1 !! x) as [n|]; cbn in *; [done|].
      split; [done|]. by destruct Hstep as [->|[[=] _]].
    + by rewrite Hn2.
Qed.

(** X8: [insert_object] for the same id a second time changes nothing, whatever
    the first call did and however it ended: the node is no longer Missing,
    or it is gone. *)
Theorem insert_object_again fuel fuel' id children children' s o s' :
  insert_object fuel id children s = (o, s') →
  insert_object fuel' id children' s' = (Returned (), s').
Proof.
  intros Hrun.
  assert (_nodes s'.1 !! id = None ∨ ∃ n, _nodes s'.1 !! id = Some n ∧ type n ≠ Missing)
    as Hsettled.
  { apply insert_object_shape in Hrun
      as [(-> & _ & ?)|(node & sorted & Hid & Hmissing & Hev)]; [done|].
    destruct (_nodes s'.1 !! id) as [n'|] eqn:Hn'; [|by left]. right.
    exists n'. split; [done|].
    destruct (Hev id n' Hn') as (n2 & Hn2 & Hstep).
    rewrite add_parents_lookup in Hn2 by apply NoDup_set_items.
    assert (type n2 ≠ Missing) as Hn2t.
    { case_decide; rewrite lookup_insert_eq in Hn2; injection Hn2 as <-; cbn;
        by case_decide. }
    destruct Hstep as [->|[_ ->]]; done. }
  unfold insert_object, mbind, Exn_bind, gets. cbn [fst snd].
  destruct Hsettled as [->|(n & -> & Hn)]; [done|].
  by rewrite decide_True.
Qed.




(** Copying nodes with [std::map::insert]: what is there stays. *)
Lemma insert_new_fold {V} (kvs : list (ObjectId * V)) : ∀ m0,
  foldl (λ m kv, RemoteBranch.map_insert_new kv.1 kv.2 m) m0 kvs = m0 ∪ list_to_map kvs.
Proof.
  induction kvs as [|[k v] kvs IH]; intros m0; cbn [foldl].
  - change (list_to_map []) with (∅ : gmap ObjectId V). by rewrite (right_id_L ∅ (∪)).
  - rewrite IH. change (list_to_map ((k, v) :: kvs)) with (<[k := v]> (list_to_map kvs : gmap ObjectId V)).
    cbn [fst snd]. apply map_eq. intros j.
    unfold RemoteBranch.map_insert_new. rewrite !lookup_union.
    destruct (decide (j = k)) as [->|Hj].
    + rewrite lookup_insert_eq. destruct (m0 !! k) eqn:Hk.
      * rewrite Hk. by destruct (list_to_map kvs !! k).
      * rewrite lookup_insert_eq. by destruct (list_to_map kvs !! k).
    + rewrite (lookup_insert_ne (list_to_map kvs)) by done.
      destruct (m0 !! k); [done|]. by rewrite lookup_insert_ne.
Qed.

Lemma clone_loop_run kvs : ∀ c this store,
  NoDup kvs.*1 →
  ∃ counts',
    clone_loop kvs c (this, store) =
      (Returned (mk (root_id c)
                    (foldl (λ m kv, RemoteBranch.map_insert_new kv.1 kv.2 m) (_nodes c) kvs)),
       (this, mkStore (objects store) counts' (calls store))) ∧
    ∀ id, Rc_load (mkStore (objects store) counts' (calls store)) id =
          clone_count (type <$> (list_to_map kvs : gmap ObjectId Node) !! id)
            (Rc_load store id).
Proof.
  induction kvs as [|[k n] kvs IH]; intros c this store Hnodup.
  - exists (counts store). cbn. split; [by destruct c, store|]. intros id. by destruct store.
  - cbn [fmap list_fmap fst] in Hnodup. apply NoDup_cons in Hnodup as [Hk Hnodup].
    cbn [clone_loop foldl list_to_map fst snd].
    unfold mbind at 1, Exn_bind at 1, clone_step at 1. cbn [fst snd root_id _nodes].
    set (c1 := mk (root_id c) (RemoteBranch.map_insert_new k n (_nodes c))).
    assert (∃ cnts1,
              (match type n with
               | Complete => increment_recursive_count k
               | Incomplete => increment_direct_count k
               | Missing => mret ()
               end) (this, store) =
              (Returned (), (this, mkStore (objects store) cnts1 (calls store))) ∧
              ∀ id, Rc_load (mkStore (objects store) cnts1 (calls store)) id =
                    if decide (id = k) then clone_count (Some (type n)) (Rc_load store id)
                    else Rc_load store id) as (cnts1 & Hstep & Hcnts1).
    { destruct (type n).
      - exists (counts store). split; [by destruct store|]. intros id.
        destruct store. by case_decide.
      - eexists. split; [reflexivity|]. intros id. unfold Rc_load. cbn [counts].
        case_decide as Hid; [subst id; by rewrite lookup_insert_eq|by rewrite lookup_insert_ne].
      - eexists. split; [reflexivity|]. intros id. unfold Rc_load. cbn [counts].
        case_decide as Hid; [subst id; by rewrite lookup_insert_eq|by rewrite lookup_insert_ne]. }
    unfold mbind at 1, Exn_bind at 1. rewrite Hstep. unfold mret at 1, Exn_ret at 1.
    destruct (IH c1 this (mkStore (objects store) cnts1 (calls store)) Hnodup)
      as (counts' & Hrun & Hcounts).
    exists counts'. cbn [objects calls] in Hrun, Hcounts. split; [exact Hrun|].
    intros id. rewrite Hcounts, Hcnts1, list_to_map_cons.
    destruct (decide (id = k)) as [->|Hid].
    + rewrite lookup_insert_eq. rewrite (not_elem_of_list_to_map_1 _ _ Hk). done.
    + by rewrite lookup_insert_ne.
Qed.

(** X10: [clone] copies every node but the root: the node the constructor made
    for the root is kept, so the root of the clone is Missing without parents
    and children, whatever it is in the original. A count is taken for every
    Complete and every Incomplete node of the original, the root among
    them; the snapshot that is cloned and the object directory are as
    before. *)
Theorem clone_result (s : State) :
  ∃ counts',
    clone s =
      (Returned (mk (root_id s.1)
                    (<[root_id s.1 := mkNode Missing ∅ (mkChildren ∅ ∅ ∅)]> (_nodes s.1))),
       (s.1, mkStore (objects s.2) counts' (calls s.2))) ∧
    ∀ id, Rc_load (mkStore (objects s.2) counts' (calls s.2)) id =
          clone_count (type <$> _nodes s.1 !! id) (Rc_load s.2 id).
Proof.
  destruct s as [this store]. cbn [fst snd].
  destruct (list_to_map_map_items (_nodes this)) as [Hnodup Hmap].
  destruct (clone_loop_run (map_items (_nodes this)) (create (root_id this)) this store Hnodup)
    as (counts' & Hrun & Hcounts).
  exists counts'. unfold clone, mbind, Exn_bind, gets. cbn [fst snd]. rewrite Hrun.
  rewrite insert_new_fold, Hmap in *. cbn [create root_id _nodes].
  by rewrite insert_union_singleton_l.
Qed.

Lemma elem_of_until_failure io_fails cs c :
  c ∈ until_failure io_fails cs → c ∈ cs.
Proof.
  induction cs as [|c0 cs IH]; cbn; [done|].
  destruct (io_fails c0); [by intros ?%elem_of_nil|].
  intros [->|?]%elem_of_cons; [by left|]. right. by apply IH.
Qed.

(** X11: The count [clone] takes for the root is not given back by the clone:
    when the root's node is Complete or Incomplete in the original, [clone]
    increments its count, but the clone holds the root as Missing, so
    [forget] on the clone asks no removal for it. *)
Theorem clone_forget_keeps_root_count io_fails (s : State) n :
  _nodes s.1 !! root_id s.1 = Some n →
  type n ≠ Missing →
  ∃ c s1 o s2 made,
    clone s = (Returned c, s1) ∧
    Rc_load s1.2 (root_id s.1) = clone_count (Some (type n)) (Rc_load s.2 (root_id s.1)) ∧
    Rc_load s1.2 (root_id s.1) ≠ Rc_load s.2 (root_id s.1) ∧
    forget io_fails (c, s1.2) = (o, s2) ∧
    calls s2.2 = calls s.2 ++ made ∧
    (refcount_deep_remove (root_id s.1) ∉ made) ∧
    refcount_flat_remove (root_id s.1) ∉ made.
Proof.
  intros Hroot Htype.
  assert (∃ counts',
            clone s =
              (Returned (mk (root_id s.1)
                            (<[root_id s.1 := mkNode Missing ∅ (mkChildren ∅ ∅ ∅)]>
                               (_nodes s.1))),
               (s.1, mkStore (objects s.2) counts' (calls s.2))) ∧
            ∀ id, Rc_load (mkStore (objects s.2) counts' (calls s.2)) id =
                  clone_count (type <$> _nodes s.1 !! id) (Rc_load s.2 id))
    as (counts' & Hclone & Hcounts).
  { destruct s as [this store]. cbn [fst snd].
    destruct (list_to_map_map_items (_nodes this)) as [Hnodup Hmap].
    destruct (clone_loop_run (map_items (_nodes this)) (create (root_id this)) this store
                Hnodup) as (counts' & Hrun & Hcounts).
    exists counts'. unfold clone, mbind, Exn_bind, gets. cbn [fst snd]. rewrite Hrun.
    rewrite insert_new_fold, Hmap in *. cbn [create root_id _nodes].
    by rewrite insert_union_singleton_l. }
  set (c := mk (root_id s.1)
              (<[root_id s.1 := mkNode Missing ∅ (mkChildren ∅ ∅ ∅)]> (_nodes s.1))) in *.
  set (store1 := mkStore (objects s.2) counts' (calls s.2)) in *.
  exists c, (s.1, store1), (forget io_fails (c, store1)).1, (forget io_fails (c, store1)).2,
    (until_failure io_fails (omap removal (map_items (_nodes c)))).
  split; [exact Hclone|]. cbn [fst snd].
  rewrite Hcounts, Hroot. cbn [fmap option_fmap option_map].
  split; [done|]. split.
  { destruct (Rc_load s.2 (root_id s.1)) as [d r]. destruct (type n); cbn; [done| |];
      intros [=]; lia. }
  split; [by destruct (forget io_fails (c, store1))|].
  split.
  { unfold forget, mbind, Exn_bind, gets, modify_nodes, modify. cbn [fst snd _nodes root_id].
    unfold try_or_exit. rewrite forget_loop. cbn [fst snd objects counts calls].
    by destruct (forallb _ _). }
  assert (∀ x, x ∈ omap removal (map_items (_nodes c)) →
               x ≠ refcount_deep_remove (root_id s.1) ∧
               x ≠ refcount_flat_remove (root_id s.1)) as Hnone.
  { intros x ([k m] & Hkm%elem_of_map_items & Hx)%list_elem_of_omap.
    unfold removal in Hx. cbn [fst snd] in Hx. subst c. cbn [_nodes] in Hkm.
    destruct (decide (k = root_id s.1)) as [->|Hk].
    - rewrite lookup_insert_eq in Hkm. injection Hkm as <-. done.
    - destruct (type m); simplify_eq; split; congruence. }
  split; intros Hin%elem_of_until_failure%Hnone; naive_solver.
Qed.

Lemma sort_children_all_complete store (cs : gset ObjectId) :
  (∀ c, c ∈ cs → c ∈ objects store ∧ 0 < recursive_count (Rc_load store c)) →
  sort_children store cs = mkChildren ∅ ∅ cs.
Proof.
  intros Hall. unfold sort_children.
  pose proof (sort_children_fold store (set_items cs) (mkChildren ∅ ∅ ∅)) as Hfold.
  destruct (foldl _ _ _) as [m i c]. cbn [missing incomplete complete] in Hfold.
  f_equal; apply set_eq; intros x; destruct (Hfold x) as (Hm & Hi & Hc).
  - rewrite Hm, elem_of_set_items. set_solver.
  - rewrite Hi, elem_of_set_items. set_solver.
  - rewrite Hc, elem_of_set_items. set_solver.
Qed.

(** X9: A Missing node without parents (the root) that arrives with children
    which are all in the object directory with a positive recursive count:
    all of them are filed as complete, the recursive count of the node is
    incremented, and yet the type of the node is set to Incomplete, so that
    [forget] asks [flat_remove] for it. *)
Theorem insert_object_children_complete fuel id (ks : gset ObjectId) r nodes store node :
  nodes !! id = Some node →
  type node = Missing →
  parents node = ∅ →
  ks ≠ ∅ →
  id ∉ ks →
  (∀ c, c ∈ ks → c ∈ objects store ∧ 0 < recursive_count (Rc_load store c)) →
  ∃ s',
    insert_object fuel id ks (mk r nodes, store) = (Returned (), s') ∧
    _nodes s'.1 !! id = Some (mkNode Incomplete ∅ (mkChildren ∅ ∅ ks)) ∧
    Rc_load s'.2 id = mkRc (direct_count (Rc_load store id))
                           (recursive_count (Rc_load store id) + 1) ∧
    removal (id, mkNode Incomplete ∅ (mkChildren ∅ ∅ ks))
      = Some (refcount_flat_remove id).
Proof.
  intros Hid Htype Hparents Hne Hself Hall. unfold insert_object.
  unfold mbind at 1, Exn_bind at 1, gets at 1. cbn [fst snd _nodes]. rewrite Hid.
  rewrite decide_False by (by intros H; apply H).
  unfold mbind at 1, Exn_bind at 1, gets at 1. cbn [fst snd].
  rewrite sort_children_all_complete by done.
  rewrite decide_False by done.
  unfold mbind at 1, Exn_bind at 1, modify_nodes at 1, modify at 1. cbn [fst snd _nodes root_id].
  unfold mbind at 1, Exn_bind at 1. rewrite add_parents_run.
  unfold mbind at 1, Exn_bind at 1, nodes_at at 1. cbn [fst snd _nodes].
  rewrite add_parents_lookup by apply NoDup_set_items.
  rewrite decide_False by (by rewrite elem_of_set_items).
  rewrite lookup_insert_eq, Hparents.
  unfold is_complete. cbn [children missing incomplete parents].
  rewrite !bool_decide_eq_true_2 by done. cbn [andb].
  rewrite set_items_empty. cbn [for_each].
  unfold mbind, Exn_bind, increment_recursive_count, modify_rc, modify, mret, Exn_ret.
  cbn [fst snd]. eexists. split; [reflexivity|]. cbn [fst snd _nodes].
  split_and!.
  - rewrite add_parents_lookup by apply NoDup_set_items.
    rewrite decide_False by (by rewrite elem_of_set_items). by rewrite lookup_insert_eq.
  - apply Rc_load_insert_eq.
  - done.
Qed.


Lemma insert_object_types_advance_witness :
  match _nodes (create 1) !! 1 with
  | Some n => (type_rank (type n)
               ≤ type_rank (type (mkNode Incomplete ∅ (mkChildren {[ 2%N ]} ∅ ∅))))%nat
  | None => (1%N ∈ ({[ 2%N ]} : gset ObjectId)) ∧
            type (mkNode Incomplete ∅ (mkChildren {[ 2%N ]} ∅ ∅)) = Missing
  end.
Proof.
  apply (insert_object_types_advance 1 1 {[ 2 ]} (create 1, mkStore ∅ ∅ [])
           (insert_object 1 1 {[ 2 ]} (create 1, mkStore ∅ ∅ [])).1
           (insert_object 1 1 {[ 2 ]} (create 1, mkStore ∅ ∅ [])).2 1).
  - vm_compute. reflexivity.
  - vm_compute. reflexivity.
Defined.

Lemma insert_object_again_witness :
  let s' := (insert_object 1 1 {[ 2 ]} (create 1, mkStore ∅ ∅ [])).2 in
  insert_object 1 1 ∅ s' = (Returned (), s').
Proof.
  intros s'.
  apply (insert_object_again 1 1 1 {[ 2 ]} ∅ (create 1, mkStore ∅ ∅ []) (Returned ()) s').
  vm_compute. reflexivity.
Defined.

Lemma clone_forget_keeps_root_count_witness :
  ∃ c s1 o s2 made,
    clone two_nodes = (Returned c, s1) ∧
    Rc_load s1.2 (root_id two_nodes.1)
      = clone_count (Some Complete) (Rc_load two_nodes.2 (root_id two_nodes.1)) ∧
    Rc_load s1.2 (root_id two_nodes.1) ≠ Rc_load two_nodes.2 (root_id two_nodes.1) ∧
    forget no_faults (c, s1.2) = (o, s2) ∧
    calls s2.2 = calls two_nodes.2 ++ made ∧
    (refcount_deep_remove (root_id two_nodes.1) ∉ made) ∧
    refcount_flat_remove (root_id two_nodes.1) ∉ made.
Proof.
  apply (clone_forget_keeps_root_count no_faults two_nodes
           (mkNode Complete ∅ (mkChildren ∅ ∅ ∅))).
  - vm_compute. reflexivity.
  - vm_compute. discriminate.
Defined.

Lemma insert_object_children_complete_witness :
  ∃ s',
    insert_object 1 1 {[ 2 ]}
      (mk 1 {[ 1 := mkNode Missing ∅ (mkChildren ∅ ∅ ∅) ]},
       mkStore {[ 2 ]} {[ 2 := mkRc 0 1 ]} []) = (Returned (), s') ∧
    _nodes s'.1 !! 1 = Some (mkNode Incomplete ∅ (mkChildren ∅ ∅ {[ 2 ]})) ∧
    Rc_load s'.2 1 =
      mkRc (direct_count (Rc_load (mkStore {[ 2 ]} {[ 2 := mkRc 0 1 ]} []) 1))
           (recursive_count (Rc_load (mkStore {[ 2 ]} {[ 2 := mkRc 0 1 ]} []) 1) + 1) ∧
    removal (1, mkNode Incomplete ∅ (mkChildren ∅ ∅ {[ 2 ]})) = Some (refcount_flat_remove 1).
Proof.
  apply (insert_object_children_complete 1 1 {[ 2 ]} 1
           {[ 1 := mkNode Missing ∅ (mkChildren ∅ ∅ ∅) ]}
           (mkStore {[ 2 ]} {[ 2 := mkRc 0 1 ]} [])
           (mkNode Missing ∅ (mkChildren ∅ ∅ ∅))).
  - vm_compute. reflexivity.
  - reflexivity.
  - reflexivity.
  - vm_compute. discriminate.
  - vm_compute. discriminate.
  - intros c ->%elem_of_singleton. split; vm_compute; reflexivity.
Defined.

End SnapshotProps.

(** ** RootOp *)

Module RootOpProps.
Import RootOp.

Lemma version_of_merge a b u :
  version_of (merge a b) u = N.max (version_of a u) (version_of b u).
Proof.
  unfold version_of, merge. rewrite lookup_union_with.
  destruct (a !! u), (b !! u); simpl; lia.
Qed.

Lemma union_as_fold d :
  calculate_version_vector_union d =
  foldl (λ result vo, merge result (versions vo)) ∅ (entries d).
Proof.
  unfold calculate_version_vector_union, entries.
  generalize (∅ : VersionVector). induction (name_items (_name_map d)) as [|entry l IH]; intros acc.
  - done.
  - cbn [foldl mbind list_bind]. rewrite foldl_app, foldl_fmap. apply IH.
Qed.

Lemma version_of_fold u vos : ∀ acc,
  (version_of acc u ≤ version_of (foldl (λ result vo, merge result (versions vo)) acc vos) u) ∧
  (∀ vo, vo ∈ vos →
     version_of (versions vo) u
       ≤ version_of (foldl (λ result vo, merge result (versions vo)) acc vos) u) ∧
  (∀ n, version_of acc u ≤ n → (∀ vo, vo ∈ vos → version_of (versions vo) u ≤ n) →
     version_of (foldl (λ result vo, merge result (versions vo)) acc vos) u ≤ n).
Proof.
  induction vos as [|vo vos IH]; intros acc; cbn [foldl].
  - split_and!; [lia| by intros ? ?%elem_of_nil | by intros].
  - destruct (IH (merge acc (versions vo))) as (Hacc & Hin & Hle).
    rewrite version_of_merge in Hacc, Hle. split_and!.
    + lia.
    + intros vo' [->|Hvo']%elem_of_cons; [lia|by apply Hin].
    + intros n Hn Hall. apply Hle.
      * specialize (Hall vo ltac:(by left)). lia.
      * intros vo' Hvo'. apply Hall. by right.
Qed.


Lemma shrinks_refl w : shrinks w w.
Proof. by split_and!. Qed.

Lemma shrinks_trans w1 w2 w3 : shrinks w1 w2 → shrinks w2 w3 → shrinks w1 w3.
Proof.
  intros (Hc1 & He1 & Hb1 & Hl1) (Hc2 & He2 & Hb2 & Hl2). split_and!.
  - congruence.
  - set_solver.
  - by transitivity (blocks w2).
  - by transitivity (log w2).
Qed.

(** One call of [remove_recursive], step by step. *)
Lemma remove_recursive_S fuel user obj parent w :
  remove_recursive (S fuel) user obj parent w =
  let w1 := logged (index_remove_object user obj parent)
              (mkWorld (blocks w) (edges w ∖ {[ (user, obj, parent) ]}) (commits w) (log w)) in
  if someone_has obj (edges w1) then (Returned (), w1)
  else match blocks w !! obj with
       | None => (Threw runtime_error, w1)
       | Some block =>
           match match maybe_load block with
                 | Some d => for_each (unique_children d)
                               (λ child_id, remove_recursive fuel user child_id obj)
                 | None => mret ()
                 end (logged (block_store_load obj) w1) with
           | (Returned _, w3) =>
               (Returned (),
                logged (objstore_remove obj)
                  (mkWorld (delete obj (blocks w3)) (edges w3) (commits w3) (log w3)))
           | (Threw e, w3) => (Threw e, w3)
           end
       end.
Proof.
  cbn [remove_recursive]. unfold mbind at 1, Exn_bind at 1, Index_remove_object, modify.
  unfold mbind at 1, Exn_bind at 1, Index_someone_has, gets. cbn zeta.
  destruct (someone_has _ _); [done|].
  unfold mbind at 1, Exn_bind at 1, Block_store_load at 1. cbn [blocks logged].
  destruct (blocks w !! obj) as [block|]; [|done].
  unfold mbind at 1, Exn_bind at 1.
  destruct (maybe_load block) as [d|]; [|done].
  destruct (for_each _ _ _) as [[[]|e] w3]; done.
Qed.

Lemma remove_recursive_shrinks fuel : ∀ user obj parent w o w',
  remove_recursive fuel user obj parent w = (o, w') → shrinks w w'.
Proof.
  induction fuel as [|fuel IH]; intros user obj parent w o w' Hrun.
  - injection Hrun as _ <-. apply shrinks_refl.
  - rewrite remove_recursive_S in Hrun. cbn zeta in Hrun.
    set (w1 := logged _ _) in Hrun.
    assert (shrinks w w1) as H1.
    { subst w1. split_and!; cbn; [done|set_solver|done|by apply prefix_app_r]. }
    destruct (someone_has _ _); [by injection Hrun as _ <-|].
    destruct (blocks w !! obj) as [block|]; [|by injection Hrun as _ <-].
    set (w2 := logged (block_store_load obj) w1) in Hrun.
    assert (shrinks w w2) as H2.
    { eapply shrinks_trans; [exact H1|]. subst w2.
      split_and!; cbn; [done..|by apply prefix_app_r]. }
    assert (∃ o3 w3, match maybe_load block with
                     | Some d => for_each (unique_children d)
                                   (λ child_id, remove_recursive fuel user child_id obj)
                     | None => mret ()
                     end w2 = (o3, w3) ∧ shrinks w w3) as (o3 & w3 & Hloop & H3).
    { destruct (maybe_load block) as [d|].
      - destruct (for_each _ _ w2) as [o3 w3] eqn:Hloop. exists o3, w3. split; [done|].
        eapply (for_each_inv (shrinks w)); [| |exact Hloop]; [|exact H2].
        intros c s o0 s0 _ Hs Hc. eapply shrinks_trans; [exact Hs|]. eapply IH, Hc.
      - by exists (Returned ()), w2. }
    rewrite Hloop in Hrun.
    destruct o3 as [[]|e]; injection Hrun as _ <-; [|done].
    eapply shrinks_trans; [exact H3|].
    split_and!; cbn; [done..|apply delete_subseteq|by apply prefix_app_r].
Qed.


Lemma ranked_subseteq rank bs bs' : bs' ⊆ bs → ranked rank bs → ranked rank bs'.
Proof.
  intros Hsub Hranked i d c Hi Hc. eapply Hranked; [|exact Hc].
  eapply lookup_weaken; [exact Hi|exact Hsub].
Qed.

(** On blocks that form a DAG, a budget above the rank of the object is
    enough. *)
Lemma remove_recursive_enough_fuel rank fuel : ∀ user obj parent w o w',
  ranked rank (blocks w) → (rank obj < fuel)%nat →
  remove_recursive fuel user obj parent w = (o, w') → o ≠ Threw out_of_fuel.
Proof.
  induction fuel as [|fuel IH]; intros user obj parent w o w' Hranked Hfuel Hrun; [lia|].
  rewrite remove_recursive_S in Hrun. cbn zeta in Hrun.
  set (w1 := logged _ _) in Hrun.
  destruct (someone_has _ _); [by injection Hrun as <- _|].
  destruct (blocks w !! obj) as [block|] eqn:Hblock; [|by injection Hrun as <- _].
  destruct (maybe_load block) as [d|] eqn:Hd.
  - destruct block as [d'|]; [|done]. injection Hd as ->.
    destruct (for_each _ _ _) as [o3 w3] eqn:Hloop.
    eapply (for_each_inv_outcome (λ s, blocks s ⊆ blocks w) (λ e, e ≠ out_of_fuel))
      in Hloop as [_ Hthrown]; [| |done].
    + destruct o3 as [[]|e]; injection Hrun as <- _; [done|]. intros [= ->]. by eapply Hthrown.
    + intros c s o0 s0 Hc Hs Hbody. split.
      * apply remove_recursive_shrinks in Hbody as (_ & _ & Hb & _). by transitivity (blocks s).
      * intros e -> ->. eapply IH; [| |exact Hbody|done].
        -- eapply ranked_subseteq; [exact Hs|exact Hranked].
        -- specialize (Hranked obj d c Hblock Hc). lia.
  - cbn in Hrun. by injection Hrun as <- _.
Qed.

(** Every call starts by taking the edge out of the index. *)
Lemma remove_recursive_first_call fuel user obj parent w o w' :
  remove_recursive (S fuel) user obj parent w = (o, w') →
  shrinks (logged (index_remove_object user obj parent)
             (mkWorld (blocks w) (edges w ∖ {[ (user, obj, parent) ]}) (commits w) (log w))) w'.
Proof.
  intros Hrun. pose proof Hrun as Hshrinks.
  rewrite remove_recursive_S in Hrun. cbn zeta in Hrun.
  set (w1 := logged _ _) in *.
  destruct (someone_has _ _); [injection Hrun as _ <-; apply shrinks_refl|].
  destruct (blocks w !! obj) as [block|]; [|injection Hrun as _ <-; apply shrinks_refl].
  set (w2 := logged (block_store_load obj) w1) in Hrun.
  assert (shrinks w1 w2) as H2.
  { subst w2. split_and!; cbn; [done..|by apply prefix_app_r]. }
  assert (∃ o3 w3, match maybe_load block with
                   | Some d => for_each (unique_children d)
                                 (λ child_id, remove_recursive fuel user child_id obj)
                   | None => mret ()
                   end w2 = (o3, w3) ∧ shrinks w1 w3) as (o3 & w3 & Hloop & H3).
  { destruct (maybe_load block) as [d|].
    - destruct (for_each _ _ w2) as [o3 w3] eqn:Hloop. exists o3, w3. split; [done|].
      eapply (for_each_inv (shrinks w1)); [| |exact Hloop]; [|exact H2].
      intros c s o0 s0 _ Hs Hc. eapply shrinks_trans; [exact Hs|].
      eapply remove_recursive_shrinks, Hc.
    - by exists (Returned ()), w2. }
  rewrite Hloop in Hrun.
  destruct o3 as [[]|e]; injection Hrun as _ <-; [|done].
  eapply shrinks_trans; [exact H3|].
  split_and!; cbn; [done..|apply delete_subseteq|by apply prefix_app_r].
Qed.

(** A loop over children that returns has called [remove_recursive] on each
    of them with the directory as parent. *)
Lemma children_loop_calls fuel user obj xs : ∀ w w',
  for_each xs (λ child_id, remove_recursive fuel user child_id obj) w = (Returned (), w') →
  ∃ mid, log w' = log w ++ mid ∧
         ∀ c, c ∈ xs → index_remove_object user c obj ∈ mid.
Proof.
  induction xs as [|c xs IH]; intros w w' Hrun; cbn [for_each] in Hrun.
  - injection Hrun as <-. exists []. split; [by rewrite app_nil_r|]. by intros ? ?%elem_of_nil.
  - apply bind_Returned in Hrun as ([] & w1 & Hc & Hrest).
    destruct fuel as [|fuel]; [done|].
    apply remove_recursive_first_call in Hc as (_ & _ & _ & [rest Hlog]).
    cbn in Hlog. destruct (IH _ _ Hrest) as (mid & Hmid & Hin).
    exists (index_remove_object user c obj :: rest ++ mid). split.
    + rewrite Hmid, Hlog. by rewrite <- !app_assoc.
    + intros c' [->|Hc']%elem_of_cons; [by left|].
      right. apply elem_of_app. right. by apply Hin.
Qed.


(** C9: when the tree hashes to the id of the original commit, [commit]
    returns false and leaves the world as it was: no block is written, no
    edge inserted or removed, no version vector set, no call made at all. *)
Theorem commit_same_tree_is_noop Sha256 fuel op w :
  calculate_id Sha256 (_tree op) = id (_original_commit op) →
  commit Sha256 fuel op w = (Returned false, w).
Proof.
  intros Hsame. unfold commit. by rewrite decide_True.
Qed.

Lemma insert_children_run user parent xs : ∀ w,
  ∃ w', for_each xs (λ child_id, Index_insert_object user child_id parent) w
          = (Returned (), w') ∧
        commits w' = commits w.
Proof.
  induction xs as [|c xs IH]; intros w; cbn [for_each].
  - by exists w.
  - unfold mbind at 1, Exn_bind at 1, Index_insert_object at 1, modify at 1.
    destruct (IH (logged (index_insert_object user c parent)
                    (mkWorld (blocks w) ({[ (user, c, parent) ]} ∪ edges w) (commits w) (log w))))
      as (w' & Hrun & Hcommits).
    exists w'. by split.
Qed.

(** A commit that returns true has set the version vector of the user to the
    union over the tree. *)
Lemma commit_true_versions Sha256 fuel op w w' :
  commit Sha256 fuel op w = (Returned true, w') →
  commits w' =
    alter (λ c, mkVersioned (id c) (calculate_version_vector_union (_tree op)))
      (_this_user_id op) (commits w).
Proof.
  unfold commit. case_decide as Hid; [done|]. intros Hrun.
  unfold mbind at 1, Exn_bind at 1, save at 1 in Hrun.
  unfold mbind at 1, Exn_bind at 1, Block_store_store at 1, modify at 1 in Hrun.
  unfold mret at 1, Exn_ret at 1 in Hrun. rewrite decide_True in Hrun by done.
  unfold mbind at 1, Exn_bind at 1, mret at 1, Exn_ret at 1 in Hrun.
  unfold mbind at 1, Exn_bind at 1 in Hrun.
  match type of Hrun with context [for_each ?xs ?body ?w0] =>
    destruct (insert_children_run (_this_user_id op) (calculate_id Sha256 (_tree op)) xs w0)
      as (w1 & Hloop & Hcommits)
  end.
  rewrite Hloop in Hrun.
  unfold mbind at 1, Exn_bind at 1, Index_insert_object at 1, modify at 1 in Hrun.
  unfold mbind at 1, Exn_bind at 1, Index_set_version_vector at 1, modify at 1 in Hrun.
  apply bind_Returned in Hrun as ([] & w2 & Hremove & Hret).
  injection Hret as <-.
  apply remove_recursive_shrinks in Hremove as (-> & _). cbn. by rewrite Hcommits.
Qed.



Lemma commit_same_tree_is_noop_witness :
  commit example_hash 1 untouched empty_branch = (Returned false, empty_branch).
Proof.
  apply (commit_same_tree_is_noop example_hash 1 untouched empty_branch).
  reflexivity.
Defined.



(** *** What a commit writes and what a removal spares *)

(** X17: [calculate_version_vector_union] is the least upper bound of the version
    vectors of the entries: it is at least each of them, and at most every
    vector that is at least each of them. For a directory without entries it
    is the empty vector. *)
Theorem version_vector_union_is_least_upper_bound (d : Directory) :
  (∀ vo, vo ∈ entries d → vv_le (versions vo) (calculate_version_vector_union d)) ∧
  (∀ vv, (∀ vo, vo ∈ entries d → vv_le (versions vo) vv) →
         vv_le (calculate_version_vector_union d) vv) ∧
  (entries d = [] → calculate_version_vector_union d = ∅).
Proof.
  rewrite union_as_fold. split_and!.
  - intros vo Hvo u. by apply (version_of_fold u (entries d) ∅).
  - intros vv Hall u. apply (version_of_fold u (entries d) ∅).
    + unfold version_of at 1. rewrite lookup_empty. cbn. lia.
    + intros vo Hvo. by apply Hall.
  - by intros ->.
Qed.

(** X19: A [RootOp] made for a user and committed at once, with the tree as it
    was loaded: when the block of the user's commit is a directory that is
    stored under its own id, the constructor loads it, and [commit] returns
    false and changes nothing. *)
Theorem create_then_commit_is_noop Sha256 fuel user (w : World) c d :
  commits w !! user = Some c →
  blocks w !! id c = Some (block_directory d) →
  calculate_id Sha256 d = id c →
  ∃ op w1,
    create user w = (Returned op, w1) ∧
    op = mk user d c ∧
    w1 = logged (block_store_load (id c)) w ∧
    commit Sha256 fuel op w1 = (Returned false, w1).
Proof.
  intros Hc Hblock Hid. eexists _, _.
  unfold create, mbind, Exn_bind, gets, Block_store_load. rewrite Hc, Hblock. cbn.
  split_and!; [reflexivity..|].
  unfold commit. cbn. by rewrite decide_True.
Qed.

Lemma someone_has_subseteq (x : ObjectId) (es es' : gset Edge) :
  es' ⊆ es → someone_has x es = false → someone_has x es' = false.
Proof.
  unfold someone_has. intros Hsub Hno%bool_decide_eq_false.
  apply bool_decide_eq_false. intros (e & He & Hx). apply Hno. exists e. split; [|done].
  by apply Hsub.
Qed.

(** A block that is gone is one nobody has. *)
Lemma spared_trans (w1 w2 w3 : World) :
  shrinks w2 w3 →
  (∀ x, is_Some (blocks w1 !! x) → blocks w2 !! x = None → someone_has x (edges w2) = false) →
  (∀ x, is_Some (blocks w2 !! x) → blocks w3 !! x = None → someone_has x (edges w3) = false) →
  ∀ x, is_Some (blocks w1 !! x) → blocks w3 !! x = None → someone_has x (edges w3) = false.
Proof.
  intros (_ & Hedges & _) H12 H23 x Hx1 Hx3.
  destruct (blocks w2 !! x) as [b|] eqn:Hx2.
  - apply H23; [by rewrite Hx2|done].
  - eapply someone_has_subseteq; [exact Hedges|]. by apply H12.
Qed.

(** X20: [remove_recursive] takes no block away that somebody still has: for
    every block that is gone after the call, however the call ends, the
    index holds no edge to it, of any user or parent. The commits of the
    index are as before. *)
Theorem remove_recursive_spares_referenced fuel : ∀ user obj parent w o w',
  remove_recursive fuel user obj parent w = (o, w') →
  commits w' = commits w ∧
  ∀ x, is_Some (blocks w !! x) → blocks w' !! x = None → someone_has x (edges w') = false.
Proof.
  intros user obj parent w o w' Hrun.
  split; [by apply remove_recursive_shrinks in Hrun as [? _]|].
  revert user obj parent w o w' Hrun.
  induction fuel as [|fuel IH]; intros user obj parent w o w' Hrun x Hx Hgone.
  { injection Hrun as _ <-. rewrite Hgone in Hx. by destruct Hx. }
  rewrite remove_recursive_S in Hrun. cbn zeta in Hrun.
  set (w1 := logged _ _) in Hrun.
  destruct (someone_has obj (edges w1)) eqn:Hhas.
  { injection Hrun as _ <-. cbn in Hgone. rewrite Hgone in Hx. by destruct Hx. }
  destruct (blocks w !! obj) as [block|] eqn:Hblock.
  2: { injection Hrun as _ <-. cbn in Hgone. rewrite Hgone in Hx. by destruct Hx. }
  set (w2 := logged (block_store_load obj) w1) in Hrun.
  assert (∃ o3 w3, match maybe_load block with
                   | Some d => for_each (unique_children d)
                                 (λ child_id, remove_recursive fuel user child_id obj)
                   | None => mret ()
                   end w2 = (o3, w3) ∧ shrinks w2 w3 ∧
                   ∀ y, is_Some (blocks w !! y) → blocks w3 !! y = None →
                        someone_has y (edges w3) = false) as (o3 & w3 & Hloop & Hshr & H3).
  { destruct (maybe_load block) as [d|].
    - destruct (for_each _ _ w2) as [o3 w3] eqn:Hloop. exists o3, w3. split; [done|].
      eapply (for_each_inv
                (λ s, shrinks w2 s ∧
                      ∀ y, is_Some (blocks w !! y) → blocks s !! y = None →
                           someone_has y (edges s) = false)); [| |exact Hloop].
      + intros c s o0 s0 _ [Hs Hspared] Hc. split.
        * eapply shrinks_trans; [exact Hs|]. eapply remove_recursive_shrinks, Hc.
        * eapply spared_trans; [eapply remove_recursive_shrinks, Hc|exact Hspared|].
          intros y. by eapply IH.
      + split; [apply shrinks_refl|]. intros y Hy Hy2. cbn in Hy2. rewrite Hy2 in Hy.
        by destruct Hy.
    - exists (Returned ()), w2. split; [done|]. split; [apply shrinks_refl|].
      intros y Hy Hy2. cbn in Hy2. rewrite Hy2 in Hy. by destruct Hy. }
  rewrite Hloop in Hrun.
  destruct o3 as [[]|e]; injection Hrun as _ <-; [|by apply H3].
  cbn [blocks edges logged] in *.
  destruct (decide (x = obj)) as [->|Hne].
  - eapply someone_has_subseteq; [|exact Hhas]. destruct Hshr as (_ & Hedges & _).
    exact Hedges.
  - rewrite lookup_delete_ne in Hgone by done. by apply H3.
Qed.


(** While the index has the root edge of [x], no call of [remove_recursive]
    with another parent takes away an edge below [x] or the block of [x]. *)
Lemma remove_recursive_keeps_root fuel (u x : ObjectId) : ∀ user obj parent w o w',
  (u, x, x) ∈ edges w →
  parent ≠ x →
  remove_recursive fuel user obj parent w = (o, w') →
  (∀ e : Edge, e.2 = x → e ∈ edges w → e ∈ edges w') ∧ blocks w' !! x = blocks w !! x.
Proof.
  induction fuel as [|fuel IH]; intros user obj parent w o w' Hroot Hparent Hrun.
  { by injection Hrun as _ <-. }
  rewrite remove_recursive_S in Hrun. cbn zeta in Hrun.
  set (w1 := logged _ _) in Hrun.
  assert ((∀ e : Edge, e.2 = x → e ∈ edges w → e ∈ edges w1) ∧
          blocks w1 !! x = blocks w !! x) as [He1 Hb1].
  { subst w1. cbn. split; [|done]. intros [[eu eo] ep] Hep He. cbn in Hep. subst ep.
    apply elem_of_difference. split; [done|]. intros [= _ _ ->]%elem_of_singleton. done. }
  destruct (someone_has obj (edges w1)) eqn:Hhas.
  { by injection Hrun as _ <-. }
  assert (obj ≠ x) as Hobj.
  { intros ->. apply bool_decide_eq_false in Hhas. apply Hhas. exists (u, x, x).
    split; [|done]. by apply He1. }
  destruct (blocks w !! obj) as [block|] eqn:Hblock.
  2: { by injection Hrun as _ <-. }
  set (w2 := logged (block_store_load obj) w1) in Hrun.
  assert (∃ o3 w3, match maybe_load block with
                   | Some d => for_each (unique_children d)
                                 (λ child_id, remove_recursive fuel user child_id obj)
                   | None => mret ()
                   end w2 = (o3, w3) ∧
                   (∀ e : Edge, e.2 = x → e ∈ edges w → e ∈ edges w3) ∧
                   blocks w3 !! x = blocks w !! x) as (o3 & w3 & Hloop & He3 & Hb3).
  { destruct (maybe_load block) as [d|].
    - destruct (for_each _ _ w2) as [o3 w3] eqn:Hloop. exists o3, w3. split; [done|].
      eapply (for_each_inv
                (λ s, (∀ e : Edge, e.2 = x → e ∈ edges w → e ∈ edges s) ∧
                      blocks s !! x = blocks w !! x)); [| |exact Hloop].
      + intros c s o0 s0 _ [Hes Hbs] Hc.
        destruct (IH user c obj s o0 s0) as [Hes0 Hbs0]; [by apply Hes|done|done|].
        split; [|congruence]. intros e Hex He. by apply Hes0, Hes.
      + done.
    - by exists (Returned ()), w2. }
  rewrite Hloop in Hrun.
  destruct o3 as [[]|e]; injection Hrun as _ <-; [|done].
  cbn [blocks edges logged]. split; [done|]. by rewrite lookup_delete_ne.
Qed.





(** The updates made for the users of one name end where the next name
    starts. *)
Lemma user_updates_inj (l1 : list (UserId * VersionedObject)) : ∀ l2 r1 r2,
  (∀ u, head r1 ≠ Some (update_user u)) →
  (∀ u, head r2 ≠ Some (update_user u)) →
  (l1 ≫= λ uv, [update_user uv.1; update_id (id uv.2); update_versions (versions uv.2)]) ++ r1 =
  (l2 ≫= λ uv, [update_user uv.1; update_id (id uv.2); update_versions (versions uv.2)]) ++ r2 →
  l1 = l2 ∧ r1 = r2.
Proof.
  induction l1 as [|[u1 [i1 v1]] l1 IH]; intros [|[u2 [i2 v2]] l2] r1 r2 H1 H2 Heq; cbn in Heq.
  - done.
  - subst r1. by destruct (H1 u2).
  - subst r2. by destruct (H2 u1).
  - injection Heq as -> -> -> Heq. destruct (IH _ _ _ H1 H2 Heq) as [-> ->]. done.
Qed.

Lemma entry_updates_inj (es1 : list (string * gmap UserId VersionedObject)) : ∀ es2,
  (es1 ≫= λ entry,
     update_string entry.1 :: update_u32 (u32 (N.of_nat (size entry.2))) ::
     (map_items entry.2 ≫= λ uv,
        [update_user uv.1; update_id (id uv.2); update_versions (versions uv.2)])) =
  (es2 ≫= λ entry,
     update_string entry.1 :: update_u32 (u32 (N.of_nat (size entry.2))) ::
     (map_items entry.2 ≫= λ uv,
        [update_user uv.1; update_id (id uv.2); update_versions (versions uv.2)])) →
  es1 = es2.
Proof.
  induction es1 as [|[n1 m1] es1 IH]; intros [|[n2 m2] es2] Heq; cbn in Heq; try done.
  injection Heq as -> _ Heq.
  apply user_updates_inj in Heq as [Hm Hrest].
  - apply map_items_inj in Hm as ->. by rewrite (IH _ Hrest).
  - intros u. by destruct es1 as [|[? ?] ?].
  - intros u. by destruct es2 as [|[? ?] ?].
Qed.

(** X18: What [calculate_id] feeds to the hash determines the directory: two
    directories for which the same sequence of [hash.update] calls is made
    are equal, so that two different directories can only get the same id
    when the hash collides. *)
Theorem Directory_updates_inj (d1 d2 : Directory) :
  Directory_updates d1 = Directory_updates d2 → d1 = d2.
Proof.
  destruct d1 as [m1], d2 as [m2]. unfold Directory_updates. cbn [_name_map].
  intros [= _ Heq%entry_updates_inj]. f_equal.
  apply map_eq. intros k. apply option_eq. intros v.
  by rewrite <- !elem_of_name_items, Heq.
Qed.


Lemma create_then_commit_is_noop_witness :
  ∃ op w1,
    create alice empty_branch = (Returned op, w1) ∧
    op = mk alice empty_directory (mkVersioned empty_id ∅) ∧
    w1 = logged (block_store_load (id (mkVersioned empty_id ∅))) empty_branch ∧
    commit example_hash 1 op w1 = (Returned false, w1).
Proof.
  apply (create_then_commit_is_noop example_hash 1 alice empty_branch
           (mkVersioned empty_id ∅) empty_directory).
  - vm_compute. reflexivity.
  - vm_compute. reflexivity.
  - reflexivity.
Defined.

Lemma remove_recursive_spares_referenced_witness :
  let r := remove_recursive 1 alice empty_id empty_id empty_branch in
  commits r.2 = commits empty_branch ∧
  ∀ x, is_Some (blocks empty_branch !! x) → blocks r.2 !! x = None →
       someone_has x (edges r.2) = false.
Proof.
  intros r.
  apply (remove_recursive_spares_referenced 1 alice empty_id empty_id empty_branch r.1 r.2).
  vm_compute. reflexivity.
Defined.


Lemma Directory_updates_inj_witness : with_file ∅ = with_file ∅.
Proof.
  apply (Directory_updates_inj (with_file ∅) (with_file ∅)). reflexivity.
Defined.

End RootOpProps.

(** ** Tree *)

Module TreeProps.
Import Tree.

(** X12: [insert] never overwrites: a name that is there keeps its id and the
    call reports [false]; a new name gets the id and the call reports
    [true]. Either way the handle returned is the one [find] gives
    afterwards, its [id()] is the id now stored under the name, and no other
    name and no other tree changes. *)
Theorem insert_then_find NDEBUG (heap : Heap) this (m : NameMap) k v :
  heap !! this = Some m →
  ∃ h heap',
    insert heap this (k, v) = Ok (h, bool_decide (m !! k = None), heap') ∧
    find heap' this k = Ok h ∧
    Handle_bool h = true ∧
    Handle_id NDEBUG heap' h = Ok (default v (m !! k)) ∧
    (∀ k', k' ≠ k → deref heap' this k' = m !! k') ∧
    (∀ a, a ≠ this → heap' !! a = heap !! a).
Proof.
  intros Hm. unfold insert, find. rewrite Hm. cbn [fst snd].
  destruct (m !! k) as [old|] eqn:Hk.
  - exists (Some (this, k)), heap. rewrite Hm, Hk.
    split_and!; try done.
    + cbn. unfold deref. by rewrite Hm; cbn; rewrite Hk.
    + intros k' _. unfold deref. by rewrite Hm.
  - exists (Some (this, k)), (<[this := <[k := v]> m]> heap).
    rewrite lookup_insert_eq, lookup_insert_eq.
    split_and!; try done.
    + cbn. unfold deref. rewrite lookup_insert_eq. cbn. by rewrite lookup_insert_eq.
    + intros k' Hk'. unfold deref. rewrite lookup_insert_eq. cbn. by rewrite lookup_insert_ne.
    + intros a Ha. by rewrite lookup_insert_ne.
Qed.

(** X13: The idiom [tree[k].set_id(v)]: afterwards the name [k] has the id [v],
    whether it was there before or not, and every other name has the id it
    had. *)
Theorem index_set_id NDEBUG ObjectId_default (heap : Heap) this (m : NameMap) k v :
  heap !! this = Some m →
  ∃ h heap1 heap2,
    operator_index ObjectId_default heap this k = Ok (h, heap1) ∧
    Handle_set_id NDEBUG heap1 h v = Ok heap2 ∧
    heap2 !! this = Some (<[k := v]> m) ∧
    (∀ a, a ≠ this → heap2 !! a = heap !! a).
Proof.
  intros Hm. unfold operator_index, insert. rewrite Hm. cbn [fst snd].
  destruct (m !! k) as [old|] eqn:Hk.
  - destruct (decide (v = old)) as [->|Hv].
    + exists (Some (this, k)), heap, heap. split; [reflexivity|].
      unfold Handle_set_id, deref. rewrite Hm. cbn [mbind option_bind]. rewrite Hk, decide_True by done.
      split; [done|]. by rewrite insert_id.
    + exists (Some (this, k)), heap, (alter <[k := v]> this heap). split; [reflexivity|].
      unfold Handle_set_id, deref. rewrite Hm. cbn [mbind option_bind]. rewrite Hk, decide_False by done.
      split; [done|]. split.
      * by rewrite lookup_alter_eq, Hm.
      * intros a Ha. by rewrite lookup_alter_ne.
  - set (heap1 := <[this := <[k := ObjectId_default]> m]> heap).
    destruct (decide (v = ObjectId_default)) as [->|Hv].
    + exists (Some (this, k)), heap1, heap1. split; [reflexivity|].
      unfold Handle_set_id, deref, heap1. rewrite lookup_insert_eq. cbn [mbind option_bind].
      rewrite lookup_insert_eq, decide_True by done.
      split; [done|]. split; [done|].
      intros a Ha. by rewrite lookup_insert_ne.
    + exists (Some (this, k)), heap1, (alter <[k := v]> this heap1). split; [reflexivity|].
      unfold Handle_set_id, deref, heap1. rewrite lookup_insert_eq. cbn [mbind option_bind].
      rewrite lookup_insert_eq, decide_False by done.
      split; [done|]. split.
      * rewrite lookup_alter_eq, lookup_insert_eq. cbn. by rewrite insert_insert_eq.
      * intros a Ha. by rewrite lookup_alter_ne, lookup_insert_ne.
Qed.

(** X14: [erase(find(k))] for a name that is there: the name is gone ([find] gives
    the null handle), the tree has one entry less, every other name and
    every other tree is as before; the handle that was erased must not be
    used again. *)
Theorem erase_found NDEBUG (heap : Heap) this (m : NameMap) k v :
  heap !! this = Some m →
  m !! k = Some v →
  ∃ h heap',
    find heap this k = Ok h ∧
    erase NDEBUG heap this h = Ok heap' ∧
    heap' !! this = Some (delete k m) ∧
    find heap' this k = Ok None ∧
    S (size (delete k m)) = size m ∧
    (∀ a, a ≠ this → heap' !! a = heap !! a) ∧
    Handle_id NDEBUG heap' h = Undefined.
Proof.
  intros Hm Hk. exists (Some (this, k)), (alter (delete k) this heap).
  unfold find, erase, deref. rewrite Hm, Hk, decide_True by done. cbn. rewrite Hk.
  rewrite lookup_alter_eq, Hm. cbn. rewrite lookup_delete_eq.
  split_and!; try done.
  - unfold size. rewrite map_size_delete, Hk.
    assert (base.size m ≠ 0%nat); [|lia].
    intros ->%map_size_empty_inv. by rewrite lookup_empty in Hk.
  - intros a Ha. by rewrite lookup_alter_ne.
  - unfold deref. rewrite lookup_alter_eq, Hm. cbn. by rewrite lookup_delete_eq.
Qed.

(** X15: A name that is not there gives the null handle, which converts to
    [false]. [id()], [set_id] and [erase] with the null handle, and [erase]
    with a handle into another tree, stop the process: the [assert] aborts,
    or [exit(1)] is called when asserts are compiled out. *)
Theorem null_handle_stops NDEBUG (heap : Heap) this (m : NameMap) k :
  heap !! this = Some m →
  m !! k = None →
  ∃ h,
    find heap this k = Ok h ∧
    Handle_bool h = false ∧
    Handle_id NDEBUG heap h = (if NDEBUG then Exit 1 else Abort) ∧
    (∀ v, Handle_set_id NDEBUG heap h v = if NDEBUG then Exit 1 else Abort) ∧
    erase NDEBUG heap this h = (if NDEBUG then Exit 1 else Abort) ∧
    (∀ other k', other ≠ this →
       erase NDEBUG heap this (Some (other, k')) = if NDEBUG then Exit 1 else Abort).
Proof.
  intros Hm Hk. exists None. unfold find. rewrite Hm, Hk. split_and!; try done.
  intros other k' Hne. unfold erase. by rewrite decide_False.
Qed.

(** X16: [children] is the set of the ids stored under some name, the same set
    that [_children] of [src/remote_branch.cpp] computes; it has at most as
    many elements as the tree has names. *)
Theorem children_spec (m : NameMap) :
  (∀ id, id ∈ children m ↔ ∃ name, m !! name = Some id) ∧
  children m = RemoteBranch._children m ∧
  (base.size (children m) ≤ size m)%nat.
Proof.
  assert (∀ l (acc : gset ObjectId) id,
            id ∈ foldl (λ ch (entry : string * ObjectId), {[ entry.2 ]} ∪ ch) acc l ↔
            id ∈ acc ∨ ∃ name, (name, id) ∈ l) as Hfold.
  { induction l as [|[n i] l IH]; intros acc id; cbn [foldl].
    - split; [by left|]. intros [?|[? ?%elem_of_nil]]; done.
    - rewrite IH. cbn. rewrite elem_of_union, elem_of_singleton. split.
      + intros [[->|?]|[name Hin]]; [right; exists n; by left|by left|].
        right. exists name. by right.
      + intros [?|[name [[= -> ->]|Hin]%elem_of_cons]].
        * left. by right.
        * left. by left.
        * right. by exists name. }
  assert (∀ id, id ∈ children m ↔ ∃ name, m !! name = Some id) as Hin.
  { intros id. unfold children. rewrite Hfold. split.
    - intros [?%not_elem_of_empty|[name Hn%elem_of_name_items]]; [done|]. by exists name.
    - intros [name Hn]. right. exists name. by apply elem_of_name_items. }
  assert (children m = RemoteBranch._children m) as Heq.
  { apply set_eq. intros id. rewrite Hin. unfold RemoteBranch._children.
    by rewrite elem_of_map_img. }
  split_and!; [done..|].
  rewrite Heq. unfold RemoteBranch._children, size.
  rewrite map_img_alt_L. rewrite <- (length_map_to_list m), <- (length_fmap snd).
  generalize ((map_to_list m).*2). intros l.
  induction l as [|x l IH]; cbn [list_to_set length].
  - by rewrite size_empty.
  - rewrite size_union_alt, size_singleton.
    assert (base.size (list_to_set l ∖ {[ x ]} : gset ObjectId)
            ≤ base.size (list_to_set l : gset ObjectId))%nat
      by (apply subseteq_size; set_solver).
    lia.
Qed.


Lemma insert_then_find_witness :
  ∃ h heap',
    insert one_tree 7 ("a"%string, 5)
      = Ok (h, bool_decide (({[ "a"%string := 1 ]} : NameMap) !! "a"%string = None), heap') ∧
    find heap' 7 "a" = Ok h ∧
    Handle_bool h = true ∧
    Handle_id false heap' h = Ok (default 5 (({[ "a"%string := 1 ]} : NameMap) !! "a"%string)) ∧
    (∀ k', k' ≠ "a"%string → deref heap' 7 k' = ({[ "a"%string := 1 ]} : NameMap) !! k') ∧
    (∀ a, a ≠ 7 → heap' !! a = one_tree !! a).
Proof.
  apply (insert_then_find false one_tree 7 {[ "a"%string := 1 ]} "a" 5).
  vm_compute. reflexivity.
Defined.

Lemma index_set_id_witness :
  ∃ h heap1 heap2,
    operator_index 0 one_tree 7 "b" = Ok (h, heap1) ∧
    Handle_set_id false heap1 h 5 = Ok heap2 ∧
    heap2 !! 7 = Some (<[ "b"%string := 5 ]> ({[ "a"%string := 1 ]} : NameMap)) ∧
    (∀ a, a ≠ 7 → heap2 !! a = one_tree !! a).
Proof.
  apply (index_set_id false 0 one_tree 7 {[ "a"%string := 1 ]} "b" 5).
  vm_compute. reflexivity.
Defined.

Lemma erase_found_witness :
  ∃ h heap',
    find one_tree 7 "a" = Ok h ∧
    erase false one_tree 7 h = Ok heap' ∧
    heap' !! 7 = Some (delete "a"%string ({[ "a"%string := 1 ]} : NameMap)) ∧
    find heap' 7 "a" = Ok None ∧
    S (size (delete "a"%string ({[ "a"%string := 1 ]} : NameMap)))
      = size ({[ "a"%string := 1 ]} : NameMap) ∧
    (∀ a, a ≠ 7 → heap' !! a = one_tree !! a) ∧
    Handle_id false heap' h = Undefined.
Proof.
  apply (erase_found false one_tree 7 {[ "a"%string := 1 ]} "a" 1).
  - vm_compute. reflexivity.
  - vm_compute. reflexivity.
Defined.

Lemma null_handle_stops_witness :
  ∃ h,
    find one_tree 7 "b" = Ok h ∧
    Handle_bool h = false ∧
    Handle_id true one_tree h = Exit 1 ∧
    (∀ v, Handle_set_id true one_tree h v = Exit 1) ∧
    erase true one_tree 7 h = Exit 1 ∧
    (∀ other k', other ≠ 7 → erase true one_tree 7 (Some (other, k')) = Exit 1).
Proof.
  apply (null_handle_stops true one_tree 7 {[ "a"%string := 1 ]} "b").
  - vm_compute. reflexivity.
  - vm_compute. reflexivity.
Defined.

End TreeProps.
